(** * The enrichment job pipeline of the-aiviary, embedded in Rocq

    The development follows the Python sources of the enrichment worker:

    - [lib/embedder.py]        : [truncate_to_bytes], [download_media],
                                 [generate_multimodal_embedding];
    - [lib/transcriber.py]     : [transcribe_audio], [transcribe_long_audio];
    - [lib/audio_extractor.py] : [process_video_for_transcription],
                                 [split_audio_into_chunks], [cleanup_temp_files];
    - [main.py]                : [get_next_job], [mark_job_completed],
                                 [mark_job_failed], [get_primary_media_url],
                                 [process_job].

    Part I holds the definitions, Part II the lemmas and theorems. *)

From Stdlib Require Import ZArith QArith Qround Lqa String Ascii List Lia Bool.
From stdpp Require Import base gmap strings list pretty.

Local Open Scope string_scope.
Local Open Scope list_scope.
Local Open Scope Z_scope.

(* ===================================================================== *)
(** * Part I -- definitions                                               *)
(* ===================================================================== *)

(** ** Python exceptions and results *)

(** The exception classes that the worker raises or that the run-time raises
    on its behalf.  Every class derives from [Exception], so a handler
    [except Exception] catches all of them; [except NoAudioTrackError] and
    [except ffmpeg.Error] catch one class only. *)
Inductive exn_class : Type :=
| Exception
| NoAudioTrackError
| FfmpegError
| RequestError
| DatabaseError
| TypeError
| IndexError
| ZeroDivisionError
| UnboundLocalError
| UnicodeEncodeError.

#[global] Instance exn_class_eq_dec : EqDecision exn_class.
Proof. solve_decision. Defined.

(** An exception value: its class and [str(e)]. *)
Record exn : Type := mk_exn { exn_cls : exn_class; exn_msg : string }.

Inductive result (A : Type) : Type :=
| Ok (a : A)
| Raise (e : exn).
Arguments Ok {A} a.
Arguments Raise {A} e.

Definition is_ok {A} (r : result A) : bool :=
  match r with Ok _ => true | Raise _ => false end.

(** ** Python strings *)

(** A Python [str] is a sequence of code points; each one is an integer in
    [0 .. 0x10FFFF]. *)
Definition codepoint : Type := Z.
Definition pystr : Type := list codepoint.

(** ASCII literals, for examples. *)
Definition u (s : string) : pystr :=
  map (fun a => Z.of_N (N_of_ascii a)) (list_ascii_of_string s).

(** Truthiness of a [str]: only the empty string is falsy. *)
Definition str_truthy (s : pystr) : bool :=
  match s with [] => false | _ :: _ => true end.

(** [needle in haystack] on messages. *)
Fixpoint str_startswith (p s : string) : bool :=
  match p, s with
  | EmptyString, _ => true
  | String a p', String b s' => if Ascii.eqb a b then str_startswith p' s' else false
  | String _ _, EmptyString => false
  end.

Fixpoint str_in (needle haystack : string) : bool :=
  str_startswith needle haystack ||
  match haystack with
  | EmptyString => false
  | String _ rest => str_in needle rest
  end.

(** ** UTF-8 *)

Definition is_surrogate (c : codepoint) : bool :=
  (0xD800 <=? c) && (c <=? 0xDFFF).

(** A Unicode scalar value: a code point that is not a surrogate.  Text that
    arrives from the content store or from the speech service is a sequence of
    scalar values. *)
Definition unicode_scalar (c : codepoint) : Prop :=
  0 <= c <= 0x10FFFF /\ is_surrogate c = false.

(** One code point to its UTF-8 bytes, with the shifts and masks of the
    encoder. *)
Definition utf8_encode_cp (c : codepoint) : list Z :=
  if c <? 0x80 then [c]
  else if c <? 0x800 then
    [Z.lor 0xC0 (Z.shiftr c 6); Z.lor 0x80 (Z.land c 0x3F)]
  else if c <? 0x10000 then
    [Z.lor 0xE0 (Z.shiftr c 12);
     Z.lor 0x80 (Z.land (Z.shiftr c 6) 0x3F);
     Z.lor 0x80 (Z.land c 0x3F)]
  else
    [Z.lor 0xF0 (Z.shiftr c 18);
     Z.lor 0x80 (Z.land (Z.shiftr c 12) 0x3F);
     Z.lor 0x80 (Z.land (Z.shiftr c 6) 0x3F);
     Z.lor 0x80 (Z.land c 0x3F)].

Definition utf8_bytes (s : pystr) : list Z := flat_map utf8_encode_cp s.

(** [s.encode('utf-8')]: the strict encoder refuses lone surrogates. *)
Definition str_encode (s : pystr) : result (list Z) :=
  if forallb (fun c => negb (is_surrogate c)) s then Ok (utf8_bytes s)
  else Raise (mk_exn UnicodeEncodeError "'utf-8' codec can't encode character: surrogates not allowed").

Definition is_continuation (b : Z) : bool := (0x80 <=? b) && (b <? 0xC0).

(** [bs.decode('utf-8', errors='ignore')].  The decoder reads one sequence at
    a time.  An invalid start byte is dropped alone; an invalid continuation
    byte drops the bytes accepted so far and decoding resumes at the offending
    byte; input that ends inside a sequence drops the incomplete tail. *)
Fixpoint utf8_decode_ignore (bs : list Z) : pystr :=
  match bs with
  | [] => []
  | b0 :: r0 =>
    if b0 <? 0x80 then b0 :: utf8_decode_ignore r0
    else if b0 <? 0xC2 then utf8_decode_ignore r0
    else if b0 <? 0xE0 then
      match r0 with
      | [] => []
      | b1 :: r1 =>
        if negb (is_continuation b1) then utf8_decode_ignore r0
        else (b0 * 64 + b1 - (0xC0 * 64 + 0x80)) :: utf8_decode_ignore r1
      end
    else if b0 <? 0xF0 then
      match r0 with
      | [] => []
      | b1 :: r1 =>
        if negb (is_continuation b1)
           || (if b1 <? 0xA0 then b0 =? 0xE0 else b0 =? 0xED)
        then utf8_decode_ignore r0
        else
          match r1 with
          | [] => []
          | b2 :: r2 =>
            if negb (is_continuation b2) then utf8_decode_ignore r1
            else (b0 * 4096 + b1 * 64 + b2 - (0xE0 * 4096 + 0x80 * 64 + 0x80))
                   :: utf8_decode_ignore r2
          end
      end
    else if b0 <? 0xF5 then
      match r0 with
      | [] => []
      | b1 :: r1 =>
        if negb (is_continuation b1)
           || (if b1 <? 0x90 then b0 =? 0xF0 else b0 =? 0xF4)
        then utf8_decode_ignore r0
        else
          match r1 with
          | [] => []
          | b2 :: r2 =>
            if negb (is_continuation b2) then utf8_decode_ignore r1
            else
              match r2 with
              | [] => []
              | b3 :: r3 =>
                if negb (is_continuation b3) then utf8_decode_ignore r2
                else (b0 * 262144 + b1 * 4096 + b2 * 64 + b3
                      - (0xF0 * 262144 + 0x80 * 4096 + 0x80 * 64 + 0x80))
                       :: utf8_decode_ignore r3
              end
          end
      end
    else utf8_decode_ignore r0
  end.

(** Well-formed UTF-8 byte sequences (Unicode, table 3-7), as an independent
    recogniser. *)
Definition in_range (lo hi b : Z) : bool := (lo <=? b) && (b <=? hi).

Fixpoint utf8_wellformed (bs : list Z) : bool :=
  match bs with
  | [] => true
  | b0 :: r0 =>
    if in_range 0x00 0x7F b0 then utf8_wellformed r0
    else if in_range 0xC2 0xDF b0 then
      match r0 with
      | b1 :: r1 => in_range 0x80 0xBF b1 && utf8_wellformed r1
      | _ => false
      end
    else if in_range 0xE0 0xEF b0 then
      match r0 with
      | b1 :: b2 :: r2 =>
        in_range (if b0 =? 0xE0 then 0xA0 else 0x80)
                 (if b0 =? 0xED then 0x9F else 0xBF) b1
        && in_range 0x80 0xBF b2 && utf8_wellformed r2
      | _ => false
      end
    else if in_range 0xF0 0xF4 b0 then
      match r0 with
      | b1 :: b2 :: b3 :: r3 =>
        in_range (if b0 =? 0xF0 then 0x90 else 0x80)
                 (if b0 =? 0xF4 then 0x8F else 0xBF) b1
        && in_range 0x80 0xBF b2 && in_range 0x80 0xBF b3
        && utf8_wellformed r3
      | _ => false
      end
    else false
  end.

(** ** lib/embedder.py: [truncate_to_bytes] *)

Definition MAX_DOWNLOAD_SIZE_MB : Z := 10.
Definition MAX_TEXT_BYTES : Z := 1024.

(** The slice [l[:n]]: a negative bound counts from the end. *)
Definition py_slice_to {A} (l : list A) (n : Z) : list A :=
  if 0 <=? n then take (Z.to_nat n) l
  else take (Z.to_nat (Z.of_nat (length l) + n)) l.

Definition truncate_to_bytes (text : pystr) (max_bytes : Z) : result pystr :=
  if negb (str_truthy text) then Ok []
  else
    match str_encode text with
    | Raise e => Raise e
    | Ok encoded =>
      if Z.of_nat (length encoded) <=? max_bytes then Ok text
      else Ok (utf8_decode_ignore (py_slice_to encoded max_bytes))
    end.

(** The longest prefix of [text] whose UTF-8 encoding fits into [budget]
    bytes: the reference against which truncation is measured. *)
Fixpoint longest_fitting_prefix (text : pystr) (budget : nat) : pystr :=
  match text with
  | [] => []
  | c :: rest =>
    let n := length (utf8_encode_cp c) in
    if (n <=? budget)%nat then c :: longest_fitting_prefix rest (budget - n)
    else []
  end.

(** ** Effects: state passing with exceptions *)

(** A computation over a state of type [S] either returns a value or raises;
    in both cases it leaves a state behind. *)
Definition M (S A : Type) : Type := S -> result A * S.

Definition ret {S A} (a : A) : M S A := fun s => (Ok a, s).
Definition raise {S A} (e : exn) : M S A := fun s => (Raise e, s).
Definition lift_result {S A} (r : result A) : M S A := fun s => (r, s).

Definition bind {S A B} (m : M S A) (k : A -> M S B) : M S B :=
  fun s =>
    match m s with
    | (Ok a, s') => k a s'
    | (Raise e, s') => (Raise e, s')
    end.

Notation "x <- m ;; k" := (bind m (fun x => k))
  (at level 62, m at next level, right associativity).
Notation "m ;;; k" := (bind m (fun _ => k))
  (at level 62, right associativity).

(** [try: m except Exception as e: h e]. *)
Definition try_except {S A} (m : M S A) (h : exn -> M S A) : M S A :=
  fun s =>
    match m s with
    | (Ok a, s') => (Ok a, s')
    | (Raise e, s') => h e s'
    end.

(** [try: m except cls: h], for a handler that names one class. *)
Definition try_except_cls {S A} (cls : exn_class) (m : M S A) (h : exn -> M S A)
  : M S A :=
  fun s =>
    match m s with
    | (Ok a, s') => (Ok a, s')
    | (Raise e, s') =>
      if decide (exn_cls e = cls) then h e s' else (Raise e, s')
    end.

(** [try: m finally: fin].  The [finally] block runs on every exit; an
    exception it raises replaces the outcome of [m]. *)
Definition try_finally {S A} (m : M S A) (fin : M S unit) : M S A :=
  fun s =>
    match m s with
    | (r, s') =>
      match fin s' with
      | (Ok _, s'') => (r, s'')
      | (Raise e, s'') => (Raise e, s'')
      end
    end.

Definition get {S} : M S S := fun s => (Ok s, s).
Definition modify {S} (f : S -> S) : M S unit := fun s => (Ok tt, f s).

(** ** The store, the local disk and the network *)

(** Floating-point values are carried as rationals.  The worker never
    computes with the entries of an embedding; the duration of an audio is
    divided and compared exactly, the rounding of the quotient is not
    modelled. *)
Abbreviation float := Q.

(** A temporary file made by [tempfile.mkstemp(suffix, prefix)]: the name is
    [prefix ++ token ++ suffix] for a token that is unique on the disk. *)
Record path : Type := mk_path {
  path_prefix : string;
  path_token : nat;
  path_suffix : string
}.

#[global] Instance path_eq_dec : EqDecision path.
Proof. solve_decision. Defined.

Inductive job_status : Type := pending | processing | completed | failed.

#[global] Instance job_status_eq_dec : EqDecision job_status.
Proof. solve_decision. Defined.

(** A row of [enrichment_jobs]; the primary key [id] is the key of the map
    that holds the rows.  Timestamps are seconds. *)
Record job : Type := mk_job {
  client_id : string;
  content_id : string;
  content_type : string;
  status : job_status;
  attempts : Z;
  error_message : option string;
  created_at : Z;
  started_at : option Z;
  completed_at : option Z;
  updated_at : Z
}.

(** A row of [instagram_posts], with the result columns the worker writes. *)
Record post : Type := mk_post {
  post_client_id : string;
  caption : option pystr;
  media_type : string;
  media_url : option string;
  thumbnail_url : option string;
  embedding : option (list float);
  embedding_model : option string;
  embedded_at : option Z;
  transcript : option pystr;
  has_audio : option bool;
  audio_language : option string
}.

(** A row of [instagram_post_children]. *)
Record child : Type := mk_child {
  child_id : Z;
  child_post_id : string;
  child_client_id : string;
  child_media_url : option string;
  child_thumbnail_url : option string;
  child_media_type : string
}.

(** Calls to collaborators, in the order in which they are made. *)
Inductive event : Type :=
| EvMediaGet (url : option string)
| EvEmbed (image : list Z) (contextual_text : option pystr)
| EvVideoGet (url : option string)
| EvRecognize (audio : path)
| EvFfmpegChunk (src : path) (ss t : Z) (out : path).

Record state : Type := mk_state {
  st_jobs : gmap Z job;
  st_posts : gmap string post;
  st_children : list child;
  st_files : list path;
  st_next_token : nat;
  st_trace : list event
}.

Definition set_jobs (f : gmap Z job -> gmap Z job) (s : state) : state :=
  mk_state (f (st_jobs s)) (st_posts s) (st_children s) (st_files s)
           (st_next_token s) (st_trace s).
Definition set_posts (f : gmap string post -> gmap string post) (s : state) : state :=
  mk_state (st_jobs s) (f (st_posts s)) (st_children s) (st_files s)
           (st_next_token s) (st_trace s).
Definition set_files (f : list path -> list path) (s : state) : state :=
  mk_state (st_jobs s) (st_posts s) (st_children s) (f (st_files s))
           (st_next_token s) (st_trace s).
Definition add_event (ev : event) (s : state) : state :=
  mk_state (st_jobs s) (st_posts s) (st_children s) (st_files s)
           (st_next_token s) (st_trace s ++ [ev]).
Definition log_event (ev : event) : M state unit := modify (add_event ev).

(** What [requests.get(url, stream=True)] hands to [download_media]. *)
Record http_response : Type := mk_http_response {
  resp_status_error : option string;   (* raise_for_status() *)
  resp_content_length : Z;             (* the header, 0 when absent *)
  resp_chunks : list (list Z)          (* iter_content(chunk_size=8192) *)
}.

(** The functions of [main.py] that go to the store. *)
Inductive db_op : Type :=
| OpGetNextJob | OpFetchContent | OpGetPrimaryMediaUrl | OpStoreEmbedding
| OpStoreTranscript | OpMarkCompleted | OpMarkFailed.

(** The behaviour of everything outside the worker: clock, network services,
    ffmpeg and store failures.  A store function can fail at three places:
    when it takes a connection from the pool ([w_db_connect]), when it opens
    a cursor on it ([w_db_cursor]) and when it executes and commits its
    statement ([w_db_fault]). *)
Record world : Type := mk_world {
  w_now : Z;
  w_media_get : option string -> result http_response;
  w_magic : list Z -> string;
  w_get_embeddings : list Z -> option pystr -> result (option (list float));
  w_video_get : option string -> result unit;
  w_probe_streams : path -> result (list string);
  w_ffmpeg_extract : path -> path -> result unit;
  w_probe_duration : path -> result float;
  w_ffmpeg_chunk : path -> Z -> Z -> path -> result unit;
  w_read_audio : path -> result (list Z);
  w_recognize : list Z -> string -> result (list (list pystr));
  w_db_connect : db_op -> option string;
  w_db_cursor : db_op -> option string;
  w_db_fault : db_op -> option string
}.

(** ** lib/embedder.py: [download_media] *)

Definition max_download_bytes : Z := MAX_DOWNLOAD_SIZE_MB * 1024 * 1024.

Fixpoint read_chunks (chunks : list (list Z)) (buffer : list Z) : result (list Z) :=
  match chunks with
  | [] => Ok buffer
  | chunk :: rest =>
    let buffer' := buffer ++ chunk in
    if Z.of_nat (length buffer') >? max_download_bytes
    then Raise (mk_exn Exception ("Downloaded media exceeded " +:+ pretty MAX_DOWNLOAD_SIZE_MB +:+ " MB"))
    else read_chunks rest buffer'
  end.

Record media_data : Type := mk_media_data {
  buffer : list Z;
  mime_type : string
}.

Definition download_media (w : world) (url : option string) : M state media_data :=
  try_except
    (log_event (EvMediaGet url) ;;;
     response <- lift_result (w_media_get w url) ;;
     match resp_status_error response with
     | Some msg => raise (mk_exn RequestError msg)
     | None =>
       if resp_content_length response >? max_download_bytes
       then raise (mk_exn Exception "Media file too large")
       else
         buf <- lift_result (read_chunks (resp_chunks response) []) ;;
         let mime := w_magic w buf in
         if negb (str_startswith "image/" mime || str_startswith "video/" mime)
         then raise (mk_exn Exception ("Unsupported MIME type: " +:+ mime))
         else ret (mk_media_data buf mime)
     end)
    (fun e => raise (mk_exn Exception ("Failed to download or validate media: " +:+ exn_msg e))).

(** ** lib/embedder.py: [generate_multimodal_embedding] *)

Definition EMBEDDING_DIMENSION : nat := 1408.

(** [not x] for an optional string: [None] and the empty string are falsy. *)
Definition opt_falsy {A} (o : option (list A)) : bool :=
  match o with None | Some [] => true | Some (_ :: _) => false end.
Definition url_falsy (o : option string) : bool :=
  match o with None | Some EmptyString => true | Some (String _ _) => false end.

(** The dimension check on [embeddings.image_embedding].  For a missing vector
    the message itself cannot be built: [len(None)] raises [TypeError]. *)
Definition validate_embedding (v : option (list float)) : result (list float) :=
  match v with
  | None => Raise (mk_exn TypeError "object of type 'NoneType' has no len()")
  | Some vec =>
    if opt_falsy v || negb (length vec =? EMBEDDING_DIMENSION)%nat
    then Raise (mk_exn Exception
                  ("Invalid embedding received: expected 1408 dimensions, got "
                   +:+ pretty (length vec)))
    else Ok vec
  end.

Definition generate_multimodal_embedding (w : world)
    (text : option pystr) (url : option string) : M state (list float) :=
  if opt_falsy text && url_falsy url
  then raise (mk_exn Exception "Either text or a media URL must be provided to generate an embedding.")
  else
    (* 1. download and prepare the media *)
    media <- download_media w url ;;
    (* 2. truncate the text to 1024 bytes *)
    truncated_text <- lift_result
      (match text with
       | None => Ok []
       | Some t => truncate_to_bytes t MAX_TEXT_BYTES
       end) ;;
    original_bytes <- lift_result
      (if opt_falsy text then Ok 0%nat
       else match str_encode (default [] text) with
            | Ok b => Ok (length b) | Raise e => Raise e end) ;;
    truncated_bytes <- lift_result
      (match str_encode truncated_text with
       | Ok b => Ok (length b) | Raise e => Raise e end) ;;
    (* 3. call the embedding service *)
    try_except
      (let contextual_text :=
         if str_truthy truncated_text then Some truncated_text else None in
       log_event (EvEmbed (buffer media) contextual_text) ;;;
       embedding_vector <- lift_result (w_get_embeddings w (buffer media) contextual_text) ;;
       lift_result (validate_embedding embedding_vector))
      (fun e =>
         if str_in "400" (exn_msg e)
         then raise (mk_exn Exception "The media format may be unsupported by the embedding model.")
         else raise (mk_exn Exception ("Failed to generate multimodal embedding: " +:+ exn_msg e))).

(** ** lib/transcriber.py *)

(** [str.isspace] on one code point: the characters that [str.strip()]
    removes. *)
Definition py_isspace (c : codepoint) : bool :=
  in_range 0x09 0x0D c || in_range 0x1C 0x20 c || (c =? 0x85) || (c =? 0xA0)
  || (c =? 0x1680) || in_range 0x2000 0x200A c || (c =? 0x2028) || (c =? 0x2029)
  || (c =? 0x202F) || (c =? 0x205F) || (c =? 0x3000).

Fixpoint str_lstrip (s : pystr) : pystr :=
  match s with
  | [] => []
  | c :: rest => if py_isspace c then str_lstrip rest else s
  end.

Fixpoint str_rstrip (s : pystr) : pystr :=
  match s with
  | [] => []
  | c :: rest =>
    match str_rstrip rest with
    | [] => if py_isspace c then [] else [c]
    | kept => c :: kept
    end
  end.

(** [s.strip()]. *)
Definition str_strip (s : pystr) : pystr := str_rstrip (str_lstrip s).

(** [sep.join(parts)]. *)
Fixpoint str_join (sep : pystr) (parts : list pystr) : pystr :=
  match parts with
  | [] => []
  | [p] => p
  | p :: rest => p ++ sep ++ str_join sep rest
  end.

(** The first alternative of every result that has one. *)
Definition transcript_parts (results : list (list pystr)) : list pystr :=
  omap (fun alternatives => head alternatives) results.

Definition transcribe_audio (w : world) (audio_path : path) (language : string)
  : M state pystr :=
  (* client = speech.SpeechClient(); audio_file.read() *)
  audio_content <- lift_result (w_read_audio w audio_path) ;;
  try_except
    (log_event (EvRecognize audio_path) ;;;
     results <- lift_result (w_recognize w audio_content language) ;;
     let full_transcript := str_join (u " ") (transcript_parts results) in
     ret (str_strip full_transcript))
    (fun e => raise (mk_exn Exception ("Speech-to-Text error: " +:+ exn_msg e))).

(** The loop of [transcribe_long_audio]; [all_transcripts] is the list built
    so far. *)
Fixpoint transcribe_chunks_loop (w : world) (chunk_paths : list path)
    (language : string) (all_transcripts : list pystr) : M state (list pystr) :=
  match chunk_paths with
  | [] => ret all_transcripts
  | chunk_path :: rest =>
    all_transcripts' <-
      try_except
        (chunk_transcript <- transcribe_audio w chunk_path language ;;
         ret (all_transcripts ++ [chunk_transcript]))
        (fun _ => ret all_transcripts) ;;
    transcribe_chunks_loop w rest language all_transcripts'
  end.

Definition transcribe_long_audio (w : world) (chunk_paths : list path)
    (language : string) : M state pystr :=
  all_transcripts <- transcribe_chunks_loop w chunk_paths language [] ;;
  let full_transcript := str_join (u " ") all_transcripts in
  ret (str_strip full_transcript).

(** The outcome of transcribing one chunk, without the state. *)
Definition chunk_outcome (w : world) (language : string) (chunk_path : path)
  : result pystr :=
  match w_read_audio w chunk_path with
  | Raise e => Raise e
  | Ok audio_content =>
    match w_recognize w audio_content language with
    | Raise e => Raise (mk_exn Exception ("Speech-to-Text error: " +:+ exn_msg e))
    | Ok results => Ok (str_strip (str_join (u " ") (transcript_parts results)))
    end
  end.

(** The transcripts of the chunks whose transcription succeeded, in chunk
    order. *)
Definition succeeded_transcripts (w : world) (language : string)
    (chunk_paths : list path) : list pystr :=
  omap (fun p => match chunk_outcome w language p with
                 | Ok t => Some t
                 | Raise _ => None
                 end) chunk_paths.

(** ** main.py: configuration and the job queue *)

Record config : Type := mk_config {
  POLL_INTERVAL_MS : Z;
  MAX_RETRY_ATTEMPTS : Z;
  RETRY_BACKOFF_MINUTES : list Z
}.

(** The values taken when the environment sets nothing. *)
Definition default_config : config :=
  {| POLL_INTERVAL_MS := 30000;
     MAX_RETRY_ATTEMPTS := 3;
     RETRY_BACKOFF_MINUTES := [5; 10; 20] |}.

(** [conn = await get_db_conn()], the first line of every store function.  It
    stands before the [try], so that no handler of the function sees its
    exception.  ([put_db_conn] and [conn.rollback()] are taken to succeed.) *)
Definition db_connect (w : world) (op : db_op) : M state unit :=
  match w_db_connect w op with
  | Some msg => raise (mk_exn DatabaseError msg)
  | None => ret tt
  end.

(** [with conn.cursor() as cur:], the first line inside the [try]. *)
Definition db_cursor (w : world) (op : db_op) : M state unit :=
  match w_db_cursor w op with
  | Some msg => raise (mk_exn DatabaseError msg)
  | None => ret tt
  end.

(** A statement sent to the store.  When the store fails the transaction is
    rolled back and the exception is raised again: the state is unchanged. *)
Definition db_statement {A} (w : world) (op : db_op) (body : M state A) : M state A :=
  match w_db_fault w op with
  | Some msg => raise (mk_exn DatabaseError msg)
  | None => body
  end.

(** The dictionary that [get_next_job] returns. *)
Record job_ref : Type := mk_job_ref {
  ref_id : Z;
  ref_client_id : string;
  ref_content_id : string;
  ref_content_type : string;
  ref_attempts : Z
}.

(** [WHERE status = 'pending' AND attempts < %s]. *)
Definition claimable (cfg : config) (j : job) : bool :=
  bool_decide (status j = pending) && (attempts j <? MAX_RETRY_ATTEMPTS cfg).

(** [ORDER BY created_at ASC LIMIT 1]: the oldest row of the candidates.  SQL
    leaves the choice among rows of equal [created_at] open; here the first of
    them in the enumeration of the table is taken. *)
Definition older (a b : Z * job) : Z * job :=
  if created_at b.2 <? created_at a.2 then b else a.

Definition oldest (rows : list (Z * job)) : option (Z * job) :=
  match rows with
  | [] => None
  | r :: rest => Some (foldl older r rest)
  end.

Definition select_claimable (cfg : config) (jobs : gmap Z job) : option (Z * job) :=
  oldest (filter (fun r => claimable cfg r.2 = true) (map_to_list jobs)).

(** [SET status = 'processing', started_at = NOW(), updated_at = NOW()]. *)
Definition set_processing (now : Z) (j : job) : job :=
  {| client_id := client_id j; content_id := content_id j;
     content_type := content_type j; status := processing;
     attempts := attempts j; error_message := error_message j;
     created_at := created_at j; started_at := Some now;
     completed_at := completed_at j; updated_at := now |}.

Definition get_next_job (cfg : config) (w : world) : M state (option job_ref) :=
  db_connect w OpGetNextJob ;;;
  db_cursor w OpGetNextJob ;;;
  db_statement w OpGetNextJob
    (s <- get ;;
     match select_claimable cfg (st_jobs s) with
     | None => ret None
     | Some (id, j) =>
       let j' := set_processing (w_now w) j in
       modify (set_jobs (insert id j')) ;;;
       ret (Some (mk_job_ref id (client_id j') (content_id j')
                             (content_type j') (attempts j')))
     end).

(** [SET status = 'completed', completed_at = NOW(), updated_at = NOW()]. *)
Definition set_completed (now : Z) (j : job) : job :=
  {| client_id := client_id j; content_id := content_id j;
     content_type := content_type j; status := completed;
     attempts := attempts j; error_message := error_message j;
     created_at := created_at j; started_at := started_at j;
     completed_at := Some now; updated_at := now |}.

Definition mark_job_completed (w : world) (job_id : Z) : M state unit :=
  db_connect w OpMarkCompleted ;;;
  db_cursor w OpMarkCompleted ;;;
  db_statement w OpMarkCompleted
    (modify (set_jobs (alter (set_completed (w_now w)) job_id))).

(** [l[i]] on a Python list. *)
Definition py_index {A} (l : list A) (i : Z) : result A :=
  let n := Z.of_nat (length l) in
  let k := if i <? 0 then n + i else i in
  if (0 <=? k) && (k <? n) then
    match l !! Z.to_nat k with
    | Some x => Ok x
    | None => Raise (mk_exn IndexError "list index out of range")
    end
  else Raise (mk_exn IndexError "list index out of range").

(** [SET status = 'failed', error_message = %s, attempts = %s,
    updated_at = NOW()]. *)
Definition set_failed (now : Z) (msg : string) (next_attempt : Z) (j : job) : job :=
  {| client_id := client_id j; content_id := content_id j;
     content_type := content_type j; status := failed;
     attempts := next_attempt; error_message := Some msg;
     created_at := created_at j; started_at := started_at j;
     completed_at := completed_at j; updated_at := now |}.

(** [SET status = 'pending', error_message = %s, attempts = %s,
    updated_at = NOW(), created_at = NOW() + INTERVAL '%s minutes']. *)
Definition set_retry (now : Z) (msg : string) (next_attempt backoff_minutes : Z)
    (j : job) : job :=
  {| client_id := client_id j; content_id := content_id j;
     content_type := content_type j; status := pending;
     attempts := next_attempt; error_message := Some msg;
     created_at := now + 60 * backoff_minutes; started_at := started_at j;
     completed_at := completed_at j; updated_at := now |}.

Definition mark_job_failed (cfg : config) (w : world) (job_id : Z)
    (error_message : string) (current_attempts : Z) : M state unit :=
  db_connect w OpMarkFailed ;;;
  db_cursor w OpMarkFailed ;;;
  let next_attempt := current_attempts + 1 in
  if next_attempt >=? MAX_RETRY_ATTEMPTS cfg then
    db_statement w OpMarkFailed
      (modify (set_jobs (alter (set_failed (w_now w) error_message next_attempt) job_id)))
  else
    backoff_minutes <- lift_result
      (if next_attempt - 1 <? Z.of_nat (length (RETRY_BACKOFF_MINUTES cfg))
       then py_index (RETRY_BACKOFF_MINUTES cfg) (next_attempt - 1)
       else py_index (RETRY_BACKOFF_MINUTES cfg) (-1)) ;;
    db_statement w OpMarkFailed
      (modify (set_jobs (alter (set_retry (w_now w) error_message next_attempt
                                          backoff_minutes) job_id))).

(** ** lib/audio_extractor.py *)

(** [tempfile.mkstemp(suffix, prefix)]: a new, empty file under a name that
    no file on the disk has. *)
Definition mkstemp (suffix prefix : string) : M state path :=
  fun s =>
    let p := mk_path prefix (st_next_token s) suffix in
    (Ok p, mk_state (st_jobs s) (st_posts s) (st_children s) (st_files s ++ [p])
                    (S (st_next_token s)) (st_trace s)).

Definition path_exists (p : path) (s : state) : bool :=
  bool_decide (p ∈ st_files s).

(** [if os.path.exists(p): os.remove(p)]. *)
Definition remove_if_exists (p : path) : M state unit :=
  fun s =>
    if path_exists p s
    then (Ok tt, set_files (filter (fun q => q <> p)) s)
    else (Ok tt, s).

Definition download_video (w : world) (video_url : option string) (output_path : path)
  : M state unit :=
  log_event (EvVideoGet video_url) ;;;
  lift_result (w_video_get w video_url).

Record audio_info : Type := mk_audio_info {
  ai_audio_path : path;
  ai_duration_seconds : float;
  ai_sample_rate : Z;
  ai_channels : Z
}.

Definition extract_audio_from_video (w : world) (video_path audio_output_path : path)
  : M state audio_info :=
  try_except_cls FfmpegError
    (streams <- lift_result (w_probe_streams w video_path) ;;
     let audio_streams := filter (fun codec_type => codec_type = "audio") streams in
     match audio_streams with
     | [] => raise (mk_exn NoAudioTrackError "Video has no audio track")
     | _ :: _ =>
       lift_result (w_ffmpeg_extract w video_path audio_output_path) ;;;
       duration <- lift_result (w_probe_duration w audio_output_path) ;;
       ret (mk_audio_info audio_output_path duration 16000 1)
     end)
    (fun e => raise (mk_exn Exception ("FFmpeg error: " +:+ exn_msg e))).

Record video_data : Type := mk_video_data {
  vd_video_path : path;
  vd_audio_path : option path;
  vd_has_audio : bool;
  vd_duration_seconds : float
}.

Definition process_video_for_transcription (w : world) (video_url : option string)
  : M state video_data :=
  video_path <- mkstemp ".mp4" "video_" ;;
  (* the handler of the outer [try], for the value that [audio_path] has when
     the exception arrives *)
  let cleanup_on_error (audio_path : option path) (e : exn) : M state video_data :=
    remove_if_exists video_path ;;;
    match audio_path with
    | Some a => remove_if_exists a
    | None => ret tt
    end ;;;
    raise (mk_exn Exception ("Failed to process video: " +:+ exn_msg e)) in
  try_except (download_video w video_url video_path) (fun e =>
    _ <- cleanup_on_error None e ;; ret tt) ;;;
  audio_path <- mkstemp ".wav" "audio_" ;;
  try_except
    (try_except_cls NoAudioTrackError
       (info <- extract_audio_from_video w video_path audio_path ;;
        ret (mk_video_data video_path (Some audio_path) true
                           (ai_duration_seconds info)))
       (fun _ =>
          remove_if_exists audio_path ;;;
          ret (mk_video_data video_path None false 0%Q)))
    (cleanup_on_error (Some audio_path)).

(** [int(x)] on a float: truncation towards zero. *)
Definition py_int (x : float) : Z :=
  if Qle_bool 0 x then Qfloor x else Qceiling x.

(** [x / c] and [x % c] for a float [x] and an integer [c]. *)
Definition py_truediv (x : float) (c : Z) : result float :=
  if c =? 0 then Raise (mk_exn ZeroDivisionError "float division by zero")
  else Ok (x / inject_Z c)%Q.

Definition py_mod (x : float) (c : Z) : result float :=
  if c =? 0 then Raise (mk_exn ZeroDivisionError "float modulo")
  else Ok (x - inject_Z c * inject_Z (Qfloor (x / inject_Z c)))%Q.

(** [int(duration / c) + (1 if duration % c > 0 else 0)]. *)
Definition num_chunks (duration : float) (c : Z) : result Z :=
  match py_truediv duration c with
  | Raise e => Raise e
  | Ok q =>
    match py_mod duration c with
    | Raise e => Raise e
    | Ok r => Ok (py_int q + (if negb (Qle_bool r 0) then 1 else 0))
    end
  end.

(** The handler of [split_audio_into_chunks]: the chunks registered so far
    are removed, then the exception is wrapped. *)
Definition discard_chunks {A} (chunk_paths : list path) (e : exn) : M state A :=
  foldr (fun p k => remove_if_exists p ;;; k) (ret tt) chunk_paths ;;;
  raise (mk_exn Exception ("Failed to split audio into chunks: " +:+ exn_msg e)).

(** The body of the loop [for i in range(num_chunks)].  A chunk is appended to
    [chunk_paths] only after ffmpeg has written it. *)
Fixpoint chunk_loop (w : world) (audio_path : path) (chunk_duration_seconds : Z)
    (indices : list Z) (chunk_paths : list path) : M state (list path) :=
  match indices with
  | [] => ret chunk_paths
  | i :: rest =>
    let start_time := i * chunk_duration_seconds in
    chunk_path <- mkstemp ("_chunk" +:+ pretty i +:+ ".wav") "audio_" ;;
    try_except
      (log_event (EvFfmpegChunk audio_path start_time chunk_duration_seconds chunk_path) ;;;
       lift_result (w_ffmpeg_chunk w audio_path start_time chunk_duration_seconds
                                   chunk_path))
      (discard_chunks chunk_paths) ;;;
    chunk_loop w audio_path chunk_duration_seconds rest (chunk_paths ++ [chunk_path])
  end.

Definition split_audio_into_chunks (w : world) (audio_path : path)
    (chunk_duration_seconds : Z) : M state (list path) :=
  (* while the duration is being probed [chunk_paths] is not bound yet, and the
     handler itself fails *)
  duration <- try_except (lift_result (w_probe_duration w audio_path))
    (fun _ => raise (mk_exn UnboundLocalError
       "cannot access local variable 'chunk_paths' where it is not associated with a value")) ;;
  n <- try_except (lift_result (num_chunks duration chunk_duration_seconds))
         (discard_chunks []) ;;
  chunk_loop w audio_path chunk_duration_seconds (seqZ 0 n) [].

(** [cleanup_temp_files]: entries that are [None] are skipped. *)
Fixpoint cleanup_temp_files (file_paths : list (option path)) : M state unit :=
  match file_paths with
  | [] => ret tt
  | None :: rest => cleanup_temp_files rest
  | Some p :: rest => remove_if_exists p ;;; cleanup_temp_files rest
  end.

(** The part of an audio of [duration] seconds that ffmpeg writes for
    [-ss start -t length]: it ends where the input ends. *)
Definition chunk_seconds (duration : float) (start length : Z) : float :=
  let rest := (duration - inject_Z start)%Q in
  if Qle_bool (inject_Z length) rest then inject_Z length else rest.

(** ** main.py: reading and writing content *)

(** The dictionary that [fetch_content] returns. *)
Record post_dict : Type := mk_post_dict {
  pd_id : string;
  pd_caption : option pystr;
  pd_media_type : string;
  pd_media_url : option string;
  pd_thumbnail_url : option string
}.

Definition fetch_content (w : world) (ctype cid client : string) : M state post_dict :=
  db_connect w OpFetchContent ;;;
  db_cursor w OpFetchContent ;;;
  if negb (String.eqb ctype "instagram_posts")
  then raise (mk_exn Exception ("Unsupported content type for multimodal embedding: " +:+ ctype))
  else
    db_statement w OpFetchContent
      (s <- get ;;
       match st_posts s !! cid with
       | Some p =>
         if String.eqb (post_client_id p) client
         then ret (mk_post_dict cid (caption p) (media_type p) (media_url p)
                                (thumbnail_url p))
         else raise (mk_exn Exception ("Content not found: " +:+ ctype +:+ "/" +:+ cid))
       | None => raise (mk_exn Exception ("Content not found: " +:+ ctype +:+ "/" +:+ cid))
       end).

(** [ORDER BY id LIMIT 1] over the children of one post. *)
Definition first_child (children : list child) (post_id client : string)
  : option child :=
  let rows := filter (fun c => child_post_id c = post_id /\ child_client_id c = client)
                     children in
  match rows with
  | [] => None
  | c :: rest =>
    Some (foldl (fun best x => if child_id x <? child_id best then x else best) c rest)
  end.

(** [a and b or c] where [b] and [c] are optional strings. *)
Definition py_and_or (a : bool) (b c : option string) : option string :=
  if a && negb (url_falsy b) then b else c.

Definition get_primary_media_url (w : world) (post : post_dict) (client : string)
  : M state (option string) :=
  db_connect w OpGetPrimaryMediaUrl ;;;
  try_except
    (db_cursor w OpGetPrimaryMediaUrl ;;;
     if String.eqb (pd_media_type post) "IMAGE" then ret (pd_media_url post)
     else if String.eqb (pd_media_type post) "VIDEO" then ret (pd_thumbnail_url post)
     else if String.eqb (pd_media_type post) "CAROUSEL_ALBUM" then
       db_statement w OpGetPrimaryMediaUrl
         (s <- get ;;
          match first_child (st_children s) (pd_id post) client with
          | Some c =>
            (* thumbnail_url for video, media_url for image *)
            ret (py_and_or (String.eqb (child_media_type c) "VIDEO")
                           (child_thumbnail_url c) (child_media_url c))
          | None => ret None
          end)
     else ret None)
    (fun _ => ret None).

Definition set_embedding (now : Z) (v : list float) (p : post) : post :=
  {| post_client_id := post_client_id p; caption := caption p;
     media_type := media_type p; media_url := media_url p;
     thumbnail_url := thumbnail_url p; embedding := Some v;
     embedding_model := Some "embedding-001"; embedded_at := Some now;
     transcript := transcript p; has_audio := has_audio p;
     audio_language := audio_language p |}.

(** [UPDATE ... WHERE id = %s AND client_id = %s]: a row of another client is
    left alone. *)
Definition update_post (f : post -> post) (cid client : string)
    (posts : gmap string post) : gmap string post :=
  alter (fun p => if String.eqb (post_client_id p) client then f p else p) cid posts.

Definition store_embedding (w : world) (cid client : string) (v : list float)
  : M state unit :=
  db_connect w OpStoreEmbedding ;;;
  db_cursor w OpStoreEmbedding ;;;
  db_statement w OpStoreEmbedding
    (modify (set_posts (update_post (set_embedding (w_now w) v) cid client))).

Definition set_transcript (t : option pystr) (audio : bool) (language : string)
    (p : post) : post :=
  {| post_client_id := post_client_id p; caption := caption p;
     media_type := media_type p; media_url := media_url p;
     thumbnail_url := thumbnail_url p; embedding := embedding p;
     embedding_model := embedding_model p; embedded_at := embedded_at p;
     transcript := t; has_audio := Some audio;
     audio_language := Some language |}.

Definition store_transcript (w : world) (cid client : string) (t : option pystr)
    (audio : bool) (language : string) : M state unit :=
  db_connect w OpStoreTranscript ;;;
  db_cursor w OpStoreTranscript ;;;
  db_statement w OpStoreTranscript
    (modify (set_posts (update_post (set_transcript t audio language) cid client))).

(** ** main.py: [process_job] *)

(** The local variables of [process_job] that its [finally] block reads. *)
Record frame : Type := mk_frame {
  fr_video_path : option path;
  fr_audio_path : option path;
  fr_chunk_paths : list path
}.

Definition run {A} (m : M state A) : M (state * frame) A :=
  fun sf =>
    match m sf.1 with
    | (r, s') => (r, (s', sf.2))
    end.

Definition assign (f : frame -> frame) : M (state * frame) unit :=
  modify (fun sf => (sf.1, f sf.2)).

Definition set_video_path (p : option path) (f : frame) : frame :=
  mk_frame p (fr_audio_path f) (fr_chunk_paths f).
Definition set_audio_path (p : option path) (f : frame) : frame :=
  mk_frame (fr_video_path f) p (fr_chunk_paths f).
Definition set_chunk_paths (ps : list path) (f : frame) : frame :=
  mk_frame (fr_video_path f) (fr_audio_path f) ps.

(** [transcribe_audio(audio_path, ...)] for the local [audio_path], which is
    [None] for a video without sound. *)
Definition transcribe_local (w : world) (audio_path : option path) : M state pystr :=
  match audio_path with
  | Some p => transcribe_audio w p "en"
  | None => raise (mk_exn TypeError "expected str, bytes or os.PathLike object, not NoneType")
  end.

Definition split_local (w : world) (audio_path : option path) (c : Z)
  : M state (list path) :=
  match audio_path with
  | Some p => split_audio_into_chunks w p c
  | None => raise (mk_exn TypeError "expected str, bytes or os.PathLike object, not NoneType")
  end.

(** [store_embedding] and [mark_job_completed], the end of the [try] block. *)
Definition store_and_complete (w : world) (job : job_ref) (v : list float)
  : M (state * frame) unit :=
  run (store_embedding w (ref_content_id job) (ref_client_id job) v) ;;;
  run (mark_job_completed w (ref_id job)).

Definition process_video_post (w : world) (job : job_ref) (post : post_dict)
  : M (state * frame) unit :=
  (* step 1: download the video and extract the audio *)
  vd <- run (process_video_for_transcription w (pd_media_url post)) ;;
  assign (set_video_path (Some (vd_video_path vd))) ;;;
  assign (set_audio_path (vd_audio_path vd)) ;;;
  (* step 2: transcribe the audio, whole or in chunks *)
  assign (set_chunk_paths []) ;;;
  transcript <-
    (if vd_has_audio vd then
       try_except
         (if Qle_bool (vd_duration_seconds vd) 60 then
            t <- run (transcribe_local w (vd_audio_path vd)) ;;
            ret (Some t)
          else
            chunks <- run (split_local w (vd_audio_path vd) 50) ;;
            assign (set_chunk_paths chunks) ;;;
            t <- run (transcribe_long_audio w chunks "en") ;;
            ret (Some t))
         (fun _ => ret None)
     else ret None) ;;
  (* step 3: store the transcript *)
  run (store_transcript w (ref_content_id job) (ref_client_id job) transcript
                        (vd_has_audio vd) "en") ;;;
  (* step 4: caption and transcript together *)
  let contextual_text :=
    default [] (pd_caption post) ++
    (if opt_falsy transcript then [] else u " " ++ default [] transcript) in
  (* step 5: the embedding of the thumbnail and the text *)
  v <- run (generate_multimodal_embedding w (Some contextual_text)
                                          (pd_thumbnail_url post)) ;;
  store_and_complete w job v.

Definition process_job_try (w : world) (job : job_ref) : M (state * frame) unit :=
  post <- run (fetch_content w (ref_content_type job) (ref_content_id job)
                             (ref_client_id job)) ;;
  let media_type := pd_media_type post in
  if String.eqb media_type "VIDEO" then process_video_post w job post
  else if String.eqb media_type "IMAGE" then
    v <- run (generate_multimodal_embedding w (Some (default [] (pd_caption post)))
                                            (pd_media_url post)) ;;
    store_and_complete w job v
  else if String.eqb media_type "CAROUSEL_ALBUM" then
    url <- run (get_primary_media_url w post (ref_client_id job)) ;;
    if url_falsy url then run (mark_job_completed w (ref_id job))
    else
      v <- run (generate_multimodal_embedding w (Some (default [] (pd_caption post)))
                                              url) ;;
      store_and_complete w job v
  else raise (mk_exn Exception ("Unsupported media type: " +:+ media_type)).

(** The [finally] block. *)
Definition process_job_finally : M (state * frame) unit :=
  sf <- get ;;
  let files_to_cleanup :=
    [fr_video_path sf.2; fr_audio_path sf.2] ++ map Some (fr_chunk_paths sf.2) in
  if existsb (fun o => bool_decide (is_Some o)) files_to_cleanup
  then run (cleanup_temp_files files_to_cleanup)
  else ret tt.

Definition process_job (cfg : config) (w : world) (job : job_ref) : M state unit :=
  fun s =>
    let body :=
      try_finally
        (try_except (process_job_try w job)
           (fun e => run (mark_job_failed cfg w (ref_id job) (exn_msg e)
                                          (ref_attempts job))))
        process_job_finally in
    match body (s, mk_frame None None []) with
    | (r, (s', _)) => (r, s')
    end.

(** The files that the loop of [split_audio_into_chunks] makes for the given
    indices when the next free token is [token], and the ffmpeg commands that
    write them. *)
Fixpoint chunk_files (token : nat) (indices : list Z) : list path :=
  match indices with
  | [] => []
  | i :: rest =>
    mk_path "audio_" token ("_chunk" +:+ pretty i +:+ ".wav")
      :: chunk_files (S token) rest
  end.

Fixpoint chunk_commands (audio_path : path) (c : Z) (token : nat) (indices : list Z)
  : list event :=
  match indices with
  | [] => []
  | i :: rest =>
    EvFfmpegChunk audio_path (i * c) c
                  (mk_path "audio_" token ("_chunk" +:+ pretty i +:+ ".wav"))
      :: chunk_commands audio_path c (S token) rest
  end.

(** ** Relations that every step of a computation keeps *)

(** [preserves R m]: whatever [m] does, and whether it returns or raises, its
    final state is related to its initial state by [R]. *)
Definition preserves {S A} (R : relation S) (m : M S A) : Prop :=
  forall s r s', m s = (r, s') -> R s s'.

(** The same with knowledge about the value returned. *)
Definition returns {S A} (P : A -> Prop) (m : M S A) : Prop :=
  forall s a s', m s = (Ok a, s') -> P a.

(** A relation on states, read on the state of [process_job] with its frame. *)
Definition on_state (R : relation state) : relation (state * frame) :=
  fun sf sf' => R sf.1 sf'.1.

(** The posts, and with them every stored embedding, are as they were. *)
Definition same_posts : relation state :=
  fun s s' => st_posts s' = st_posts s.

(** Nothing but the trace has changed. *)
Definition same_store_and_disk : relation state :=
  fun s s' =>
    st_jobs s' = st_jobs s /\ st_posts s' = st_posts s
    /\ st_children s' = st_children s /\ st_files s' = st_files s
    /\ st_next_token s' = st_next_token s.

(** Every post is still there, and its embedding is the one it had or a
    vector of 1408 entries. *)
Definition embeddings_sound : relation state :=
  fun s s' =>
    forall cid p', st_posts s' !! cid = Some p' ->
      exists p, st_posts s !! cid = Some p
        /\ (embedding p' = embedding p
            \/ exists v, embedding p' = Some v /\ length v = EMBEDDING_DIMENSION).

(** ** Pre- and postconditions *)

(** [triple P m Q E]: from a state in [P], [m] returns a value [a] in a state
    in [Q a], or raises in a state in [E]. *)
Definition triple {S A} (P : S -> Prop) (m : M S A) (Q : A -> S -> Prop)
    (E : S -> Prop) : Prop :=
  forall s, P s ->
    match m s with
    | (Ok a, s') => Q a s'
    | (Raise _, s') => E s'
    end.

(** The disk is as it was, and so is the source of file names. *)
Definition same_disk : relation state :=
  fun s s' => st_files s' = st_files s /\ st_next_token s' = st_next_token s.






(** The relation of a step that keeps a condition. *)
Definition keeping {S} (P : S -> Prop) : relation S := fun s s' => P s -> P s'.

(** A condition on the state of [process_job] that only looks at the disk and
    at the frame. *)
Definition disk_condition (P : state * frame -> Prop) : Prop :=
  forall s s' f, same_disk s s' -> P (s, f) -> P (s', f).

(** ** Concrete worlds and states for examples *)

Definition unreachable : exn := mk_exn RequestError "connection refused".

(** A world in which every collaborator fails, at a given time. *)
Definition offline_at (now : Z) : world :=
  {| w_now := now;
     w_media_get := fun _ => Raise unreachable;
     w_magic := fun _ => "application/octet-stream";
     w_get_embeddings := fun _ _ => Raise unreachable;
     w_video_get := fun _ => Raise unreachable;
     w_probe_streams := fun _ => Raise (mk_exn FfmpegError "ffprobe error");
     w_ffmpeg_extract := fun _ _ => Raise (mk_exn FfmpegError "ffmpeg error");
     w_probe_duration := fun _ => Raise (mk_exn FfmpegError "ffprobe error");
     w_ffmpeg_chunk := fun _ _ _ _ => Raise (mk_exn FfmpegError "ffmpeg error");
     w_read_audio := fun _ => Raise (mk_exn Exception "No such file or directory");
     w_recognize := fun _ _ => Raise unreachable;
     w_db_connect := fun _ => None;
     w_db_cursor := fun _ => None;
     w_db_fault := fun _ => None |}.

Definition offline_world : world := offline_at 0.

Definition empty_state : state :=
  {| st_jobs := ∅; st_posts := ∅; st_children := []; st_files := [];
     st_next_token := 0; st_trace := [] |}.

(** Three audio chunks on disk; the content of chunk [i] is the byte [i]. *)
Definition chunk_file (i : nat) : path :=
  mk_path "audio_" i ("_chunk" +:+ pretty i +:+ ".wav").

Definition with_speech (recognize : list Z -> string -> result (list (list pystr)))
  : world :=
  {| w_now := 0;
     w_media_get := w_media_get offline_world;
     w_magic := w_magic offline_world;
     w_get_embeddings := w_get_embeddings offline_world;
     w_video_get := w_video_get offline_world;
     w_probe_streams := w_probe_streams offline_world;
     w_ffmpeg_extract := w_ffmpeg_extract offline_world;
     w_probe_duration := w_probe_duration offline_world;
     w_ffmpeg_chunk := w_ffmpeg_chunk offline_world;
     w_read_audio := fun p => Ok [Z.of_nat (path_token p)];
     w_recognize := recognize;
     w_db_connect := fun _ => None;
     w_db_cursor := fun _ => None;
     w_db_fault := fun _ => None |}.

(** Chunk 0 is silent (the service returns no result), chunk 1 fails, chunk 2
    holds the word "b". *)
Definition silent_first_chunk_world : world :=
  with_speech (fun content _ =>
    match content with
    | [0] => Ok []
    | [2] => Ok [[u "b"]]
    | _ => Raise (mk_exn RequestError "503 service unavailable")
    end).

(** Chunk 0 holds "a", chunk 1 fails, chunk 2 holds "b". *)
Definition failing_middle_chunk_world : world :=
  with_speech (fun content _ =>
    match content with
    | [0] => Ok [[u "a"]]
    | [2] => Ok [[u "b"]]
    | _ => Raise (mk_exn RequestError "503 service unavailable")
    end).

(** One job, created at time 0 and claimed by a worker. *)
Definition claimed_job : job :=
  {| client_id := "client"; content_id := "post-1";
     content_type := "instagram_posts"; status := processing; attempts := 0;
     error_message := None; created_at := 0; started_at := Some 10;
     completed_at := None; updated_at := 10 |}.

Definition one_job_state : state :=
  {| st_jobs := {[ 7 := claimed_job ]}; st_posts := ∅; st_children := [];
     st_files := []; st_next_token := 0; st_trace := [] |}.

(** The entry of the schedule for a job that has failed [a] times before:
    [backoff[a]], and the last entry when [a] is beyond the schedule. *)
Definition scheduled_backoff (cfg : config) (a : Z) : option Z :=
  let schedule := RETRY_BACKOFF_MINUTES cfg in
  schedule !! Nat.min (Z.to_nat a) (length schedule - 1).

(** A world in which every service answers: media is a small PNG, the
    embedding has 1408 entries, videos carry sound and last [duration]
    seconds, speech is recognised as "hi".  Only ffmpeg may fail, on the chunk
    that starts at [bad_start] seconds. *)
Definition studio_world (duration : float) (bad_start : option Z) : world :=
  {| w_now := 100;
     w_media_get := fun _ => Ok (mk_http_response None 4 [[137; 80; 78; 71]]);
     w_magic := fun _ => "image/png";
     w_get_embeddings := fun _ _ => Ok (Some (repeat 0%Q EMBEDDING_DIMENSION));
     w_video_get := fun _ => Ok tt;
     w_probe_streams := fun _ => Ok ["video"; "audio"];
     w_ffmpeg_extract := fun _ _ => Ok tt;
     w_probe_duration := fun _ => Ok duration;
     w_ffmpeg_chunk := fun _ ss _ _ =>
       if bool_decide (bad_start = Some ss)
       then Raise (mk_exn FfmpegError "ffmpeg error (see stderr output for detail)")
       else Ok tt;
     w_read_audio := fun p => Ok [Z.of_nat (path_token p)];
     w_recognize := fun _ _ => Ok [[u "hi"]];
     w_db_connect := fun _ => None;
     w_db_cursor := fun _ => None;
     w_db_fault := fun _ => None |}.

Definition video_post : post :=
  {| post_client_id := "client"; caption := Some (u "a clip");
     media_type := "VIDEO"; media_url := Some "https://cdn.example/clip.mp4";
     thumbnail_url := Some "https://cdn.example/clip.jpg";
     embedding := None; embedding_model := None; embedded_at := None;
     transcript := None; has_audio := None; audio_language := None |}.

Definition video_job_state : state :=
  {| st_jobs := {[ 7 := claimed_job ]}; st_posts := {[ "post-1" := video_post ]};
     st_children := []; st_files := []; st_next_token := 0; st_trace := [] |}.

Definition job_7 : job_ref := mk_job_ref 7 "client" "post-1" "instagram_posts" 0.

(** A carousel whose first child is a video without a thumbnail. *)
Definition carousel_post : post :=
  {| post_client_id := "client"; caption := Some (u "an album");
     media_type := "CAROUSEL_ALBUM"; media_url := None; thumbnail_url := None;
     embedding := None; embedding_model := None; embedded_at := None;
     transcript := None; has_audio := None; audio_language := None |}.

Definition carousel_dict : post_dict :=
  mk_post_dict "post-1" (Some (u "an album")) "CAROUSEL_ALBUM" None None.

Definition video_child_without_thumbnail : child :=
  {| child_id := 1; child_post_id := "post-1"; child_client_id := "client";
     child_media_url := Some "https://cdn.example/child.mp4";
     child_thumbnail_url := None; child_media_type := "VIDEO" |}.

Definition image_child : child :=
  {| child_id := 2; child_post_id := "post-1"; child_client_id := "client";
     child_media_url := Some "https://cdn.example/child.jpg";
     child_thumbnail_url := None; child_media_type := "IMAGE" |}.

Definition carousel_state (children : list child) : state :=
  {| st_jobs := {[ 7 := claimed_job ]}; st_posts := {[ "post-1" := carousel_post ]};
     st_children := children; st_files := []; st_next_token := 0; st_trace := [] |}.

(** ** lib/embedder.py: [generate_text_embedding] *)

(** Sequencing of results without state. *)
Definition result_bind {A B} (r : result A) (k : A -> result B) : result B :=
  match r with
  | Ok a => k a
  | Raise e => Raise e
  end.

(** The dimension check on [embeddings.text_embedding]. *)
Definition validate_text_embedding (v : option (list float)) : result (list float) :=
  match v with
  | None => Raise (mk_exn TypeError "object of type 'NoneType' has no len()")
  | Some vec =>
    if opt_falsy v || negb (length vec =? EMBEDDING_DIMENSION)%nat
    then Raise (mk_exn Exception
                  ("Invalid text embedding received: expected 1408 dimensions, got "
                   +:+ pretty (length vec)))
    else Ok vec
  end.

(** [generate_text_embedding]; [get_text_embeddings] is the call
    [embedding_model.get_embeddings(contextual_text=..., dimension=1408)]
    followed by [.text_embedding]. *)
Definition generate_text_embedding
    (get_text_embeddings : pystr -> result (option (list float)))
    (text : option pystr) : result (list float) :=
  if opt_falsy text
  then Raise (mk_exn Exception "Text must be provided to generate an embedding.")
  else
    match
      result_bind (truncate_to_bytes (default [] text) MAX_TEXT_BYTES)
        (fun truncated_text =>
           result_bind (get_text_embeddings truncated_text) validate_text_embedding)
    with
    | Ok v => Ok v
    | Raise e =>
      Raise (mk_exn Exception ("Failed to generate text embedding: " +:+ exn_msg e))
    end.

(** ** main.py: the polling loop *)

(** What one turn of the loop of [poll_and_process] did: it ran a job, or it
    found none or met an error and slept for some seconds. *)
Inductive poll_outcome : Type :=
| Processed (job : job_ref)
| Slept (seconds : float).

(** One turn of [while True].  The handler for [asyncio.CancelledError] is
    left out: that exception comes from the cancellation of the task, not from
    a collaborator, and [except Exception] does not catch it either. *)
Definition poll_iteration (cfg : config) (w : world) : M state poll_outcome :=
  try_except
    (job <- get_next_job cfg w ;;
     match job with
     | Some j => process_job cfg w j ;;; ret (Processed j)
     | None => ret (Slept (inject_Z (POLL_INTERVAL_MS cfg) / 1000)%Q)
     end)
    (fun _ => ret (Slept (inject_Z (POLL_INTERVAL_MS cfg) / 1000 * 2)%Q)).


(** ** Further relations between states *)

(** The tables of the store are as they were. *)
Definition same_store : relation state :=
  fun s s' =>
    st_jobs s' = st_jobs s /\ st_posts s' = st_posts s
    /\ st_children s' = st_children s.

(** The job table is as it was. *)
Definition same_jobs : relation state :=
  fun s s' => st_jobs s' = st_jobs s.

(** Every post but the one with the given id is as it was. *)
Definition same_posts_except (cid : string) : relation state :=
  fun s s' => forall cid', cid' <> cid -> st_posts s' !! cid' = st_posts s !! cid'.


(** The chunk paths that can be opened and read. *)
Definition readable_chunks (w : world) (chunk_paths : list path) : list path :=
  filter (fun p => is_ok (w_read_audio w p) = true) chunk_paths.


(** Every row of the store except the job [job_id] and the post [cid] is as
    it was. *)
Definition own_rows (job_id : Z) (cid : string) : relation state :=
  fun s s' =>
    (forall id', id' <> job_id -> st_jobs s' !! id' = st_jobs s !! id')
    /\ (forall cid', cid' <> cid -> st_posts s' !! cid' = st_posts s !! cid')
    /\ st_children s' = st_children s.


(** File names are never handed out twice: the source of names only grows. *)
Definition later_token : relation state :=
  fun s s' => (st_next_token s <= st_next_token s')%nat.

(** The store answers the function [op]: connection, cursor and statement
    all succeed. *)
Definition store_up (w : world) (op : db_op) : Prop :=
  w_db_connect w op = None /\ w_db_cursor w op = None /\ w_db_fault w op = None.

(** ** Further worlds and states for examples *)

(** A world like [w] whose pool hands out no connection. *)
Definition without_connection (w : world) : world :=
  {| w_now := w_now w;
     w_media_get := w_media_get w;
     w_magic := w_magic w;
     w_get_embeddings := w_get_embeddings w;
     w_video_get := w_video_get w;
     w_probe_streams := w_probe_streams w;
     w_ffmpeg_extract := w_ffmpeg_extract w;
     w_probe_duration := w_probe_duration w;
     w_ffmpeg_chunk := w_ffmpeg_chunk w;
     w_read_audio := w_read_audio w;
     w_recognize := w_recognize w;
     w_db_connect := fun _ => Some "connection pool exhausted";
     w_db_cursor := w_db_cursor w;
     w_db_fault := w_db_fault w |}.


(** A world like [w] in which no cursor can be opened. *)
Definition without_cursor (w : world) : world :=
  {| w_now := w_now w;
     w_media_get := w_media_get w;
     w_magic := w_magic w;
     w_get_embeddings := w_get_embeddings w;
     w_video_get := w_video_get w;
     w_probe_streams := w_probe_streams w;
     w_ffmpeg_extract := w_ffmpeg_extract w;
     w_probe_duration := w_probe_duration w;
     w_ffmpeg_chunk := w_ffmpeg_chunk w;
     w_read_audio := w_read_audio w;
     w_recognize := w_recognize w;
     w_db_connect := w_db_connect w;
     w_db_cursor := fun _ => Some "connection already closed";
     w_db_fault := w_db_fault w |}.



(** A configuration whose backoff schedule is empty. *)
Definition no_backoff_config : config :=
  {| POLL_INTERVAL_MS := 30000; MAX_RETRY_ATTEMPTS := 3; RETRY_BACKOFF_MINUTES := [] |}.

(** A post of a kind that the worker does not know. *)
Definition story_post : post :=
  {| post_client_id := "client"; caption := Some (u "a story");
     media_type := "STORY"; media_url := Some "https://cdn.example/story.jpg";
     thumbnail_url := None;
     embedding := None; embedding_model := None; embedded_at := None;
     transcript := None; has_audio := None; audio_language := None |}.

Definition story_job_state : state :=
  {| st_jobs := {[ 7 := claimed_job ]}; st_posts := {[ "post-1" := story_post ]};
     st_children := []; st_files := []; st_next_token := 0; st_trace := [] |}.


(* ===================================================================== *)
(** * Part II -- lemmas and theorems                                      *)
(* ===================================================================== *)

(** ** UTF-8: the encoder in arithmetic form *)

Lemma lor_disjoint_add (h x k : Z) :
  0 <= k -> 0 <= x < 2 ^ k -> Z.lor (h * 2 ^ k) x = h * 2 ^ k + x.
Proof.
  intros Hk Hx. symmetry. apply Z.add_nocarry_lor.
  apply Z.bits_inj'. intros n Hn.
  rewrite Z.land_spec, Z.bits_0.
  destruct (Z.lt_ge_cases n k) as [Hlt | Hge].
  - rewrite Z.mul_pow2_bits_low by lia. reflexivity.
  - destruct (Z.eq_dec x 0) as [-> | Hx0].
    + rewrite Z.bits_0. apply andb_false_r.
    + rewrite (Z.bits_above_log2 x n); [apply andb_false_r | lia |].
      assert (Z.log2 x < k) by (apply Z.log2_lt_pow2; lia). lia.
Qed.

Lemma low6 (x : Z) : Z.lor 0x80 (Z.land x 0x3F) = 0x80 + x mod 64.
Proof.
  change 0x3F with (Z.ones 6). rewrite Z.land_ones by lia.
  change 0x80 with (2 * 2 ^ 6). apply lor_disjoint_add; [lia |].
  change (2 ^ 6) with 64. apply Z.mod_pos_bound. lia.
Qed.

Lemma shr_div (x k : Z) : 0 <= k -> Z.shiftr x k = x / 2 ^ k.
Proof. apply Z.shiftr_div_pow2. Qed.

(** The byte sequences by range, as sums. *)
Lemma utf8_encode_cp_2 (c : Z) :
  0x80 <= c < 0x800 ->
  utf8_encode_cp c = [0xC0 + c / 64; 0x80 + c mod 64].
Proof.
  intros Hc. unfold utf8_encode_cp.
  destruct (Z.ltb_spec c 0x80); [lia |].
  destruct (Z.ltb_spec c 0x800); [| lia].
  rewrite low6, shr_div by lia. change (2 ^ 6) with 64.
  change 0xC0 with (3 * 2 ^ 6) at 1. rewrite lor_disjoint_add; [reflexivity | lia |].
  change (2 ^ 6) with 64. split; [apply Z.div_pos; lia |].
  apply Z.div_lt_upper_bound; lia.
Qed.

Lemma utf8_encode_cp_3 (c : Z) :
  0x800 <= c < 0x10000 ->
  utf8_encode_cp c = [0xE0 + c / 4096; 0x80 + (c / 64) mod 64; 0x80 + c mod 64].
Proof.
  intros Hc. unfold utf8_encode_cp.
  destruct (Z.ltb_spec c 0x80); [lia |].
  destruct (Z.ltb_spec c 0x800); [lia |].
  destruct (Z.ltb_spec c 0x10000); [| lia].
  rewrite !low6, !shr_div by lia. change (2 ^ 6) with 64. change (2 ^ 12) with 4096.
  change 0xE0 with (7 * 2 ^ 5) at 1. rewrite lor_disjoint_add; [reflexivity | lia |].
  change (2 ^ 5) with 32. split; [apply Z.div_pos; lia |].
  apply Z.div_lt_upper_bound; lia.
Qed.

Lemma utf8_encode_cp_4 (c : Z) :
  0x10000 <= c <= 0x10FFFF ->
  utf8_encode_cp c =
    [0xF0 + c / 262144; 0x80 + (c / 4096) mod 64;
     0x80 + (c / 64) mod 64; 0x80 + c mod 64].
Proof.
  intros Hc. unfold utf8_encode_cp.
  destruct (Z.ltb_spec c 0x80); [lia |].
  destruct (Z.ltb_spec c 0x800); [lia |].
  destruct (Z.ltb_spec c 0x10000); [lia |].
  rewrite !low6, !shr_div by lia.
  change (2 ^ 6) with 64. change (2 ^ 12) with 4096. change (2 ^ 18) with 262144.
  change 0xF0 with (15 * 2 ^ 4) at 1. rewrite lor_disjoint_add; [reflexivity | lia |].
  change (2 ^ 4) with 16. split; [apply Z.div_pos; lia |].
  apply Z.div_lt_upper_bound; lia.
Qed.

(** The digits of a code point in base 64, with the facts the decoder and the
    recogniser test. *)
Lemma digits_2 (c : Z) :
  0x80 <= c < 0x800 ->
  exists q m0, c / 64 = q /\ c mod 64 = m0 /\
    c = q * 64 + m0 /\ 2 <= q < 32 /\ 0 <= m0 < 64.
Proof.
  intros Hc. exists (c / 64), (c mod 64).
  repeat split; Z.to_euclidean_division_equations; lia.
Qed.

Lemma digits_3 (c : Z) :
  0x800 <= c < 0x10000 -> is_surrogate c = false ->
  exists q m1 m0, c / 4096 = q /\ (c / 64) mod 64 = m1 /\ c mod 64 = m0 /\
    c = q * 4096 + m1 * 64 + m0 /\ 0 <= q < 16 /\ 0 <= m1 < 64 /\ 0 <= m0 < 64 /\
    (q = 0 -> 32 <= m1) /\ (q = 13 -> m1 < 32).
Proof.
  intros Hc Hs. exists (c / 4096), ((c / 64) mod 64), (c mod 64).
  assert (c < 0xD800 \/ 0xDFFF < c) as Hns.
  { unfold is_surrogate in Hs. apply andb_false_iff in Hs.
    destruct Hs as [Hs | Hs]; [apply Z.leb_gt in Hs | apply Z.leb_gt in Hs]; lia. }
  repeat split; Z.to_euclidean_division_equations; lia.
Qed.

Lemma digits_4 (c : Z) :
  0x10000 <= c <= 0x10FFFF ->
  exists q m2 m1 m0,
    c / 262144 = q /\ (c / 4096) mod 64 = m2 /\ (c / 64) mod 64 = m1 /\ c mod 64 = m0 /\
    c = q * 262144 + m2 * 4096 + m1 * 64 + m0 /\
    0 <= q < 5 /\ 0 <= m2 < 64 /\ 0 <= m1 < 64 /\ 0 <= m0 < 64 /\
    (q = 0 -> 16 <= m2) /\ (q = 4 -> m2 < 16).
Proof.
  intros Hc.
  exists (c / 262144), ((c / 4096) mod 64), ((c / 64) mod 64), (c mod 64).
  repeat split; Z.to_euclidean_division_equations; lia.
Qed.

(** Settles the comparisons on bytes once their ranges are in the context. *)
Ltac byte_test :=
  match goal with
  | |- context [?a <? ?b] =>
      first [ rewrite (proj2 (Z.ltb_lt a b)) by lia
            | rewrite (proj2 (Z.ltb_ge a b)) by lia ]
  | |- context [?a <=? ?b] =>
      first [ rewrite (proj2 (Z.leb_le a b)) by lia
            | rewrite (proj2 (Z.leb_gt a b)) by lia ]
  | |- context [?a =? ?b] =>
      first [ rewrite (proj2 (Z.eqb_eq a b)) by lia
            | rewrite (proj2 (Z.eqb_neq a b)) by lia ]
  end.

Ltac byte_split :=
  match goal with
  | |- context [?a =? ?b] => destruct (Z.eqb_spec a b)
  | |- context [?a <? ?b] => destruct (Z.ltb_spec a b)
  | |- context [?a <=? ?b] => destruct (Z.leb_spec a b)
  end.

Ltac byte_tests :=
  unfold is_continuation, in_range;
  repeat (byte_test; cbn [andb orb negb]);
  repeat (byte_split; cbn [andb orb negb];
          repeat (byte_test; cbn [andb orb negb])).

Lemma scalar_cases (c : Z) :
  unicode_scalar c ->
  (0 <= c < 0x80) \/ (0x80 <= c < 0x800) \/
  (0x800 <= c < 0x10000 /\ is_surrogate c = false) \/ (0x10000 <= c <= 0x10FFFF).
Proof.
  intros [Hr Hs].
  destruct (Z.lt_ge_cases c 0x80); [left; lia | right].
  destruct (Z.lt_ge_cases c 0x800); [left; lia | right].
  destruct (Z.lt_ge_cases c 0x10000); [left | right; lia].
  split; [lia | exact Hs].
Qed.

(** ** UTF-8: decoding what was encoded *)

Lemma utf8_decode_encode_cp (c : Z) (rest : list Z) :
  unicode_scalar c ->
  utf8_decode_ignore (utf8_encode_cp c ++ rest) = c :: utf8_decode_ignore rest.
Proof.
  intros Hc. destruct (scalar_cases c Hc) as [H1 | [H2 | [[H3 Hs] | H4]]].
  - unfold utf8_encode_cp. destruct (Z.ltb_spec c 0x80); [| lia].
    simpl. destruct (Z.ltb_spec c 128); [reflexivity | lia].
  - rewrite utf8_encode_cp_2 by assumption.
    destruct (digits_2 c H2) as (q & m0 & E1 & E0 & Hc' & Hq & Hm0).
    rewrite E1, E0. clear E1 E0.
    cbn [app utf8_decode_ignore]. byte_tests; f_equal; lia.
  - rewrite utf8_encode_cp_3 by assumption.
    destruct (digits_3 c H3 Hs)
      as (q & m1 & m0 & E2 & E1 & E0 & Hc' & Hq & Hm1 & Hm0 & Hlo & Hhi).
    rewrite E2, E1, E0. clear E2 E1 E0.
    cbn [app utf8_decode_ignore]. byte_tests; f_equal; lia.
  - rewrite utf8_encode_cp_4 by assumption.
    destruct (digits_4 c H4)
      as (q & m2 & m1 & m0 & E3 & E2 & E1 & E0 & Hc' & Hq & Hm2 & Hm1 & Hm0 & Hlo & Hhi).
    rewrite E3, E2, E1, E0. clear E3 E2 E1 E0.
    cbn [app utf8_decode_ignore]. byte_tests; f_equal; lia.
Qed.

Lemma utf8_encode_cp_length (c : Z) :
  (1 <= length (utf8_encode_cp c) <= 4)%nat.
Proof.
  unfold utf8_encode_cp.
  destruct (c <? 0x80); [simpl; lia |].
  destruct (c <? 0x800); [simpl; lia |].
  destruct (c <? 0x10000); simpl; lia.
Qed.

(** A sequence cut short decodes to nothing: the incomplete tail is dropped. *)
Lemma utf8_decode_partial (c : Z) (n : nat) :
  unicode_scalar c ->
  (n < length (utf8_encode_cp c))%nat ->
  utf8_decode_ignore (take n (utf8_encode_cp c)) = [].
Proof.
  intros Hc. destruct (scalar_cases c Hc) as [H1 | [H2 | [[H3 Hs] | H4]]].
  - unfold utf8_encode_cp. destruct (Z.ltb_spec c 0x80); [| lia].
    simpl. intros Hn. replace n with 0%nat by lia. reflexivity.
  - rewrite utf8_encode_cp_2 by assumption.
    destruct (digits_2 c H2) as (q & m0 & E1 & E0 & Hc' & Hq & Hm0).
    rewrite E1, E0. clear E1 E0. simpl length. intros Hn.
    destruct n as [| [| n]]; [reflexivity | | lia].
    cbn [take utf8_decode_ignore]. byte_tests; reflexivity.
  - rewrite utf8_encode_cp_3 by assumption.
    destruct (digits_3 c H3 Hs)
      as (q & m1 & m0 & E2 & E1 & E0 & Hc' & Hq & Hm1 & Hm0 & Hlo & Hhi).
    rewrite E2, E1, E0. clear E2 E1 E0. simpl length. intros Hn.
    destruct n as [| [| [| n]]]; [reflexivity | | | lia];
      cbn [take utf8_decode_ignore]; byte_tests; reflexivity.
  - rewrite utf8_encode_cp_4 by assumption.
    destruct (digits_4 c H4)
      as (q & m2 & m1 & m0 & E3 & E2 & E1 & E0 & Hc' & Hq & Hm2 & Hm1 & Hm0 & Hlo & Hhi).
    rewrite E3, E2, E1, E0. clear E3 E2 E1 E0. simpl length. intros Hn.
    destruct n as [| [| [| [| n]]]]; [reflexivity | | | | lia];
      cbn [take utf8_decode_ignore]; byte_tests; reflexivity.
Qed.

Lemma utf8_wellformed_encode_cp (c : Z) (rest : list Z) :
  unicode_scalar c ->
  utf8_wellformed (utf8_encode_cp c ++ rest) = utf8_wellformed rest.
Proof.
  intros Hc. destruct (scalar_cases c Hc) as [H1 | [H2 | [[H3 Hs] | H4]]].
  - unfold utf8_encode_cp. destruct (Z.ltb_spec c 0x80); [| lia].
    cbn [app utf8_wellformed]. byte_tests; reflexivity.
  - rewrite utf8_encode_cp_2 by assumption.
    destruct (digits_2 c H2) as (q & m0 & E1 & E0 & Hc' & Hq & Hm0).
    rewrite E1, E0. clear E1 E0.
    cbn [app utf8_wellformed]. byte_tests; reflexivity.
  - rewrite utf8_encode_cp_3 by assumption.
    destruct (digits_3 c H3 Hs)
      as (q & m1 & m0 & E2 & E1 & E0 & Hc' & Hq & Hm1 & Hm0 & Hlo & Hhi).
    rewrite E2, E1, E0. clear E2 E1 E0.
    cbn [app utf8_wellformed]. byte_tests; reflexivity.
  - rewrite utf8_encode_cp_4 by assumption.
    destruct (digits_4 c H4)
      as (q & m2 & m1 & m0 & E3 & E2 & E1 & E0 & Hc' & Hq & Hm2 & Hm1 & Hm0 & Hlo & Hhi).
    rewrite E3, E2, E1, E0. clear E3 E2 E1 E0.
    cbn [app utf8_wellformed]. byte_tests; reflexivity.
Qed.

Lemma utf8_bytes_wellformed (s : pystr) :
  Forall unicode_scalar s -> utf8_wellformed (utf8_bytes s) = true.
Proof.
  induction 1 as [| c s Hc Hs IH]; [reflexivity |].
  unfold utf8_bytes in *. cbn [flat_map].
  rewrite utf8_wellformed_encode_cp by assumption. exact IH.
Qed.

Lemma utf8_decode_encode (s : pystr) :
  Forall unicode_scalar s -> utf8_decode_ignore (utf8_bytes s) = s.
Proof.
  induction 1 as [| c s Hc Hs IH]; [reflexivity |].
  unfold utf8_bytes in *. cbn [flat_map].
  rewrite utf8_decode_encode_cp by assumption. now rewrite IH.
Qed.

Lemma str_encode_scalar (s : pystr) :
  Forall unicode_scalar s -> str_encode s = Ok (utf8_bytes s).
Proof.
  intros Hs. unfold str_encode.
  replace (forallb _ s) with true; [reflexivity |].
  symmetry. apply forallb_forall. intros c Hin.
  rewrite Forall_forall in Hs. apply list_elem_of_In, Hs in Hin.
  destruct Hin as [_ ->]. reflexivity.
Qed.

(** ** Truncation against the longest fitting prefix *)

Lemma utf8_decode_take (text : pystr) (n : nat) :
  Forall unicode_scalar text ->
  utf8_decode_ignore (take n (utf8_bytes text)) = longest_fitting_prefix text n.
Proof.
  intros Hs. revert n. induction Hs as [| c s Hc Hs IH]; intros n.
  - simpl. now rewrite take_nil.
  - unfold utf8_bytes in *. cbn [flat_map longest_fitting_prefix].
    destruct (Nat.leb_spec (length (utf8_encode_cp c)) n) as [Hle | Hgt].
    + rewrite take_app_ge by assumption.
      rewrite utf8_decode_encode_cp by assumption. now rewrite IH.
    + rewrite take_app_le by lia. now apply utf8_decode_partial.
Qed.

Lemma lfp_prefix (text : pystr) (n : nat) :
  longest_fitting_prefix text n `prefix_of` text.
Proof.
  revert n. induction text as [| c s IH]; intros n; simpl.
  - apply prefix_nil.
  - destruct (length (utf8_encode_cp c) <=? n)%nat.
    + apply prefix_cons, IH.
    + apply prefix_nil.
Qed.

Lemma lfp_fits (text : pystr) (n : nat) :
  (length (utf8_bytes (longest_fitting_prefix text n)) <= n)%nat.
Proof.
  revert n. induction text as [| c s IH]; intros n; simpl.
  - lia.
  - destruct (Nat.leb_spec (length (utf8_encode_cp c)) n) as [Hle | Hgt].
    + unfold utf8_bytes in *. cbn [flat_map]. rewrite length_app.
      specialize (IH (n - length (utf8_encode_cp c))%nat). lia.
    + simpl. lia.
Qed.

Lemma lfp_identity (text : pystr) (n : nat) :
  (length (utf8_bytes text) <= n)%nat -> longest_fitting_prefix text n = text.
Proof.
  revert n. induction text as [| c s IH]; intros n; [reflexivity |].
  unfold utf8_bytes in *. cbn [flat_map longest_fitting_prefix].
  rewrite length_app. intros Hlen.
  destruct (Nat.leb_spec (length (utf8_encode_cp c)) n) as [Hle | Hgt]; [| lia].
  f_equal. apply IH. lia.
Qed.

Lemma lfp_maximal (text p : pystr) (n : nat) :
  p `prefix_of` text -> (length (utf8_bytes p) <= n)%nat ->
  p `prefix_of` longest_fitting_prefix text n.
Proof.
  revert p n. induction text as [| c s IH]; intros p n Hp Hlen.
  - apply prefix_nil_inv in Hp. subst. apply prefix_nil.
  - destruct p as [| d p]; [apply prefix_nil |].
    pose proof (prefix_cons_inv_1 _ _ _ _ Hp) as ->.
    apply prefix_cons_inv_2 in Hp.
    unfold utf8_bytes in *. cbn [flat_map longest_fitting_prefix] in *.
    rewrite length_app in Hlen.
    destruct (Nat.leb_spec (length (utf8_encode_cp c)) n) as [Hle | Hgt]; [| lia].
    apply prefix_cons, IH; [assumption | lia].
Qed.

Lemma utf8_bytes_prefix (p s : pystr) :
  p `prefix_of` s -> utf8_bytes p `prefix_of` utf8_bytes s.
Proof.
  intros [k ->]. unfold utf8_bytes. rewrite flat_map_app. now apply prefix_app_r.
Qed.

Lemma prefix_take_fits {A} (p l : list A) (n : nat) :
  p `prefix_of` l -> (length p <= n)%nat -> p `prefix_of` take n l.
Proof.
  intros [k ->] Hn. rewrite take_app_ge by assumption. now apply prefix_app_r.
Qed.

(** On well-formed text and a budget that is not negative, [truncate_to_bytes]
    is the longest fitting prefix. *)
Lemma truncate_to_bytes_lfp (text : pystr) (B : Z) :
  Forall unicode_scalar text -> 0 <= B ->
  truncate_to_bytes text B = Ok (longest_fitting_prefix text (Z.to_nat B)).
Proof.
  intros Hs HB. unfold truncate_to_bytes.
  destruct text as [| c s]; [reflexivity |].
  cbn [str_truthy negb]. rewrite str_encode_scalar by assumption.
  destruct (Z.leb_spec (Z.of_nat (length (utf8_bytes (c :: s)))) B) as [Hle | Hgt].
  - rewrite lfp_identity by lia. reflexivity.
  - unfold py_slice_to. destruct (Z.leb_spec 0 B); [| lia].
    now rewrite utf8_decode_take.
Qed.

(** C2.  For text made of Unicode scalar values and a byte budget [B >= 0],
    [truncate_to_bytes text B] returns a string [out] that is a prefix of
    [text], whose UTF-8 encoding has at most [B] bytes, is well-formed UTF-8
    and is a prefix of the truncated byte stream (no fragment of a multi-byte
    character is emitted); [out] is the longest such prefix (only an incomplete
    tail is dropped); and text that already fits is returned unchanged. *)
Theorem truncate_to_bytes_byte_safe (text : pystr) (B : Z) :
  Forall unicode_scalar text -> 0 <= B ->
  exists out,
    truncate_to_bytes text B = Ok out
    /\ out `prefix_of` text
    /\ str_encode out = Ok (utf8_bytes out)
    /\ Z.of_nat (length (utf8_bytes out)) <= B
    /\ utf8_wellformed (utf8_bytes out) = true
    /\ utf8_bytes out `prefix_of` py_slice_to (utf8_bytes text) B
    /\ (forall p, p `prefix_of` text -> Z.of_nat (length (utf8_bytes p)) <= B ->
                  p `prefix_of` out)
    /\ (Z.of_nat (length (utf8_bytes text)) <= B -> out = text).
Proof.
  intros Hs HB. exists (longest_fitting_prefix text (Z.to_nat B)).
  pose proof (lfp_prefix text (Z.to_nat B)) as Hpre.
  pose proof (lfp_fits text (Z.to_nat B)) as Hfit.
  assert (Forall unicode_scalar (longest_fitting_prefix text (Z.to_nat B))) as Hs'.
  { destruct Hpre as [k Hk]. rewrite Hk in Hs. now apply Forall_app in Hs. }
  split; [now apply truncate_to_bytes_lfp |].
  split; [exact Hpre |].
  split; [now apply str_encode_scalar |].
  split; [lia |].
  split; [now apply utf8_bytes_wellformed |].
  split.
  { unfold py_slice_to. destruct (Z.leb_spec 0 B); [| lia].
    apply prefix_take_fits; [now apply utf8_bytes_prefix | exact Hfit]. }
  split.
  - intros p Hp Hlen. apply lfp_maximal; [assumption | lia].
  - intros Hlen. apply lfp_identity. lia.
Qed.

Lemma truncate_to_bytes_byte_safe_witness :
  Forall unicode_scalar [104; 0x1F600; 0xE9] /\ 0 <= 4 /\
  exists out,
    truncate_to_bytes [104; 0x1F600; 0xE9] 4 = Ok out
    /\ out `prefix_of` [104; 0x1F600; 0xE9]
    /\ str_encode out = Ok (utf8_bytes out)
    /\ Z.of_nat (length (utf8_bytes out)) <= 4
    /\ utf8_wellformed (utf8_bytes out) = true
    /\ utf8_bytes out `prefix_of` py_slice_to (utf8_bytes [104; 0x1F600; 0xE9]) 4
    /\ (forall p, p `prefix_of` [104; 0x1F600; 0xE9] ->
                  Z.of_nat (length (utf8_bytes p)) <= 4 -> p `prefix_of` out)
    /\ (Z.of_nat (length (utf8_bytes [104; 0x1F600; 0xE9])) <= 4 ->
        out = [104; 0x1F600; 0xE9]).
Proof.
  assert (Forall unicode_scalar [104; 0x1F600; 0xE9]) as Hs.
  { repeat constructor; unfold unicode_scalar; simpl; lia. }
  split; [exact Hs |]. split; [lia |].
  apply (truncate_to_bytes_byte_safe [104; 0x1F600; 0xE9] 4 Hs). lia.
Defined.

Lemma truncate_emoji_example :
  truncate_to_bytes [104; 0x1F600; 0xE9] 4 = Ok [104].
Proof. reflexivity. Qed.

(** ** lib/embedder.py: the download and the dimension check *)

(** [download_media] makes exactly one request, whatever its outcome. *)
Lemma download_media_trace (w : world) (url : option string) (s : state) :
  exists r, download_media w url s = (r, add_event (EvMediaGet url) s).
Proof.
  unfold download_media, try_except, bind, log_event, modify, lift_result, raise, ret.
  destruct (w_media_get w url) as [resp | e]; [| eauto].
  destruct (resp_status_error resp); [eauto |].
  destruct (resp_content_length resp >? max_download_bytes); [eauto |].
  destruct (read_chunks (resp_chunks resp) []) as [buf | e]; [| eauto].
  destruct (negb _); eauto.
Qed.

Lemma validate_embedding_ok (resp : option (list float)) (v : list float) :
  validate_embedding resp = Ok v -> resp = Some v /\ length v = EMBEDDING_DIMENSION.
Proof.
  unfold validate_embedding. destruct resp as [vec |]; [| discriminate].
  destruct (opt_falsy (Some vec)); [discriminate |]. cbn [orb].
  destruct (Nat.eqb_spec (length vec) EMBEDDING_DIMENSION); [| discriminate].
  intros [= <-]. auto.
Qed.

(** The outcome of [generate_multimodal_embedding]: a returned vector is the
    response of the embedding call that ends the trace, and it has 1408
    entries. *)
Lemma generate_multimodal_embedding_ok (w : world) (text : option pystr)
    (url : option string) (s s' : state) (v : list float) :
  generate_multimodal_embedding w text url s = (Ok v, s') ->
  length v = EMBEDDING_DIMENSION /\
  exists img txt,
    s' = add_event (EvEmbed img txt) (add_event (EvMediaGet url) s) /\
    w_get_embeddings w img txt = Ok (Some v).
Proof.
  unfold generate_multimodal_embedding.
  destruct (opt_falsy text && url_falsy url); [discriminate |].
  unfold bind at 1. destruct (download_media_trace w url s) as [r ->].
  destruct r as [media | e]; [| discriminate].
  unfold bind, lift_result, try_except, raise, log_event, modify.
  destruct (match text with None => _ | Some t => _ end) as [tt' | e]; [| discriminate].
  destruct (if opt_falsy text then _ else _) as [ob | e]; [| discriminate].
  destruct (match str_encode tt' with Ok b => _ | Raise e => _ end) as [tb | e];
    [| discriminate].
  destruct (w_get_embeddings w (buffer media) _) as [resp | e] eqn:Hresp.
  - destruct (validate_embedding resp) as [vec | e] eqn:Hval.
    + intros [= <- <-]. apply validate_embedding_ok in Hval as [-> Hlen].
      split; [exact Hlen |]. eauto.
    + destruct (str_in "400" (exn_msg e)); discriminate.
  - destruct (str_in "400" (exn_msg e)); discriminate.
Qed.

(** C10.  With text and media URL both empty or absent the call raises at
    once and leaves the state as it was: no request for media and no call to
    the embedding service.  With at least one of them present the first thing
    the call does is the media download. *)
Theorem generate_multimodal_embedding_requires_input
    (w : world) (text : option pystr) (url : option string) (s : state) :
  if opt_falsy text && url_falsy url
  then exists e, generate_multimodal_embedding w text url s = (Raise e, s)
  else exists r s' later,
         generate_multimodal_embedding w text url s = (r, s')
         /\ st_trace s' = st_trace s ++ EvMediaGet url :: later.
Proof.
  unfold generate_multimodal_embedding.
  destruct (opt_falsy text && url_falsy url); [unfold raise; eauto |].
  unfold bind at 1. destruct (download_media_trace w url s) as [r ->].
  destruct r as [media | e].
  2:{ do 2 eexists. exists []. split; [reflexivity | reflexivity]. }
  unfold bind, lift_result, try_except, raise, log_event, modify.
  destruct (match text with None => _ | Some t => _ end) as [tt' | e].
  2:{ do 2 eexists. exists []. split; reflexivity. }
  destruct (if opt_falsy text then _ else _) as [ob | e].
  2:{ do 2 eexists. exists []. split; reflexivity. }
  destruct (match str_encode tt' with Ok b => _ | Raise e => _ end) as [tb | e].
  2:{ do 2 eexists. exists []. split; reflexivity. }
  set (ev := EvEmbed _ _).
  assert (forall r : result (list float), exists r0 s' later, (r, add_event ev (add_event (EvMediaGet url) s)) = (r0, s')
            /\ st_trace s' = st_trace s ++ EvMediaGet url :: later) as Hdone.
  { intros r. do 2 eexists. exists [ev]. split; [reflexivity |].
    simpl. now rewrite <- app_assoc. }
  destruct (w_get_embeddings w (buffer media) _) as [resp | e].
  - destruct (validate_embedding resp) as [vec | e]; [apply Hdone |].
    destruct (str_in "400" (exn_msg e)); apply Hdone.
  - destruct (str_in "400" (exn_msg e)); apply Hdone.
Qed.

(** ** lib/transcriber.py: chunked transcription *)

Lemma transcribe_audio_outcome (w : world) (p : path) (language : string) (s : state) :
  exists s', transcribe_audio w p language s = (chunk_outcome w language p, s').
Proof.
  unfold transcribe_audio, chunk_outcome, bind, try_except, lift_result,
    log_event, modify, ret, raise.
  destruct (w_read_audio w p) as [content | e]; [| eauto].
  destruct (w_recognize w content language) as [results | e]; eauto.
Qed.

Lemma transcribe_chunks_loop_spec (w : world) (language : string)
    (chunk_paths : list path) (acc : list pystr) (s : state) :
  exists s',
    transcribe_chunks_loop w chunk_paths language acc s =
      (Ok (acc ++ succeeded_transcripts w language chunk_paths), s').
Proof.
  revert acc s. induction chunk_paths as [| p rest IH]; intros acc s.
  - simpl. unfold ret. rewrite app_nil_r. eauto.
  - cbn [transcribe_chunks_loop]. unfold bind at 1. unfold try_except, bind at 1.
    destruct (transcribe_audio_outcome w p language s) as [s1 ->].
    unfold succeeded_transcripts. cbn [omap list_omap].
    fold (succeeded_transcripts w language rest).
    destruct (chunk_outcome w language p) as [t | e]; unfold ret.
    + destruct (IH (acc ++ [t]) s1) as [s' ->]. rewrite <- app_assoc. eauto.
    + destruct (IH acc s1) as [s' ->]. eauto.
Qed.

Lemma transcribe_long_audio_spec (w : world) (language : string)
    (chunk_paths : list path) (s : state) :
  exists s',
    transcribe_long_audio w chunk_paths language s =
      (Ok (str_strip (str_join (u " ")
             (succeeded_transcripts w language chunk_paths))), s').
Proof.
  unfold transcribe_long_audio, bind.
  destruct (transcribe_chunks_loop_spec w language chunk_paths [] s) as [s' ->].
  unfold ret. simpl. eauto.
Qed.

(** *** Facts about [str.strip()] *)

Lemma str_lstrip_head (c : codepoint) (r : pystr) :
  py_isspace c = false -> str_lstrip (c :: r) = c :: r.
Proof. intros H. simpl. now rewrite H. Qed.

Lemma str_lstrip_shape (s : pystr) :
  str_lstrip s = [] \/ exists c r, str_lstrip s = c :: r /\ py_isspace c = false.
Proof.
  induction s as [| c r IH]; [now left |].
  simpl. destruct (py_isspace c) eqn:Hc; [exact IH |]. right. eauto.
Qed.

Lemma str_rstrip_head (c : codepoint) (r : pystr) :
  py_isspace c = false -> str_rstrip (c :: r) = c :: str_rstrip r.
Proof. intros H. simpl. destruct (str_rstrip r); [now rewrite H | reflexivity]. Qed.

Lemma str_rstrip_shape (s : pystr) :
  str_rstrip s = [] \/ exists r d, str_rstrip s = r ++ [d] /\ py_isspace d = false.
Proof.
  induction s as [| c r IH]; [now left |].
  simpl. destruct IH as [-> | (r' & d & -> & Hd)].
  - destruct (py_isspace c) eqn:Hc; [now left |]. right. exists [], c. auto.
  - right. exists (c :: r'), d. split; [| exact Hd]. now destruct r'.
Qed.

Lemma str_rstrip_last (r : pystr) (d : codepoint) :
  py_isspace d = false -> str_rstrip (r ++ [d]) = r ++ [d].
Proof.
  intros Hd. induction r as [| c r IH].
  - simpl. now rewrite Hd.
  - cbn [app str_rstrip]. rewrite IH. now destruct r.
Qed.

(** A string that [strip] leaves alone and that is not empty starts and ends
    with a character that is not white space. *)
Lemma trimmed_shape (t : pystr) :
  str_strip t = t -> t <> [] ->
  (exists c r, t = c :: r /\ py_isspace c = false) /\
  (exists r d, t = r ++ [d] /\ py_isspace d = false).
Proof.
  unfold str_strip. intros Ht Hne. split.
  - destruct (str_lstrip_shape t) as [Hl | (c & r & Hl & Hc)]; rewrite Hl in Ht.
    + simpl in Ht. congruence.
    + rewrite str_rstrip_head in Ht by assumption. eauto.
  - destruct (str_rstrip_shape (str_lstrip t)) as [Hr | (r & d & Hr & Hd)];
      rewrite Hr in Ht; [congruence | eauto].
Qed.

Lemma str_strip_idempotent (s : pystr) : str_strip (str_strip s) = str_strip s.
Proof.
  unfold str_strip at 2 3.
  destruct (str_lstrip_shape s) as [-> | (c & r & -> & Hc)]; [reflexivity |].
  rewrite str_rstrip_head by assumption.
  unfold str_strip. rewrite str_lstrip_head by assumption.
  destruct (str_rstrip_shape (c :: r)) as [Hr | (r' & d & Hr & Hd)].
  - rewrite str_rstrip_head in Hr by assumption. discriminate.
  - rewrite str_rstrip_head in Hr by assumption. rewrite Hr.
    now apply str_rstrip_last.
Qed.

Lemma str_strip_joined (a m b : pystr) :
  str_strip a = a -> str_strip b = b -> a <> [] -> b <> [] ->
  str_strip (a ++ m ++ b) = a ++ m ++ b.
Proof.
  intros Ha Hb Hane Hbne.
  destruct (trimmed_shape a Ha Hane) as [(c & r & -> & Hc) _].
  destruct (trimmed_shape b Hb Hbne) as [_ (r' & d & -> & Hd)].
  unfold str_strip. cbn [app]. rewrite str_lstrip_head by assumption.
  change (c :: r ++ m ++ r' ++ [d]) with ((c :: r) ++ m ++ r' ++ [d]).
  rewrite !app_assoc. now apply str_rstrip_last.
Qed.

Lemma chunk_outcome_trimmed (w : world) (language : string) (p : path) (t : pystr) :
  chunk_outcome w language p = Ok t -> str_strip t = t.
Proof.
  unfold chunk_outcome. destruct (w_read_audio w p); [| discriminate].
  destruct (w_recognize w a language); [| discriminate].
  intros [= <-]. apply str_strip_idempotent.
Qed.

(** C4, as stated, fails on a silent first chunk: with transcripts [""] and
    ["b"] around a failing chunk the result is ["b"], not [" b"]. *)
Lemma transcribe_long_audio_silent_chunk :
  let w := silent_first_chunk_world in
  exists t1 e t3 s',
    chunk_outcome w "en" (chunk_file 0) = Ok t1
    /\ chunk_outcome w "en" (chunk_file 1) = Raise e
    /\ chunk_outcome w "en" (chunk_file 2) = Ok t3
    /\ transcribe_long_audio w [chunk_file 0; chunk_file 1; chunk_file 2] "en"
         empty_state = (Ok (u "b"), s')
    /\ u "b" <> t1 ++ u " " ++ t3.
Proof.
  simpl. exists [], (mk_exn Exception "Speech-to-Text error: 503 service unavailable"),
    (u "b"). eexists.
  repeat split; try reflexivity. discriminate.
Qed.

(** C4 (amended).  [transcribe_long_audio] always returns: its value is the
    transcripts of the chunks that succeeded, in chunk order, joined by one
    space and trimmed.  For three chunks of which the second raises this is the
    trimmed [t1 + " " + t3], and it is [t1 + " " + t3] itself when neither
    transcript is empty. *)
Theorem transcribe_long_audio_partial (w : world) (language : string)
    (chunk_paths : list path) (s : state) :
  exists s',
    transcribe_long_audio w chunk_paths language s =
      (Ok (str_strip (str_join (u " ")
             (succeeded_transcripts w language chunk_paths))), s')
    /\ forall p1 p2 p3 t1 e t3,
         chunk_paths = [p1; p2; p3] ->
         chunk_outcome w language p1 = Ok t1 ->
         chunk_outcome w language p2 = Raise e ->
         chunk_outcome w language p3 = Ok t3 ->
         transcribe_long_audio w chunk_paths language s =
           (Ok (str_strip (t1 ++ u " " ++ t3)), s')
         /\ (t1 <> [] -> t3 <> [] ->
             transcribe_long_audio w chunk_paths language s =
               (Ok (t1 ++ u " " ++ t3), s')).
Proof.
  destruct (transcribe_long_audio_spec w language chunk_paths s) as [s' Hrun].
  exists s'. split; [exact Hrun |].
  intros p1 p2 p3 t1 e t3 -> H1 H2 H3.
  assert (succeeded_transcripts w language [p1; p2; p3] = [t1; t3]) as Hsucc.
  { unfold succeeded_transcripts. cbn [omap list_omap]. now rewrite H1, H2, H3. }
  rewrite Hsucc in Hrun. cbn [str_join] in Hrun.
  split; [exact Hrun |].
  intros Hne1 Hne3. rewrite Hrun. do 2 f_equal.
  apply str_strip_joined; eauto using chunk_outcome_trimmed.
Qed.

Lemma transcribe_long_audio_partial_witness :
  exists s',
    transcribe_long_audio failing_middle_chunk_world
      [chunk_file 0; chunk_file 1; chunk_file 2] "en" empty_state
    = (Ok (u "a b"), s').
Proof.
  destruct (transcribe_long_audio_partial failing_middle_chunk_world "en"
              [chunk_file 0; chunk_file 1; chunk_file 2] empty_state)
    as (s' & _ & Hthree).
  exists s'.
  apply (Hthree (chunk_file 0) (chunk_file 1) (chunk_file 2) (u "a")
           (mk_exn Exception "Speech-to-Text error: 503 service unavailable") (u "b"));
    (reflexivity || discriminate).
Defined.

(** ** main.py: claiming the next job *)

Lemma foldl_older_in (r : Z * job) (rest : list (Z * job)) :
  foldl older r rest ∈ r :: rest.
Proof.
  revert r. induction rest as [| x rest IH]; intros r; simpl.
  - apply list_elem_of_here.
  - specialize (IH (older r x)). unfold older in *.
    destruct (created_at x.2 <? created_at r.2).
    + now apply list_elem_of_further.
    + apply elem_of_cons in IH as [-> | IH]; [apply list_elem_of_here |].
      now do 2 apply list_elem_of_further.
Qed.

Lemma foldl_older_le (r : Z * job) (rest : list (Z * job)) :
  created_at (foldl older r rest).2 <= created_at r.2.
Proof.
  revert r. induction rest as [| x rest IH]; intros r; simpl; [lia |].
  specialize (IH (older r x)). unfold older in *.
  destruct (Z.ltb_spec (created_at x.2) (created_at r.2)); lia.
Qed.

Lemma older_le (a b : Z * job) :
  created_at (older a b).2 <= created_at a.2 /\
  created_at (older a b).2 <= created_at b.2.
Proof.
  unfold older. destruct (Z.ltb_spec (created_at b.2) (created_at a.2)); lia.
Qed.

Lemma foldl_older_min (r : Z * job) (rest : list (Z * job)) (x : Z * job) :
  x ∈ r :: rest -> created_at (foldl older r rest).2 <= created_at x.2.
Proof.
  revert r. induction rest as [| y rest IH]; intros r Hx; simpl.
  - apply list_elem_of_singleton in Hx. rewrite Hx. lia.
  - pose proof (foldl_older_le (older r y) rest) as Hle.
    pose proof (older_le r y) as [Hr Hy].
    apply elem_of_cons in Hx as [Heq | Hx]; [rewrite Heq; lia |].
    apply elem_of_cons in Hx as [Heq | Hx]; [rewrite Heq; lia |].
    apply IH. now apply list_elem_of_further.
Qed.

Lemma claimable_spec (cfg : config) (j : job) :
  claimable cfg j = true <-> status j = pending /\ attempts j < MAX_RETRY_ATTEMPTS cfg.
Proof.
  unfold claimable. rewrite andb_true_iff, bool_decide_eq_true, Z.ltb_lt. tauto.
Qed.

Lemma select_claimable_Some (cfg : config) (jobs : gmap Z job) (id : Z) (j : job) :
  select_claimable cfg jobs = Some (id, j) ->
  jobs !! id = Some j
  /\ status j = pending /\ attempts j < MAX_RETRY_ATTEMPTS cfg
  /\ forall id' j', jobs !! id' = Some j' -> status j' = pending ->
       attempts j' < MAX_RETRY_ATTEMPTS cfg -> created_at j <= created_at j'.
Proof.
  unfold select_claimable, oldest.
  destruct (filter _ (map_to_list jobs)) as [| r rest] eqn:Hrows; [discriminate |].
  intros [= Hsel].
  assert (forall x, x ∈ r :: rest <-> jobs !! x.1 = Some x.2 /\ claimable cfg x.2 = true)
    as Hmem.
  { intros [i x]. rewrite <- Hrows, list_elem_of_filter, elem_of_map_to_list. simpl. tauto. }
  pose proof (foldl_older_in r rest) as Hin. rewrite Hsel in Hin.
  apply Hmem in Hin as [Hlook Hcl]. simpl in *.
  apply claimable_spec in Hcl as [Hst Hat].
  repeat split; try assumption.
  intros id' j' Hlook' Hst' Hat'.
  pose proof (foldl_older_min r rest (id', j')) as Hmin. rewrite Hsel in Hmin.
  apply Hmin, Hmem. simpl. split; [assumption |]. now apply claimable_spec.
Qed.

Lemma select_claimable_None (cfg : config) (jobs : gmap Z job) :
  select_claimable cfg jobs = None ->
  forall id j, jobs !! id = Some j ->
    ~ (status j = pending /\ attempts j < MAX_RETRY_ATTEMPTS cfg).
Proof.
  unfold select_claimable, oldest.
  destruct (filter _ (map_to_list jobs)) as [| r rest] eqn:Hrows; [| discriminate].
  intros _ id j Hlook Hcl.
  assert ((id, j) ∈ filter (fun r => claimable cfg r.2 = true) (map_to_list jobs)) as Hin.
  { apply list_elem_of_filter. split; [now apply claimable_spec |].
    now apply elem_of_map_to_list. }
  rewrite Hrows in Hin. now apply not_elem_of_nil in Hin.
Qed.

(** A store function begins with the connection and the cursor; a failure
    of either ends the call before anything else is done. *)
Lemma db_call_eq {A} (w : world) (op : db_op) (body : M state A) (s : state) :
  (db_connect w op ;;; db_cursor w op ;;; body) s =
    match w_db_connect w op with
    | Some msg => (Raise (mk_exn DatabaseError msg), s)
    | None =>
      match w_db_cursor w op with
      | Some msg => (Raise (mk_exn DatabaseError msg), s)
      | None => body s
      end
    end.
Proof.
  unfold bind, db_connect, db_cursor.
  destruct (w_db_connect w op); [reflexivity |].
  unfold ret. destruct (w_db_cursor w op); reflexivity.
Qed.

(** The row that a successful [get_next_job] has written. *)
Lemma get_next_job_fifo_rows (cfg : config) (w : world) (s s' : state) (r : job_ref) :
  get_next_job cfg w s = (Ok (Some r), s') ->
  exists j, st_jobs s !! ref_id r = Some j
    /\ st_jobs s' !! ref_id r = Some (set_processing (w_now w) j).
Proof.
  unfold get_next_job. rewrite db_call_eq.
  destruct (w_db_connect w OpGetNextJob); [discriminate |].
  destruct (w_db_cursor w OpGetNextJob); [discriminate |].
  unfold db_statement.
  destruct (w_db_fault w OpGetNextJob); [discriminate |].
  unfold bind, get, modify, ret.
  destruct (select_claimable cfg (st_jobs s)) as [[id j] |] eqn:Hsel; [| discriminate].
  intros [= <- <-]. apply select_claimable_Some in Hsel as (Hlook & _).
  exists j. simpl. split; [exact Hlook | apply lookup_insert_eq].
Qed.

(** C6.  [get_next_job] takes, among the jobs that are [pending] with
    [attempts < MAX_RETRY_ATTEMPTS], one whose creation time is the earliest,
    and returns it.  Exactly that row is rewritten: afterwards its status is
    [processing], its [started_at] and [updated_at] are the time of the call,
    and its other columns are as before; every other row is untouched.  With
    no such job it returns [None] and the state is untouched; when the store
    fails, at the connection, the cursor or the statement, it raises that
    failure and the state is untouched. *)
Theorem get_next_job_fifo (cfg : config) (w : world) (s : state) :
  match get_next_job cfg w s with
  | (Ok (Some r), s') =>
    exists j j',
      st_jobs s !! ref_id r = Some j
      /\ status j = pending /\ attempts j < MAX_RETRY_ATTEMPTS cfg
      /\ (forall id1 j1, st_jobs s !! id1 = Some j1 -> status j1 = pending ->
            attempts j1 < MAX_RETRY_ATTEMPTS cfg -> created_at j <= created_at j1)
      /\ s' = set_jobs (insert (ref_id r) (set_processing (w_now w) j)) s
      /\ st_jobs s' !! ref_id r = Some (set_processing (w_now w) j)
      /\ (forall id', id' <> ref_id r -> st_jobs s' !! id' = st_jobs s !! id')
      /\ r = mk_job_ref (ref_id r) (client_id j) (content_id j) (content_type j)
                        (attempts j)
      /\ st_jobs s' !! ref_id r = Some j'
      /\ status j' = processing
      /\ started_at j' = Some (w_now w) /\ updated_at j' = w_now w
      /\ client_id j' = client_id j /\ content_id j' = content_id j
      /\ content_type j' = content_type j /\ attempts j' = attempts j
      /\ error_message j' = error_message j /\ created_at j' = created_at j
      /\ completed_at j' = completed_at j
      /\ st_posts s' = st_posts s /\ st_children s' = st_children s
      /\ st_files s' = st_files s /\ st_trace s' = st_trace s
  | (Ok None, s') =>
    s' = s
    /\ forall id j, st_jobs s !! id = Some j ->
         ~ (status j = pending /\ attempts j < MAX_RETRY_ATTEMPTS cfg)
  | (Raise e, s') =>
    s' = s /\ exn_cls e = DatabaseError
    /\ (w_db_connect w OpGetNextJob = Some (exn_msg e)
        \/ w_db_cursor w OpGetNextJob = Some (exn_msg e)
        \/ w_db_fault w OpGetNextJob = Some (exn_msg e))
  end.
Proof.
  unfold get_next_job. rewrite db_call_eq.
  destruct (w_db_connect w OpGetNextJob) as [msg |] eqn:Hconnect.
  { auto. }
  destruct (w_db_cursor w OpGetNextJob) as [msg |] eqn:Hcursor.
  { auto. }
  unfold db_statement.
  destruct (w_db_fault w OpGetNextJob) as [msg |] eqn:Hfault.
  { unfold raise. auto. }
  unfold bind, get, modify, ret.
  destruct (select_claimable cfg (st_jobs s)) as [[id j] |] eqn:Hsel.
  - apply select_claimable_Some in Hsel as (Hlook & Hst & Hat & Hmin).
    exists j, (set_processing (w_now w) j). simpl. repeat split; try assumption.
    + apply lookup_insert_eq.
    + intros id' Hne. now apply lookup_insert_ne.
    + apply lookup_insert_eq.
  - split; [reflexivity |]. now apply select_claimable_None.
Qed.

(** ** main.py: failure accounting *)

Lemma py_index_lookup {A} (l : list A) (i : nat) (x : A) :
  l !! i = Some x -> py_index l (Z.of_nat i) = Ok x.
Proof.
  intros Hx. pose proof (lookup_lt_Some _ _ _ Hx) as Hlt. unfold py_index.
  destruct (Z.ltb_spec (Z.of_nat i) 0); [lia |].
  destruct (Z.leb_spec 0 (Z.of_nat i)); [| lia].
  destruct (Z.ltb_spec (Z.of_nat i) (Z.of_nat (length l))); [| lia].
  simpl. now rewrite Nat2Z.id, Hx.
Qed.

Lemma py_index_last {A} (l : list A) (x : A) :
  l !! (length l - 1)%nat = Some x -> py_index l (-1) = Ok x.
Proof.
  intros Hx. pose proof (lookup_lt_Some _ _ _ Hx) as Hlt. unfold py_index.
  destruct (Z.ltb_spec (-1) 0); [| lia].
  destruct (Z.leb_spec 0 (Z.of_nat (length l) + -1)); [| lia].
  destruct (Z.ltb_spec (Z.of_nat (length l) + -1) (Z.of_nat (length l))); [| lia].
  simpl. replace (Z.to_nat (Z.of_nat (length l) + -1)) with (length l - 1)%nat by lia.
  now rewrite Hx.
Qed.

(** What [mark_job_failed] writes.  At the last attempt the row becomes
    [failed] with the message; before that it becomes [pending] again with
    [attempts = a + 1] and [created_at = NOW() + backoff] minutes, the backoff
    being the entry of the schedule for [a]. *)
Lemma mark_job_failed_row (cfg : config) (w : world) (job_id : Z) (msg : string)
    (a b : Z) (s : state) :
  store_up w OpMarkFailed -> 0 <= a ->
  scheduled_backoff cfg a = Some b ->
  mark_job_failed cfg w job_id msg a s =
    (Ok tt,
     set_jobs (alter (if a + 1 >=? MAX_RETRY_ATTEMPTS cfg
                      then set_failed (w_now w) msg (a + 1)
                      else set_retry (w_now w) msg (a + 1) b) job_id) s).
Proof.
  intros (Hconnect & Hcursor & Hdb) Ha Hb. unfold mark_job_failed.
  rewrite db_call_eq, Hconnect, Hcursor. unfold db_statement. rewrite Hdb.
  destruct (a + 1 >=? MAX_RETRY_ATTEMPTS cfg); [reflexivity |].
  unfold bind, lift_result, modify, scheduled_backoff in *.
  replace (a + 1 - 1) with (Z.of_nat (Z.to_nat a)) by lia.
  pose proof (lookup_lt_Some _ _ _ Hb) as Hlt.
  destruct (Z.ltb_spec (Z.of_nat (Z.to_nat a))
              (Z.of_nat (length (RETRY_BACKOFF_MINUTES cfg)))) as [Hin | Hout].
  - rewrite Nat.min_l in Hb by lia. now rewrite (py_index_lookup _ _ _ Hb).
  - rewrite Nat.min_r in Hb by lia. now rewrite (py_index_last _ _ Hb).
Qed.

(** C3 at its failing input.  A job created at time 0 fails for the first
    time at time 20 (seconds) under the default configuration.
    [mark_job_failed] makes it [pending] with [attempts = 1] and [created_at]
    five minutes ahead of the clock, yet [get_next_job] at that same time 20
    hands the job out again: nothing compares [created_at] with the clock. *)
Theorem mark_job_failed_retry_not_delayed :
  let w := offline_at 20 in
  exists s1 s2 j1,
    mark_job_failed default_config w 7 "timeout" 0 one_job_state = (Ok tt, s1)
    /\ st_jobs s1 !! 7 = Some j1
    /\ status j1 = pending /\ attempts j1 = 1
    /\ error_message j1 = Some "timeout"
    /\ created_at j1 = 20 + 60 * 5
    /\ w_now w < created_at claimed_job + 60 * 5
    /\ w_now w < created_at j1
    /\ get_next_job default_config w s1 =
         (Ok (Some (mk_job_ref 7 "client" "post-1" "instagram_posts" 1)), s2).
Proof.
  simpl. do 3 eexists.
  split; [vm_compute; reflexivity |].
  split; [vm_compute; reflexivity |].
  repeat split; try reflexivity.
  vm_compute. reflexivity.
Qed.

(** ** lib/audio_extractor.py: the number of chunks *)

Lemma inject_Z_pred (n : Z) : (inject_Z (n - 1) == inject_Z n - 1)%Q.
Proof. unfold Z.sub. rewrite inject_Z_plus. reflexivity. Qed.

Lemma inject_Z_succ (n : Z) : (inject_Z (n + 1) == inject_Z n + 1)%Q.
Proof. rewrite inject_Z_plus. reflexivity. Qed.

Lemma Qceiling_unique (q : Q) (n : Z) :
  (inject_Z n - 1 < q)%Q -> (q <= inject_Z n)%Q -> Qceiling q = n.
Proof.
  intros Hlo Hhi.
  pose proof (Qle_ceiling q) as Hc1. pose proof (Qceiling_lt q) as Hc2.
  rewrite inject_Z_pred in Hc2.
  assert (n - 1 < Qceiling q) by (rewrite Zlt_Qlt, inject_Z_pred; lra).
  assert (Qceiling q - 1 < n) by (rewrite Zlt_Qlt, inject_Z_pred; lra).
  lia.
Qed.

Lemma inject_Z_pos (c : Z) : 0 < c -> (0 < inject_Z c)%Q.
Proof. intros Hc. now rewrite (Zlt_Qlt 0 c) in Hc. Qed.

(** For a positive duration and a positive chunk length the count of the
    source is the ceiling of the quotient. *)
Lemma num_chunks_ceiling (d : float) (c : Z) :
  (0 < d)%Q -> 0 < c -> num_chunks d c = Ok (Qceiling (d / inject_Z c)).
Proof.
  intros Hd Hc. pose proof (inject_Z_pos c Hc) as HcQ.
  unfold num_chunks, py_truediv, py_mod, py_int.
  destruct (Z.eqb_spec c 0) as [-> | _]; [lia |].
  assert (d == d / inject_Z c * inject_Z c)%Q as Hq by (field; lra).
  assert (0 <= d / inject_Z c)%Q as Hq0 by (apply Qle_shift_div_l; lra).
  set (q := (d / inject_Z c)%Q) in *. clearbody q.
  apply Qle_bool_iff in Hq0 as Hq0b. rewrite Hq0b. f_equal. symmetry.
  pose proof (Qfloor_le q) as Hf1. pose proof (Qlt_floor q) as Hf2.
  rewrite inject_Z_succ in Hf2.
  destruct (Qle_bool _ 0) eqn:Hr; cbn [negb].
  - apply Qle_bool_iff in Hr. rewrite Z.add_0_r. apply Qceiling_unique.
    + lra.
    + nra.
  - assert (~ (d - inject_Z c * inject_Z (Qfloor q) <= 0)%Q) as Hr'.
    { intros H. apply Qle_bool_iff in H. congruence. }
    apply Qnot_le_lt in Hr'. apply Qceiling_unique.
    + rewrite inject_Z_succ. nra.
    + rewrite inject_Z_succ. lra.
Qed.

Lemma chunk_loop_all_written (w : world) (audio : path) (c : Z)
    (indices : list Z) (acc : list path) (s : state) :
  (forall ss t out, w_ffmpeg_chunk w audio ss t out = Ok tt) ->
  chunk_loop w audio c indices acc s =
    (Ok (acc ++ chunk_files (st_next_token s) indices),
     mk_state (st_jobs s) (st_posts s) (st_children s)
              (st_files s ++ chunk_files (st_next_token s) indices)
              (st_next_token s + length indices)
              (st_trace s ++ chunk_commands audio c (st_next_token s) indices)).
Proof.
  intros Hok. revert acc s. induction indices as [| i rest IH]; intros acc s.
  - simpl. unfold ret. rewrite !app_nil_r, Nat.add_0_r. now destruct s.
  - cbn [chunk_loop chunk_files chunk_commands length].
    unfold bind at 1. unfold mkstemp at 1.
    unfold bind at 1. unfold try_except, bind, log_event, modify, lift_result.
    rewrite Hok. rewrite IH. simpl.
    rewrite <- !app_assoc. simpl. do 3 f_equal. lia.
Qed.

Lemma length_chunk_files (token : nat) (indices : list Z) :
  length (chunk_files token indices) = length indices.
Proof.
  revert token. induction indices as [| i rest IH]; intros token; simpl; auto.
Qed.

Lemma chunk_commands_lookup (audio : path) (c : Z) (token : nat) (n : Z) (i : nat) :
  Z.of_nat i < n ->
  exists out,
    chunk_files token (seqZ 0 n) !! i = Some out
    /\ path_suffix out = "_chunk" +:+ pretty (Z.of_nat i) +:+ ".wav"
    /\ chunk_commands audio c token (seqZ 0 n) !! i =
         Some (EvFfmpegChunk audio (Z.of_nat i * c) c out).
Proof.
  intros Hi.
  assert (forall indices k tok, indices !! i = Some k ->
            exists out, chunk_files tok indices !! i = Some out
              /\ path_suffix out = "_chunk" +:+ pretty k +:+ ".wav"
              /\ chunk_commands audio c tok indices !! i =
                   Some (EvFfmpegChunk audio (k * c) c out)) as Hgen.
  { clear Hi. induction i as [| i IH]; intros [| j rest] k tok Hk; try discriminate.
    - injection Hk as ->. simpl. eauto.
    - simpl in *. now apply IH. }
  apply Hgen. rewrite lookup_seqZ. split; lia.
Qed.

(** C9.  For an audio of positive duration [d] and a positive chunk length
    [c], with ffmpeg succeeding on every chunk, [split_audio_into_chunks]
    returns [ceil(d / c)] new files; chunk [i] is cut with [-ss i*c -t c], so
    it starts at [i*c], is not empty and lasts at most [c] seconds, and every
    chunk before the last one lasts [c] seconds. *)
Theorem split_audio_into_chunks_count (w : world) (audio : path) (d : float)
    (c : Z) (s : state) :
  (0 < d)%Q -> 0 < c ->
  w_probe_duration w audio = Ok d ->
  (forall ss t out, w_ffmpeg_chunk w audio ss t out = Ok tt) ->
  exists chunks s',
    split_audio_into_chunks w audio c s = (Ok chunks, s')
    /\ Z.of_nat (length chunks) = Qceiling (d / inject_Z c)
    /\ st_files s' = st_files s ++ chunks
    /\ (forall i : nat, Z.of_nat i < Qceiling (d / inject_Z c) ->
          exists out later,
            chunks !! i = Some out
            /\ path_suffix out = "_chunk" +:+ pretty (Z.of_nat i) +:+ ".wav"
            /\ drop (length (st_trace s) + i) (st_trace s') =
                 EvFfmpegChunk audio (Z.of_nat i * c) c out :: later)
    /\ (forall i : Z, 0 <= i < Qceiling (d / inject_Z c) ->
          (0 < chunk_seconds d (i * c) c)%Q
          /\ (chunk_seconds d (i * c) c <= inject_Z c)%Q
          /\ (i < Qceiling (d / inject_Z c) - 1 ->
              (chunk_seconds d (i * c) c == inject_Z c)%Q)).
Proof.
  intros Hd Hc Hprobe Hok. set (n := Qceiling (d / inject_Z c)).
  pose proof (inject_Z_pos c Hc) as HcQ.
  assert (0 <= n) as Hn.
  { unfold n. rewrite Zle_Qle.
    apply Qle_trans with (d / inject_Z c)%Q; [| apply Qle_ceiling].
    apply Qle_shift_div_l; [exact HcQ |]. change (inject_Z 0) with 0%Q. lra. }
  exists (chunk_files (st_next_token s) (seqZ 0 n)). eexists.
  split.
  { unfold split_audio_into_chunks. unfold bind at 1.
    unfold try_except at 1, lift_result at 1. rewrite Hprobe.
    unfold bind at 1. unfold try_except at 1, lift_result at 1.
    rewrite num_chunks_ceiling by assumption. fold n.
    rewrite chunk_loop_all_written by assumption. reflexivity. }
  split; [rewrite length_chunk_files, length_seqZ; lia |].
  split; [reflexivity |].
  split.
  - intros i Hi. cbn [st_trace].
    destruct (chunk_commands_lookup audio c (st_next_token s) n i Hi)
      as (out & Hfile & Hsuf & Hcmd).
    exists out, (drop (S i) (chunk_commands audio c (st_next_token s) (seqZ 0 n))).
    split; [exact Hfile |]. split; [exact Hsuf |].
    rewrite drop_app_add'; [| reflexivity].
    now apply drop_S.
  - intros i [Hi0 Hin].
    pose proof (Qceiling_lt (d / inject_Z c)) as Hlt. fold n in Hlt.
    rewrite inject_Z_pred in Hlt.
    assert (d == d / inject_Z c * inject_Z c)%Q as Hq by (field; lra).
    set (q := (d / inject_Z c)%Q) in *. clearbody q.
    assert (inject_Z i <= inject_Z n - 1)%Q as HiQ.
    { assert (i <= n - 1) as H by lia. now rewrite Zle_Qle, inject_Z_pred in H. }
    assert (0 <= inject_Z i)%Q as Hi0Q by (rewrite Zle_Qle in Hi0; exact Hi0).
    unfold chunk_seconds. rewrite inject_Z_mult.
    destruct (Qle_bool (inject_Z c) _) eqn:Hmin.
    + split; [lra |]. split; [lra |]. intros _. reflexivity.
    + assert (~ (inject_Z c <= d - inject_Z i * inject_Z c)%Q) as Hmin'.
      { intros H. apply Qle_bool_iff in H. congruence. }
      apply Qnot_le_lt in Hmin'.
      split; [nra |]. split; [lra |]. intros Hlast.
      assert (inject_Z i + 1 <= inject_Z n - 1)%Q as HiQ'.
      { assert (i + 1 <= n - 1) as H by lia.
        now rewrite Zle_Qle, inject_Z_pred, inject_Z_succ in H. }
      exfalso. nra.
Qed.

(** ** Reasoning about what a computation keeps *)

Section Preserves.
Context {S : Type} (R : relation S) {HR : PreOrder R}.

Lemma preserves_ret {A} (a : A) : preserves R (ret a).
Proof. intros s r s' [= <- <-]. reflexivity. Qed.

Lemma preserves_raise {A} (e : exn) : preserves R (raise (A := A) e).
Proof. intros s r s' [= <- <-]. reflexivity. Qed.

Lemma preserves_lift_result {A} (x : result A) : preserves R (lift_result x).
Proof. intros s r s' [= <- <-]. reflexivity. Qed.

Lemma preserves_get : preserves R get.
Proof. intros s r s' [= <- <-]. reflexivity. Qed.

Lemma preserves_modify (f : S -> S) : (forall s, R s (f s)) -> preserves R (modify f).
Proof. intros Hf s r s' [= <- <-]. apply Hf. Qed.

Lemma preserves_bind_returns {A B} (P : A -> Prop) (m : M S A) (k : A -> M S B) :
  returns P m -> preserves R m -> (forall a, P a -> preserves R (k a)) ->
  preserves R (bind m k).
Proof.
  intros HP Hm Hk s r s'. unfold bind.
  destruct (m s) as [[a | e] s1] eqn:Hms.
  - intros Hks. transitivity s1; [eapply Hm; eauto |].
    eapply Hk; [eapply HP; eauto | eauto].
  - intros [= <- <-]. eapply Hm; eauto.
Qed.

Lemma preserves_bind {A B} (m : M S A) (k : A -> M S B) :
  preserves R m -> (forall a, preserves R (k a)) -> preserves R (bind m k).
Proof.
  intros Hm Hk. apply (preserves_bind_returns (fun _ => True)); auto.
  intros s a s' _. exact I.
Qed.

Lemma preserves_try_except {A} (m : M S A) (h : exn -> M S A) :
  preserves R m -> (forall e, preserves R (h e)) -> preserves R (try_except m h).
Proof.
  intros Hm Hh s r s'. unfold try_except.
  destruct (m s) as [[a | e] s1] eqn:Hms.
  - intros [= <- <-]. eapply Hm; eauto.
  - intros Hhs. transitivity s1; [eapply Hm; eauto | eapply Hh; eauto].
Qed.

Lemma preserves_try_except_cls {A} (cls : exn_class) (m : M S A) (h : exn -> M S A) :
  preserves R m -> (forall e, preserves R (h e)) ->
  preserves R (try_except_cls cls m h).
Proof.
  intros Hm Hh s r s'. unfold try_except_cls.
  destruct (m s) as [[a | e] s1] eqn:Hms.
  - intros [= <- <-]. eapply Hm; eauto.
  - destruct (decide (exn_cls e = cls)).
    + intros Hhs. transitivity s1; [eapply Hm; eauto | eapply Hh; eauto].
    + intros [= <- <-]. eapply Hm; eauto.
Qed.

Lemma preserves_try_finally {A} (m : M S A) (fin : M S unit) :
  preserves R m -> preserves R fin -> preserves R (try_finally m fin).
Proof.
  intros Hm Hf s r s'. unfold try_finally.
  destruct (m s) as [r1 s1] eqn:Hms. destruct (fin s1) as [[[] | e] s2] eqn:Hfs;
    intros [= <- <-]; (transitivity s1; [eapply Hm; eauto | eapply Hf; eauto]).
Qed.

End Preserves.

Lemma preserves_weaken {S A} (R1 R2 : relation S) (m : M S A) :
  (forall s s', R1 s s' -> R2 s s') -> preserves R1 m -> preserves R2 m.
Proof. intros Himp Hm s r s' Hrun. eapply Himp, Hm, Hrun. Qed.

Lemma preserves_run {A} (R : relation state) (m : M state A) :
  preserves R m -> preserves (on_state R) (run m).
Proof.
  intros Hm [s f] r [s' f']. unfold run, on_state. simpl.
  destruct (m s) as [r1 s1] eqn:Hms. intros [= <- <- <-]. eapply Hm; eauto.
Qed.

Lemma returns_run {A} (P : A -> Prop) (m : M state A) :
  returns P m -> returns P (run m).
Proof.
  intros Hm [s f] a [s' f']. unfold run. simpl.
  destruct (m s) as [r1 s1] eqn:Hms. intros [= -> <- <-]. eapply Hm; eauto.
Qed.

Lemma preserves_assign (R : relation state) {HR : Reflexive R} (f : frame -> frame) :
  preserves (on_state R) (assign f).
Proof. intros [s fr] r [s' fr'] [= <- <- <-]. unfold on_state. simpl. reflexivity. Qed.

#[global] Instance on_state_preorder (R : relation state) {HR : PreOrder R} :
  PreOrder (on_state R).
Proof.
  split.
  - intros sf. unfold on_state. reflexivity.
  - intros a b c Hab Hbc. unfold on_state in *. etransitivity; eauto.
Qed.

#[global] Instance same_posts_preorder : PreOrder same_posts.
Proof. split; unfold same_posts; [intros s | intros a b c]; congruence. Qed.

#[global] Instance same_store_and_disk_preorder : PreOrder same_store_and_disk.
Proof.
  split; unfold same_store_and_disk.
  - intros s. auto.
  - intros a b c (? & ? & ? & ? & ?) (? & ? & ? & ? & ?). repeat split; congruence.
Qed.

#[global] Instance embeddings_sound_preorder : PreOrder embeddings_sound.
Proof.
  split; unfold embeddings_sound.
  - intros s cid p Hp. eauto.
  - intros a b c Hab Hbc cid p'' Hc.
    destruct (Hbc cid p'' Hc) as (p' & Hb & Hstep2).
    destruct (Hab cid p' Hb) as (p & Ha & Hstep1).
    exists p. split; [exact Ha |].
    destruct Hstep2 as [-> | ?]; [exact Hstep1 | now right].
Qed.

(** Opens a computation along its binds, handlers and branches; what is left
    are its primitive steps. *)
Ltac preserves_step :=
  cbv zeta;
  lazymatch goal with
  | |- preserves _ (ret _) => apply preserves_ret; typeclasses eauto
  | |- preserves _ (raise _) => apply preserves_raise; typeclasses eauto
  | |- preserves _ (lift_result _) => apply preserves_lift_result; typeclasses eauto
  | |- preserves _ get => apply preserves_get; typeclasses eauto
  | |- preserves _ (bind _ _) =>
      apply preserves_bind; [typeclasses eauto | | intros ?]
  | |- preserves _ (try_except _ _) =>
      apply preserves_try_except; [typeclasses eauto | | intros ?]
  | |- preserves _ (try_except_cls _ _ _) =>
      apply preserves_try_except_cls; [typeclasses eauto | | intros ?]
  | |- preserves _ (try_finally _ _) =>
      apply preserves_try_finally; [typeclasses eauto | |]
  | |- preserves _ (db_statement _ _ _) => unfold db_statement
  | |- preserves _ (db_connect _ _) => unfold db_connect
  | |- preserves _ (db_cursor _ _) => unfold db_cursor
  | |- preserves _ (assign _) => apply preserves_assign; typeclasses eauto
  | |- preserves _ (if ?b then _ else _) => destruct b
  | |- preserves _ (match ?x with _ => _ end) => destruct x
  end.

Ltac preserves_open := repeat preserves_step.

(** *** Steps that touch neither the store nor the disk *)

Lemma log_event_same (ev : event) : preserves same_store_and_disk (log_event ev).
Proof. apply preserves_modify. intros s. unfold same_store_and_disk. simpl. auto. Qed.

Lemma download_media_same (w : world) (url : option string) :
  preserves same_store_and_disk (download_media w url).
Proof. unfold download_media. preserves_open. apply log_event_same. Qed.

Lemma generate_multimodal_embedding_same (w : world) (text : option pystr)
    (url : option string) :
  preserves same_store_and_disk (generate_multimodal_embedding w text url).
Proof.
  unfold generate_multimodal_embedding. preserves_open;
    first [apply download_media_same | apply log_event_same].
Qed.

Lemma transcribe_audio_same (w : world) (p : path) (language : string) :
  preserves same_store_and_disk (transcribe_audio w p language).
Proof. unfold transcribe_audio. preserves_open. apply log_event_same. Qed.

Lemma transcribe_chunks_loop_same (w : world) (chunk_paths : list path)
    (language : string) (acc : list pystr) :
  preserves same_store_and_disk (transcribe_chunks_loop w chunk_paths language acc).
Proof.
  revert acc. induction chunk_paths as [| p rest IH]; intros acc;
    cbn [transcribe_chunks_loop]; preserves_open.
  - apply transcribe_audio_same.
  - apply IH.
Qed.

Lemma transcribe_long_audio_same (w : world) (chunk_paths : list path)
    (language : string) :
  preserves same_store_and_disk (transcribe_long_audio w chunk_paths language).
Proof.
  unfold transcribe_long_audio. preserves_open. apply transcribe_chunks_loop_same.
Qed.

Lemma same_store_and_disk_posts (s s' : state) :
  same_store_and_disk s s' -> same_posts s s'.
Proof. intros (_ & H & _). exact H. Qed.

(** *** Steps that leave the posts alone *)

Lemma mkstemp_same_posts (suffix prefix : string) :
  preserves same_posts (mkstemp suffix prefix).
Proof. intros s r s' [= <- <-]. reflexivity. Qed.

Lemma remove_if_exists_same_posts (p : path) : preserves same_posts (remove_if_exists p).
Proof.
  intros s r s'. unfold remove_if_exists.
  destruct (path_exists p s); intros [= <- <-]; reflexivity.
Qed.

Lemma log_event_same_posts (ev : event) : preserves same_posts (log_event ev).
Proof.
  eapply preserves_weaken; [apply same_store_and_disk_posts | apply log_event_same].
Qed.

Lemma extract_audio_same_posts (w : world) (video audio : path) :
  preserves same_posts (extract_audio_from_video w video audio).
Proof. unfold extract_audio_from_video. preserves_open. Qed.

Lemma process_video_same_posts (w : world) (url : option string) :
  preserves same_posts (process_video_for_transcription w url).
Proof.
  unfold process_video_for_transcription, download_video. preserves_open;
    first [ apply mkstemp_same_posts | apply remove_if_exists_same_posts
          | apply log_event_same_posts | apply extract_audio_same_posts ].
Qed.

Lemma discard_chunks_same_posts {A} (chunk_paths : list path) (e : exn) :
  preserves same_posts (discard_chunks (A := A) chunk_paths e).
Proof.
  unfold discard_chunks. preserves_open.
  induction chunk_paths as [| p rest IH]; cbn [foldr]; preserves_open.
  - apply remove_if_exists_same_posts.
  - apply IH.
Qed.

Lemma chunk_loop_same_posts (w : world) (audio : path) (c : Z) (indices : list Z)
    (acc : list path) :
  preserves same_posts (chunk_loop w audio c indices acc).
Proof.
  revert acc. induction indices as [| i rest IH]; intros acc;
    cbn [chunk_loop]; preserves_open;
    first [ apply mkstemp_same_posts | apply log_event_same_posts
          | apply discard_chunks_same_posts | apply IH ].
Qed.

Lemma split_audio_same_posts (w : world) (audio : path) (c : Z) :
  preserves same_posts (split_audio_into_chunks w audio c).
Proof.
  unfold split_audio_into_chunks. preserves_open;
    first [ apply discard_chunks_same_posts | apply chunk_loop_same_posts ].
Qed.

Lemma cleanup_temp_files_same_posts (file_paths : list (option path)) :
  preserves same_posts (cleanup_temp_files file_paths).
Proof.
  induction file_paths as [| [p |] rest IH]; cbn [cleanup_temp_files];
    preserves_open; first [apply remove_if_exists_same_posts | apply IH].
Qed.

Lemma mark_job_completed_same_posts (w : world) (job_id : Z) :
  preserves same_posts (mark_job_completed w job_id).
Proof.
  unfold mark_job_completed. preserves_open.
  apply preserves_modify. intros s. reflexivity.
Qed.

Lemma mark_job_failed_same_posts (cfg : config) (w : world) (job_id : Z)
    (msg : string) (a : Z) :
  preserves same_posts (mark_job_failed cfg w job_id msg a).
Proof.
  unfold mark_job_failed. preserves_open;
    apply preserves_modify; intros s; reflexivity.
Qed.

Lemma fetch_content_same_posts (w : world) (ctype cid client : string) :
  preserves same_posts (fetch_content w ctype cid client).
Proof. unfold fetch_content. preserves_open. Qed.

Lemma get_primary_media_url_same_posts (w : world) (post : post_dict) (client : string) :
  preserves same_posts (get_primary_media_url w post client).
Proof. unfold get_primary_media_url. preserves_open. Qed.

Lemma generate_multimodal_embedding_same_posts (w : world) (text : option pystr)
    (url : option string) :
  preserves same_posts (generate_multimodal_embedding w text url).
Proof.
  eapply preserves_weaken;
    [apply same_store_and_disk_posts | apply generate_multimodal_embedding_same].
Qed.

Lemma transcribe_audio_same_posts (w : world) (p : path) (language : string) :
  preserves same_posts (transcribe_audio w p language).
Proof.
  eapply preserves_weaken; [apply same_store_and_disk_posts | apply transcribe_audio_same].
Qed.

Lemma transcribe_long_audio_same_posts (w : world) (chunk_paths : list path)
    (language : string) :
  preserves same_posts (transcribe_long_audio w chunk_paths language).
Proof.
  eapply preserves_weaken;
    [apply same_store_and_disk_posts | apply transcribe_long_audio_same].
Qed.

Lemma transcribe_local_same_posts (w : world) (p : option path) :
  preserves same_posts (transcribe_local w p).
Proof. unfold transcribe_local. preserves_open. apply transcribe_audio_same_posts. Qed.

Lemma split_local_same_posts (w : world) (p : option path) (c : Z) :
  preserves same_posts (split_local w p c).
Proof. unfold split_local. preserves_open. apply split_audio_same_posts. Qed.

Create HintDb same_posts.
#[local] Hint Resolve mkstemp_same_posts remove_if_exists_same_posts
  process_video_same_posts split_audio_same_posts cleanup_temp_files_same_posts
  mark_job_completed_same_posts mark_job_failed_same_posts fetch_content_same_posts
  get_primary_media_url_same_posts generate_multimodal_embedding_same_posts
  transcribe_audio_same_posts transcribe_long_audio_same_posts
  transcribe_local_same_posts split_local_same_posts : same_posts.

(** *** Stored embeddings *)

Lemma same_posts_sound (s s' : state) : same_posts s s' -> embeddings_sound s s'.
Proof. unfold same_posts, embeddings_sound. intros -> cid p Hp. eauto. Qed.

Lemma update_post_lookup (f : post -> post) (cid client : string)
    (posts : gmap string post) (cid' : string) (p' : post) :
  update_post f cid client posts !! cid' = Some p' ->
  exists p, posts !! cid' = Some p /\ (p' = p \/ p' = f p).
Proof.
  unfold update_post. rewrite lookup_alter. case_decide as Heq.
  - subst cid'. destruct (posts !! cid) as [p |]; [| discriminate].
    simpl. intros [= <-]. exists p. split; [reflexivity |].
    destruct (String.eqb (post_client_id p) client); auto.
  - intros Hp. eauto.
Qed.

Lemma store_transcript_sound (w : world) (cid client : string) (t : option pystr)
    (audio : bool) (language : string) :
  preserves embeddings_sound (store_transcript w cid client t audio language).
Proof.
  unfold store_transcript. preserves_open. apply preserves_modify.
  intros s cid' p' Hp. simpl in Hp.
  apply update_post_lookup in Hp as (p & Hp & [-> | ->]); eauto.
Qed.

(** A vector of 1408 entries may be stored. *)
Lemma store_embedding_sound (w : world) (cid client : string) (v : list float) :
  length v = EMBEDDING_DIMENSION ->
  preserves embeddings_sound (store_embedding w cid client v).
Proof.
  intros Hv. unfold store_embedding. preserves_open. apply preserves_modify.
  intros s cid' p' Hp. simpl in Hp.
  apply update_post_lookup in Hp as (p & Hp & [-> | ->]); [eauto |].
  exists p. split; [exact Hp |]. right. simpl. eauto.
Qed.

Lemma generate_multimodal_embedding_returns (w : world) (text : option pystr)
    (url : option string) :
  returns (fun v => length v = EMBEDDING_DIMENSION)
          (generate_multimodal_embedding w text url).
Proof. intros s v s' Hrun. now apply generate_multimodal_embedding_ok in Hrun. Qed.

(** A step that leaves the posts alone, run inside [process_job]. *)
Ltac posts_untouched :=
  apply preserves_run; eapply preserves_weaken; [apply same_posts_sound |];
  auto with same_posts.

Lemma store_and_complete_sound (w : world) (job : job_ref) (v : list float) :
  length v = EMBEDDING_DIMENSION ->
  preserves (on_state embeddings_sound) (store_and_complete w job v).
Proof.
  intros Hv. unfold store_and_complete. preserves_open.
  - apply preserves_run. now apply store_embedding_sound.
  - posts_untouched.
Qed.

(** Opens [process_job] like [preserves_open], and carries the dimension of
    the vector from [generate_multimodal_embedding] to [store_embedding]. *)
Ltac embedding_step :=
  cbv zeta;
  lazymatch goal with
  | |- preserves _ (bind (run (generate_multimodal_embedding _ _ _)) _) =>
      apply (preserves_bind_returns _ (fun v => length v = EMBEDDING_DIMENSION));
      [ apply returns_run, generate_multimodal_embedding_returns
      | posts_untouched
      | intros ? ?; now apply store_and_complete_sound ]
  | |- preserves _ (run (store_transcript _ _ _ _ _ _)) =>
      apply preserves_run, store_transcript_sound
  | |- preserves _ (run _) => posts_untouched
  | |- _ => preserves_step
  end.

Lemma process_job_try_sound (w : world) (job : job_ref) :
  preserves (on_state embeddings_sound) (process_job_try w job).
Proof. unfold process_job_try, process_video_post. repeat embedding_step. Qed.

Lemma process_job_finally_sound :
  preserves (on_state embeddings_sound) process_job_finally.
Proof. unfold process_job_finally. repeat embedding_step. Qed.

Lemma process_job_sound (cfg : config) (w : world) (job : job_ref) :
  preserves embeddings_sound (process_job cfg w job).
Proof.
  intros s r s'. unfold process_job.
  destruct (try_finally _ _ _) as [r1 [s1 f1]] eqn:Hbody. intros [= <- <-].
  assert (preserves (on_state embeddings_sound)
            (try_finally
               (try_except (process_job_try w job)
                  (fun e => run (mark_job_failed cfg w (ref_id job) (exn_msg e)
                                                 (ref_attempts job))))
               process_job_finally)) as Hpres.
  { repeat embedding_step.
    - apply process_job_try_sound.
    - apply process_job_finally_sound. }
  exact (Hpres _ _ _ Hbody).
Qed.

Lemma validate_embedding_cases (resp : option (list float)) :
  match resp, validate_embedding resp with
  | Some v, Ok v' => v' = v /\ length v = EMBEDDING_DIMENSION
  | Some v, Raise _ => length v <> EMBEDDING_DIMENSION
  | None, Ok _ => False
  | None, Raise _ => True
  end.
Proof.
  destruct resp as [v |]; [| exact I].
  destruct (validate_embedding (Some v)) as [v' | e] eqn:Hval.
  - apply validate_embedding_ok in Hval as [[= ->] Hlen]. auto.
  - unfold validate_embedding in Hval. intros Hlen.
    destruct v as [| x v]; [discriminate |]. cbn [opt_falsy orb] in Hval.
    apply Nat.eqb_eq in Hlen. rewrite Hlen in Hval. discriminate.
Qed.

(** C1.  A call of [generate_multimodal_embedding] raises or returns a vector
    of exactly 1408 entries, which is the answer of the embedding service to
    the one call on the trace.  The dimension check accepts a response exactly
    when it is a vector of 1408 entries: an empty, a missing and a shorter or
    longer vector all raise.  Whatever [process_job] does, every embedding in
    the store afterwards is the one that was there before or has 1408
    entries. *)
Theorem generate_multimodal_embedding_dimension (cfg : config) (w : world)
    (text : option pystr) (url : option string) (job : job_ref) (s : state) :
  match generate_multimodal_embedding w text url s with
  | (Ok v, s') =>
    length v = EMBEDDING_DIMENSION
    /\ exists img txt,
         s' = add_event (EvEmbed img txt) (add_event (EvMediaGet url) s)
         /\ w_get_embeddings w img txt = Ok (Some v)
  | (Raise _, _) => True
  end
  /\ (forall resp : option (list float),
        match resp, validate_embedding resp with
        | Some v, Ok v' => v' = v /\ length v = EMBEDDING_DIMENSION
        | Some v, Raise _ => length v <> EMBEDDING_DIMENSION
        | None, Ok _ => False
        | None, Raise _ => True
        end)
  /\ embeddings_sound s (process_job cfg w job s).2.
Proof.
  split; [| split].
  - destruct (generate_multimodal_embedding w text url s) as [[v | e] s'] eqn:Hrun;
      [| exact I].
    now apply generate_multimodal_embedding_ok in Hrun.
  - apply validate_embedding_cases.
  - destruct (process_job cfg w job s) as [r s'] eqn:Hrun.
    exact (process_job_sound cfg w job s r s' Hrun).
Qed.

(** Three wrong answers of the service, and what the caller sees. *)
Example validate_embedding_512 :
  validate_embedding (Some (repeat 0%Q 512)) =
    Raise (mk_exn Exception "Invalid embedding received: expected 1408 dimensions, got 512").
Proof. reflexivity. Qed.

Example validate_embedding_empty :
  validate_embedding (Some []) =
    Raise (mk_exn Exception "Invalid embedding received: expected 1408 dimensions, got 0").
Proof. reflexivity. Qed.

Example validate_embedding_missing :
  validate_embedding None =
    Raise (mk_exn TypeError "object of type 'NoneType' has no len()").
Proof. reflexivity. Qed.

Lemma split_audio_into_chunks_count_witness :
  exists chunks s',
    split_audio_into_chunks (studio_world 130 None) (chunk_file 0) 60 empty_state
      = (Ok chunks, s')
    /\ length chunks = 3%nat.
Proof.
  destruct (split_audio_into_chunks_count (studio_world 130 None) (chunk_file 0)
              130 60 empty_state) as (chunks & s' & Hrun & Hlen & _).
  - reflexivity.
  - lia.
  - reflexivity.
  - reflexivity.
  - exists chunks, s'. split; [exact Hrun |].
    change (Qceiling (130 / inject_Z 60)) with 3 in Hlen. lia.
Defined.

(** ** main.py: the media of a carousel *)

Lemma first_child_member (children : list child) (post_id client : string) (c : child) :
  first_child children post_id client = Some c ->
  c ∈ children /\ child_post_id c = post_id /\ child_client_id c = client
  /\ forall x, x ∈ children -> child_post_id x = post_id ->
       child_client_id x = client -> child_id c <= child_id x.
Proof.
  unfold first_child.
  set (rows := filter _ children).
  assert (forall x, x ∈ rows <->
            (child_post_id x = post_id /\ child_client_id x = client) /\ x ∈ children)
    as Hrows by (intros x; unfold rows; rewrite list_elem_of_filter; tauto).
  destruct rows as [| r rest]; [discriminate |]. intros [= Hc].
  set (pick := fun best x : child => if child_id x <? child_id best then x else best) in *.
  assert (forall rest r, foldl pick r rest ∈ r :: rest
            /\ forall x, x ∈ r :: rest -> child_id (foldl pick r rest) <= child_id x)
    as Hfold.
  { clear. induction rest as [| y rest IH]; intros r; simpl.
    - split; [apply list_elem_of_here |].
      intros x Hx. apply list_elem_of_singleton in Hx. rewrite Hx. lia.
    - destruct (IH (pick r y)) as [Hin Hmin]. split.
      + apply elem_of_cons in Hin as [Heq | Hin].
        * rewrite Heq. unfold pick. destruct (child_id y <? child_id r).
          -- apply list_elem_of_further, list_elem_of_here.
          -- apply list_elem_of_here.
        * now do 2 apply list_elem_of_further.
      + intros x Hx.
        assert (child_id (pick r y) <= child_id r /\ child_id (pick r y) <= child_id y)
          as [Hr Hy].
        { unfold pick. destruct (Z.ltb_spec (child_id y) (child_id r)); lia. }
        pose proof (Hmin (pick r y) (list_elem_of_here _ _)) as H0.
        apply elem_of_cons in Hx as [Heq | Hx]; [rewrite Heq; lia |].
        apply elem_of_cons in Hx as [Heq | Hx]; [rewrite Heq; lia |].
        apply Hmin. now apply list_elem_of_further. }
  destruct (Hfold rest r) as [Hin Hmin]. rewrite Hc in Hin, Hmin.
  apply Hrows in Hin as [[Hp Hcl] Hin].
  repeat split; try assumption.
  intros x Hx Hxp Hxc. apply Hmin, Hrows. auto.
Qed.

(** What [get_primary_media_url] answers for a carousel when the store
    answers: nothing without children; for the child with the least id, the
    thumbnail when it is a video with a thumbnail, the media URL otherwise. *)
Lemma get_primary_media_url_carousel (w : world) (post : post_dict) (client : string)
    (s : state) :
  pd_media_type post = "CAROUSEL_ALBUM" ->
  store_up w OpGetPrimaryMediaUrl ->
  get_primary_media_url w post client s =
    (Ok match first_child (st_children s) (pd_id post) client with
        | None => None
        | Some c =>
          if String.eqb (child_media_type c) "VIDEO"
          then (if url_falsy (child_thumbnail_url c) then child_media_url c
                else child_thumbnail_url c)
          else child_media_url c
        end, s).
Proof.
  intros Hty (Hconnect & Hcursor & Hdb).
  unfold get_primary_media_url, db_connect, db_cursor, db_statement.
  rewrite Hty, Hconnect, Hcursor, Hdb.
  cbn [String.eqb Ascii.eqb Bool.eqb]. unfold try_except, bind, get, ret.
  destruct (first_child _ _ _) as [c |]; [| reflexivity].
  unfold py_and_or. destruct (String.eqb _ "VIDEO"); [| reflexivity].
  cbn [andb]. destruct (url_falsy _); reflexivity.
Qed.

(** C8 at its failing input.  The first child of the carousel is a video
    whose [thumbnail_url] is NULL: the expression [a and b or c] falls through
    to the media URL of the video, although the top-level VIDEO branch of the
    same function answers with the thumbnail alone. *)
Theorem get_primary_media_url_video_child_without_thumbnail :
  let s := carousel_state [image_child; video_child_without_thumbnail] in
  first_child (st_children s) "post-1" "client" = Some video_child_without_thumbnail
  /\ child_media_type video_child_without_thumbnail = "VIDEO"
  /\ child_thumbnail_url video_child_without_thumbnail = None
  /\ get_primary_media_url offline_world carousel_dict "client" s =
       (Ok (child_media_url video_child_without_thumbnail), s)
  /\ child_media_url video_child_without_thumbnail = Some "https://cdn.example/child.mp4"
  /\ get_primary_media_url offline_world
       (mk_post_dict "post-2" None "VIDEO" (Some "https://cdn.example/clip.mp4") None)
       "client" s = (Ok None, s).
Proof. repeat split; reflexivity. Qed.

(** A carousel without children: the job is completed, and neither the posts
    nor the disk nor the trace change. *)
Lemma process_job_carousel_without_children (cfg : config) (w : world)
    (job : job_ref) (s : state) (p : post) :
  ref_content_type job = "instagram_posts" ->
  st_posts s !! ref_content_id job = Some p ->
  post_client_id p = ref_client_id job ->
  media_type p = "CAROUSEL_ALBUM" ->
  first_child (st_children s) (ref_content_id job) (ref_client_id job) = None ->
  (forall op, store_up w op) ->
  process_job cfg w job s =
    (Ok tt, set_jobs (alter (set_completed (w_now w)) (ref_id job)) s).
Proof.
  intros Hct Hp Hcl Hmt Hnone Hup.
  assert (forall op, w_db_fault w op = None) as Hdb by (intros op; apply Hup).
  unfold process_job, try_finally, try_except, process_job_try.
  unfold bind at 1. unfold run at 1, fetch_content. cbn [fst snd].
  rewrite db_call_eq, (proj1 (Hup _)), (proj1 (proj2 (Hup _))).
  unfold db_statement.
  rewrite Hct, Hdb. cbn [String.eqb Ascii.eqb Bool.eqb negb fst snd].
  unfold bind at 1, get. rewrite Hp, Hcl, String.eqb_refl. unfold ret.
  cbn [pd_media_type]. rewrite Hmt. cbn [String.eqb Ascii.eqb Bool.eqb].
  unfold bind at 1. unfold run at 1. cbn [fst snd].
  rewrite get_primary_media_url_carousel by (auto || (simpl; assumption)).
  cbn [pd_id]. rewrite Hnone. cbn [url_falsy].
  unfold run, mark_job_completed. cbn [fst snd].
  rewrite db_call_eq, (proj1 (Hup _)), (proj1 (proj2 (Hup _))).
  unfold db_statement. rewrite Hdb.
  unfold modify. cbn [fst snd]. unfold process_job_finally, bind, get. simpl.
  reflexivity.
Qed.

(** ** main.py: temporary files *)

(** C7 at its failing input.  A video of 130 seconds is split into chunks of
    50 seconds and ffmpeg fails on the second chunk.  The file that [mkstemp]
    made for that chunk is in no list yet: the handler of
    [split_audio_into_chunks] removes the first chunk only, [chunk_paths] of
    [process_job] is still empty, and the job completes with the file left on
    the disk. *)
Theorem process_job_leaves_failed_chunk :
  let w := studio_world 130 (Some 50) in
  exists s',
    process_job default_config w job_7 video_job_state = (Ok tt, s')
    /\ st_files video_job_state = []
    /\ st_files s' = [mk_path "audio_" 3 "_chunk1.wav"]
    /\ status <$> st_jobs s' !! 7 = Some completed.
Proof.
  simpl. eexists. split; [vm_compute; reflexivity |].
  repeat split; reflexivity.
Qed.

(** The same job with ffmpeg succeeding on every chunk leaves nothing. *)
Example process_job_cleans_all_chunks :
  st_files (process_job default_config (studio_world 130 None) job_7
                        video_job_state).2 = [].
Proof. vm_compute. reflexivity. Qed.

(** *** Rules for pre- and postconditions *)

Section Triples.
Context {S : Type}.







End Triples.

(** A step that keeps the disk, run inside [process_job], keeps every
    condition on disk and frame. *)
Lemma triple_run_same_disk {A} (P E : state * frame -> Prop) (m : M state A) :
  preserves same_disk m -> disk_condition P -> (forall sf, P sf -> E sf) ->
  triple P (run m) (fun _ => P) E.
Proof.
  intros Hm HP HE [s f] Hs. unfold run. cbn [fst snd].
  destruct (m s) as [r s'] eqn:Hrun.
  pose proof (HP s s' f (Hm s r s' Hrun) Hs) as Hs'.
  destruct r; auto.
Qed.

#[global] Instance same_disk_preorder : PreOrder same_disk.
Proof.
  split; unfold same_disk.
  - intros s. auto.
  - intros a b c [? ?] [? ?]. split; congruence.
Qed.

Lemma same_store_and_disk_disk (s s' : state) :
  same_store_and_disk s s' -> same_disk s s'.
Proof. intros (_ & _ & _ & ? & ?). split; assumption. Qed.

(** *** Steps that leave the disk alone *)

Lemma modify_jobs_same_disk (f : gmap Z job -> gmap Z job) :
  preserves same_disk (modify (set_jobs f)).
Proof. apply preserves_modify. intros s. split; reflexivity. Qed.

Lemma modify_posts_same_disk (f : gmap string post -> gmap string post) :
  preserves same_disk (modify (set_posts f)).
Proof. apply preserves_modify. intros s. split; reflexivity. Qed.

Lemma fetch_content_same_disk (w : world) (ctype cid client : string) :
  preserves same_disk (fetch_content w ctype cid client).
Proof. unfold fetch_content. preserves_open. Qed.

Lemma get_primary_media_url_same_disk (w : world) (post : post_dict) (client : string) :
  preserves same_disk (get_primary_media_url w post client).
Proof. unfold get_primary_media_url. preserves_open. Qed.

Lemma store_embedding_same_disk (w : world) (cid client : string) (v : list float) :
  preserves same_disk (store_embedding w cid client v).
Proof. unfold store_embedding. preserves_open. apply modify_posts_same_disk. Qed.

Lemma store_transcript_same_disk (w : world) (cid client : string) (t : option pystr)
    (audio : bool) (language : string) :
  preserves same_disk (store_transcript w cid client t audio language).
Proof. unfold store_transcript. preserves_open. apply modify_posts_same_disk. Qed.

Lemma mark_job_completed_same_disk (w : world) (job_id : Z) :
  preserves same_disk (mark_job_completed w job_id).
Proof. unfold mark_job_completed. preserves_open. apply modify_jobs_same_disk. Qed.

Lemma mark_job_failed_same_disk (cfg : config) (w : world) (job_id : Z)
    (msg : string) (a : Z) :
  preserves same_disk (mark_job_failed cfg w job_id msg a).
Proof. unfold mark_job_failed. preserves_open; apply modify_jobs_same_disk. Qed.

Lemma generate_multimodal_embedding_same_disk (w : world) (text : option pystr)
    (url : option string) :
  preserves same_disk (generate_multimodal_embedding w text url).
Proof.
  eapply preserves_weaken;
    [apply same_store_and_disk_disk | apply generate_multimodal_embedding_same].
Qed.

Lemma transcribe_local_same_disk (w : world) (p : option path) :
  preserves same_disk (transcribe_local w p).
Proof.
  unfold transcribe_local. preserves_open.
  eapply preserves_weaken; [apply same_store_and_disk_disk | apply transcribe_audio_same].
Qed.

Lemma transcribe_long_audio_same_disk (w : world) (chunk_paths : list path)
    (language : string) :
  preserves same_disk (transcribe_long_audio w chunk_paths language).
Proof.
  eapply preserves_weaken;
    [apply same_store_and_disk_disk | apply transcribe_long_audio_same].
Qed.

Create HintDb same_disk.
#[local] Hint Resolve fetch_content_same_disk get_primary_media_url_same_disk
  store_embedding_same_disk store_transcript_same_disk mark_job_completed_same_disk
  mark_job_failed_same_disk generate_multimodal_embedding_same_disk
  transcribe_local_same_disk transcribe_long_audio_same_disk : same_disk.

(** *** What the steps on the disk do *)

Lemma filter_keeps_all {A} (P : A -> Prop) `{forall x, Decision (P x)} (l : list A) :
  Forall P l -> filter P l = l.
Proof.
  induction 1 as [| x l Hx Hl IH]; [reflexivity |].
  rewrite filter_cons_True by assumption. now rewrite IH.
Qed.


Lemma filter_ne_absent (files : list path) (p : path) :
  p ∉ files -> filter (fun q => q <> p) files = files.
Proof.
  intros Hp. apply filter_keeps_all, Forall_forall. intros q Hq ->. contradiction.
Qed.

Lemma remove_if_exists_eq (p : path) (s : state) :
  remove_if_exists p s = (Ok tt, set_files (filter (fun q => q <> p)) s).
Proof.
  unfold remove_if_exists, path_exists. case_bool_decide as Hin; [reflexivity |].
  unfold set_files. rewrite filter_ne_absent by assumption. now destruct s.
Qed.







(** *** The files of a job are tracked *)

#[global] Instance keeping_preorder {S} (P : S -> Prop) : PreOrder (keeping P).
Proof. split; unfold keeping; [intros s | intros a b c]; auto. Qed.








Section Cleanup.
Variable w : world.
Variable base : list path.
Hypothesis ffmpeg_writes_every_chunk :
  forall a ss t out, w_ffmpeg_chunk w a ss t out = Ok tt.







End Cleanup.

(** ** main.py: what the queue does with a job that was claimed or retried *)

(** A job that [get_next_job] has handed out is [processing], so the next
    call in sequence does not hand it out again. *)
Lemma set_processing_not_claimable (cfg : config) (now : Z) (j : job) :
  claimable cfg (set_processing now j) = false.
Proof. reflexivity. Qed.

Lemma get_next_job_not_again (cfg : config) (w : world) (s s' : state) (r : job_ref) :
  get_next_job cfg w s = (Ok (Some r), s') ->
  forall id j, select_claimable cfg (st_jobs s') = Some (id, j) -> id <> ref_id r.
Proof.
  intros Hrun id j Hsel ->.
  pose proof (get_next_job_fifo_rows cfg w s s' r Hrun) as (j0 & _ & Hrow).
  apply select_claimable_Some in Hsel as (Hlook & Hst & _).
  rewrite Hrow in Hlook. injection Hlook as <-. discriminate Hst.
Qed.

(** A job that is sent back for a retry can be claimed whatever the clock
    says: the row is [pending] with fewer attempts than the maximum, and that
    is all that [get_next_job] asks for. *)
Lemma set_retry_claimable (cfg : config) (now : Z) (msg : string) (a b : Z) (j : job) :
  a + 1 < MAX_RETRY_ATTEMPTS cfg ->
  claimable cfg (set_retry now msg (a + 1) b j) = true.
Proof. intros Ha. apply claimable_spec. simpl. auto. Qed.

(* ===================================================================== *)
(** * Part III -- further properties of the code                          *)
(* ===================================================================== *)

(** ** lib/embedder.py: more about [truncate_to_bytes] *)

Lemma lfp_scalar (text : pystr) (n : nat) :
  Forall unicode_scalar text -> Forall unicode_scalar (longest_fitting_prefix text n).
Proof.
  intros Hs. destruct (lfp_prefix text n) as [k Hk].
  rewrite Hk in Hs. now apply Forall_app in Hs.
Qed.

Lemma lfp_monotone (text : pystr) (n m : nat) :
  (n <= m)%nat ->
  longest_fitting_prefix text n `prefix_of` longest_fitting_prefix text m.
Proof.
  intros Hnm. apply lfp_maximal; [apply lfp_prefix |].
  pose proof (lfp_fits text n). lia.
Qed.

(** X1.  Truncating twice is truncating once, and a larger budget keeps a
    longer text: the result for [B] is a prefix of the result for every
    [B' >= B]. *)
Theorem truncate_to_bytes_idempotent (text : pystr) (B : Z) :
  Forall unicode_scalar text -> 0 <= B ->
  exists out,
    truncate_to_bytes text B = Ok out
    /\ truncate_to_bytes out B = Ok out
    /\ forall B', B <= B' ->
         exists out', truncate_to_bytes text B' = Ok out' /\ out `prefix_of` out'.
Proof.
  intros Hs HB. exists (longest_fitting_prefix text (Z.to_nat B)).
  split; [now apply truncate_to_bytes_lfp |]. split.
  - rewrite truncate_to_bytes_lfp by (try apply lfp_scalar; assumption).
    f_equal. apply lfp_identity, lfp_fits.
  - intros B' HB'. exists (longest_fitting_prefix text (Z.to_nat B')).
    split; [apply truncate_to_bytes_lfp; [assumption | lia] |].
    apply lfp_monotone. lia.
Qed.

Lemma truncate_to_bytes_idempotent_witness :
  exists out,
    truncate_to_bytes [104; 0x1F600; 0xE9] 4 = Ok out
    /\ truncate_to_bytes out 4 = Ok out
    /\ forall B', 4 <= B' ->
         exists out', truncate_to_bytes [104; 0x1F600; 0xE9] B' = Ok out'
                      /\ out `prefix_of` out'.
Proof.
  apply (truncate_to_bytes_idempotent [104; 0x1F600; 0xE9] 4).
  - repeat constructor; unfold unicode_scalar; simpl; lia.
  - lia.
Defined.

(** X2.  A negative budget is not refused: the slice [encoded[:B]] then
    counts from the end, and the result is the longest prefix of the text that
    fits into [len(encoded) + B] bytes (the empty string when that is not
    positive). *)
Theorem truncate_to_bytes_negative_budget (text : pystr) (B : Z) :
  Forall unicode_scalar text -> text <> [] -> B < 0 ->
  truncate_to_bytes text B =
    Ok (longest_fitting_prefix text
          (Z.to_nat (Z.of_nat (length (utf8_bytes text)) + B))).
Proof.
  intros Hs Hne HB. unfold truncate_to_bytes.
  destruct text as [| c s]; [congruence |].
  cbn [str_truthy negb]. rewrite str_encode_scalar by assumption.
  destruct (Z.leb_spec (Z.of_nat (length (utf8_bytes (c :: s)))) B); [lia |].
  unfold py_slice_to. destruct (Z.leb_spec 0 B); [lia |].
  now rewrite utf8_decode_take.
Qed.

Lemma truncate_to_bytes_negative_budget_witness :
  truncate_to_bytes [104; 0x1F600; 108] (-1) = Ok [104; 0x1F600].
Proof.
  rewrite (truncate_to_bytes_negative_budget [104; 0x1F600; 108] (-1)).
  - reflexivity.
  - repeat constructor; unfold unicode_scalar; simpl; lia.
  - discriminate.
  - lia.
Defined.

(** X3.  Text that holds a lone surrogate cannot be encoded: whatever the
    budget, [truncate_to_bytes] raises [UnicodeEncodeError] instead of
    returning. *)
Theorem truncate_to_bytes_surrogate (text : pystr) (B : Z) :
  Exists (fun c => is_surrogate c = true) text ->
  exists e, truncate_to_bytes text B = Raise e /\ exn_cls e = UnicodeEncodeError.
Proof.
  intros Hex. unfold truncate_to_bytes.
  destruct text as [| c s]; [inversion Hex |].
  cbn [str_truthy negb]. unfold str_encode.
  replace (forallb _ (c :: s)) with false; [eauto |].
  symmetry. apply not_true_is_false. intros Hall.
  rewrite forallb_forall in Hall. apply Exists_exists in Hex as (x & Hin & Hx).
  apply list_elem_of_In, Hall in Hin. rewrite Hx in Hin. discriminate.
Qed.

Lemma truncate_to_bytes_surrogate_witness :
  exists e, truncate_to_bytes [104; 0xD800] 10 = Raise e
            /\ exn_cls e = UnicodeEncodeError.
Proof.
  apply (truncate_to_bytes_surrogate [104; 0xD800] 10).
  apply Exists_cons_tl, Exists_cons_hd. reflexivity.
Defined.

(** ** lib/embedder.py: more about [download_media] *)

Lemma str_startswith_app (p rest : string) : str_startswith p (p +:+ rest) = true.
Proof.
  induction p as [| a p IH]; [reflexivity |].
  simpl. now rewrite Ascii.eqb_refl.
Qed.

Lemma read_chunks_spec (chunks : list (list Z)) (buf : list Z) :
  match read_chunks chunks buf with
  | Ok b =>
    b = buf ++ concat chunks
    /\ (Z.of_nat (length buf) <= max_download_bytes ->
        Z.of_nat (length b) <= max_download_bytes)
  | Raise e =>
    exn_cls e = Exception
    /\ exists pre chunk rest,
         chunks = pre ++ chunk :: rest
         /\ Z.of_nat (length (buf ++ concat pre)) <= Z.of_nat (length buf) `max` max_download_bytes
         /\ max_download_bytes < Z.of_nat (length (buf ++ concat pre ++ chunk))
  end.
Proof.
  revert buf. induction chunks as [| chunk rest IH]; intros buf.
  - simpl. rewrite app_nil_r. auto.
  - cbn [read_chunks].
    destruct (Z.gtb_spec (Z.of_nat (length (buf ++ chunk))) max_download_bytes)
      as [Hbig | Hsmall].
    + split; [reflexivity |]. exists [], chunk, rest. simpl.
      rewrite app_nil_r. repeat split; lia.
    + specialize (IH (buf ++ chunk)).
      destruct (read_chunks rest (buf ++ chunk)) as [b | e].
      * destruct IH as [-> Hlen]. cbn [concat].
        split; [symmetry; apply app_assoc |]. intros _. apply Hlen. exact Hsmall.
      * destruct IH as [Hcls (pre & ch & rest' & -> & Hpre & Hover)].
        split; [exact Hcls |]. exists (chunk :: pre), ch, rest'.
        split; [reflexivity |]. cbn [concat].
        rewrite !length_app in *. lia.
Qed.


Lemma read_chunks_aborts_midstream_aux (chunks : list (list Z)) :
  match read_chunks chunks [] with
  | Ok b => b = concat chunks /\ Z.of_nat (length b) <= max_download_bytes
  | Raise e => True
  end.
Proof.
  pose proof (read_chunks_spec chunks []) as H.
  destruct (read_chunks chunks []) as [b | e]; [| exact I].
  destruct H as [-> Hlen]. split; [reflexivity |]. apply Hlen.
  unfold max_download_bytes, MAX_DOWNLOAD_SIZE_MB. simpl. lia.
Qed.


(** X5.  What [download_media] hands back has at most 10 MB, is the body of
    the response and has a MIME type that begins with [image/] or [video/];
    every failure, of the request, of the size checks or of the type check,
    comes out as an [Exception] whose message begins with "Failed to download
    or validate media: ".  Either way exactly one request was made. *)
Theorem download_media_contract (w : world) (url : option string) (s : state) :
  match download_media w url s with
  | (Ok media, s') =>
    s' = add_event (EvMediaGet url) s
    /\ Z.of_nat (length (buffer media)) <= max_download_bytes
    /\ (str_startswith "image/" (mime_type media)
        || str_startswith "video/" (mime_type media)) = true
    /\ mime_type media = w_magic w (buffer media)
    /\ exists resp,
         w_media_get w url = Ok resp
         /\ resp_status_error resp = None
         /\ resp_content_length resp <= max_download_bytes
         /\ buffer media = concat (resp_chunks resp)
  | (Raise e, s') =>
    s' = add_event (EvMediaGet url) s
    /\ exn_cls e = Exception
    /\ str_startswith "Failed to download or validate media: " (exn_msg e) = true
  end.
Proof.
  unfold download_media, try_except, bind, log_event, modify, lift_result, raise, ret.
  pose proof (str_startswith_app "Failed to download or validate media: ") as Hpre.
  destruct (w_media_get w url) as [resp | e] eqn:Hget; [| auto].
  destruct (resp_status_error resp) eqn:Hstatus; [auto |].
  destruct (Z.gtb_spec (resp_content_length resp) max_download_bytes); [auto |].
  pose proof (read_chunks_aborts_midstream_aux (resp_chunks resp)) as Hread.
  destruct (read_chunks (resp_chunks resp) []) as [buf | e]; [| auto].
  destruct Hread as [-> Hlen].
  destruct (str_startswith "image/" _ || str_startswith "video/" _) eqn:Hmime;
    cbn [negb]; [| auto].
  cbn [buffer mime_type]. repeat split; try assumption. eauto 6.
Qed.

(** ** lib/embedder.py: what reaches the embedding service *)

Lemma lfp_nil (text : pystr) (n : nat) :
  (4 <= n)%nat -> longest_fitting_prefix text n = [] -> text = [].
Proof.
  intros Hn. destruct text as [| c s]; [reflexivity |]. simpl.
  pose proof (utf8_encode_cp_length c) as Hlen.
  destruct (Nat.leb_spec (length (utf8_encode_cp c)) n); [discriminate | lia].
Qed.

(** X6.  Whatever the length of the caption, the text that
    [generate_multimodal_embedding] sends to the embedding service is a
    non-empty prefix of it of at most 1024 bytes of UTF-8, and no text at all
    ([None]) when the caption is empty.  The service is called at most once,
    after the download. *)
Theorem generate_multimodal_embedding_text_budget (w : world) (t : pystr)
    (url : option string) (s : state) :
  Forall unicode_scalar t ->
  exists r s',
    generate_multimodal_embedding w (Some t) url s = (r, s')
    /\ (s' = s
        \/ s' = add_event (EvMediaGet url) s
        \/ exists img sent,
             s' = add_event (EvEmbed img sent) (add_event (EvMediaGet url) s)
             /\ match sent with
                | None => t = []
                | Some x =>
                  x <> [] /\ x `prefix_of` t
                  /\ Z.of_nat (length (utf8_bytes x)) <= MAX_TEXT_BYTES
                end).
Proof.
  intros Hs. unfold generate_multimodal_embedding.
  destruct (opt_falsy (Some t) && url_falsy url); [unfold raise; eauto |].
  unfold bind at 1. destruct (download_media_trace w url s) as [r ->].
  destruct r as [media | e]; [| eauto 6].
  unfold bind, lift_result, try_except, raise, log_event, modify.
  rewrite truncate_to_bytes_lfp by (assumption || (unfold MAX_TEXT_BYTES; lia)).
  set (x := longest_fitting_prefix t (Z.to_nat MAX_TEXT_BYTES)).
  destruct (if opt_falsy (Some t) then _ else _) as [ob | e]; [| eauto 6].
  destruct (match str_encode x with Ok b => _ | Raise e => _ end) as [tb | e];
    [| eauto 6].
  assert (match (if str_truthy x then Some x else None) with
          | None => t = []
          | Some x =>
            x <> [] /\ x `prefix_of` t
            /\ Z.of_nat (length (utf8_bytes x)) <= MAX_TEXT_BYTES
          end) as Hsent.
  { destruct x as [| c x'] eqn:Hx; cbn [str_truthy].
    - apply (lfp_nil t (Z.to_nat MAX_TEXT_BYTES)); [| exact Hx].
      unfold MAX_TEXT_BYTES. lia.
    - split; [discriminate |]. rewrite <- Hx. unfold x. split; [apply lfp_prefix |].
      pose proof (lfp_fits t (Z.to_nat MAX_TEXT_BYTES)).
      unfold MAX_TEXT_BYTES in *. lia. }
  set (sent := if str_truthy x then Some x else None) in *.
  assert (forall r : result (list float),
            exists r0 s',
              (r, add_event (EvEmbed (buffer media) sent)
                    (add_event (EvMediaGet url) s)) = (r0, s')
              /\ (s' = s \/ s' = add_event (EvMediaGet url) s
                  \/ exists img sent0,
                       s' = add_event (EvEmbed img sent0) (add_event (EvMediaGet url) s)
                       /\ match sent0 with
                          | None => t = []
                          | Some x0 =>
                            x0 <> [] /\ x0 `prefix_of` t
                            /\ Z.of_nat (length (utf8_bytes x0)) <= MAX_TEXT_BYTES
                          end)) as Hdone.
  { intros r. do 2 eexists. split; [reflexivity |]. right. right.
    exists (buffer media), sent. split; [reflexivity | exact Hsent]. }
  destruct (w_get_embeddings w (buffer media) sent) as [resp | e].
  - destruct (validate_embedding resp) as [vec | e]; [apply Hdone |].
    destruct (str_in "400" (exn_msg e)); apply Hdone.
  - destruct (str_in "400" (exn_msg e)); apply Hdone.
Qed.

Lemma generate_multimodal_embedding_text_budget_witness :
  exists r s',
    generate_multimodal_embedding (studio_world 30 None) (Some (u "a clip"))
      (Some "https://cdn.example/clip.jpg") empty_state = (r, s')
    /\ (s' = empty_state
        \/ s' = add_event (EvMediaGet (Some "https://cdn.example/clip.jpg")) empty_state
        \/ exists img sent,
             s' = add_event (EvEmbed img sent)
                    (add_event (EvMediaGet (Some "https://cdn.example/clip.jpg"))
                               empty_state)
             /\ match sent with
                | None => u "a clip" = []
                | Some x =>
                  x <> [] /\ x `prefix_of` u "a clip"
                  /\ Z.of_nat (length (utf8_bytes x)) <= MAX_TEXT_BYTES
                end).
Proof.
  apply (generate_multimodal_embedding_text_budget (studio_world 30 None)
           (u "a clip") (Some "https://cdn.example/clip.jpg") empty_state).
  repeat constructor; unfold unicode_scalar; simpl; lia.
Defined.

(** ** lib/embedder.py: [generate_text_embedding] *)

Lemma validate_text_embedding_ok (resp : option (list float)) (v : list float) :
  validate_text_embedding resp = Ok v ->
  resp = Some v /\ length v = EMBEDDING_DIMENSION.
Proof.
  unfold validate_text_embedding. destruct resp as [vec |]; [| discriminate].
  destruct (opt_falsy (Some vec)); [discriminate |]. cbn [orb].
  destruct (Nat.eqb_spec (length vec) EMBEDDING_DIMENSION); [| discriminate].
  intros [= <-]. auto.
Qed.

(** X7.  [generate_text_embedding] refuses an empty or missing query without
    asking the service.  A vector that it returns has 1408 entries and is the
    answer of the service to the query truncated to 1024 bytes; every failure
    after the first check, the encoding of the query included, comes out as an
    [Exception] whose message begins with "Failed to generate text
    embedding: ". *)
Theorem generate_text_embedding_contract
    (service : pystr -> result (option (list float))) (text : option pystr) :
  match generate_text_embedding service text with
  | Ok v =>
    length v = EMBEDDING_DIMENSION
    /\ exists t truncated,
         text = Some t /\ t <> []
         /\ truncate_to_bytes t MAX_TEXT_BYTES = Ok truncated
         /\ service truncated = Ok (Some v)
  | Raise e =>
    exn_cls e = Exception
    /\ if opt_falsy text
       then e = mk_exn Exception "Text must be provided to generate an embedding."
            /\ forall service', generate_text_embedding service' text = Raise e
       else str_startswith "Failed to generate text embedding: " (exn_msg e) = true
  end.
Proof.
  unfold generate_text_embedding.
  destruct (opt_falsy text) eqn:Hfalsy; [repeat split; reflexivity |].
  destruct text as [[| c t] |]; try discriminate Hfalsy.
  change (default [] (Some (c :: t))) with (c :: t).
  unfold result_bind.
  destruct (truncate_to_bytes (c :: t) MAX_TEXT_BYTES) as [truncated | e] eqn:Htr;
    cbv beta iota.
  2:{ split; [reflexivity | apply str_startswith_app]. }
  destruct (service truncated) as [resp | e] eqn:Hcall; cbv beta iota.
  2:{ split; [reflexivity | apply str_startswith_app]. }
  destruct (validate_text_embedding resp) as [v | e] eqn:Hval; cbv beta iota.
  2:{ split; [reflexivity | apply str_startswith_app]. }
  apply validate_text_embedding_ok in Hval as [-> Hlen].
  split; [exact Hlen |]. exists (c :: t), truncated. repeat split; auto.
Qed.

(** ** lib/transcriber.py: what the service is asked *)

Lemma transcribe_audio_run (w : world) (p : path) (language : string) (s : state) :
  transcribe_audio w p language s =
    (chunk_outcome w language p,
     if is_ok (w_read_audio w p) then add_event (EvRecognize p) s else s).
Proof.
  unfold transcribe_audio, chunk_outcome, bind, try_except, lift_result,
    log_event, modify, ret, raise.
  destruct (w_read_audio w p) as [content | e]; [| reflexivity]. cbn [is_ok].
  destruct (w_recognize w content language); reflexivity.
Qed.

Lemma add_events_app (evs1 evs2 : list event) (s : state) :
  foldl (fun st ev => add_event ev st) s (evs1 ++ evs2) =
  foldl (fun st ev => add_event ev st) (foldl (fun st ev => add_event ev st) s evs1) evs2.
Proof. apply foldl_app. Qed.

Lemma add_events_trace (evs : list event) (s : state) :
  st_trace (foldl (fun st ev => add_event ev st) s evs) = st_trace s ++ evs
  /\ same_store_and_disk s (foldl (fun st ev => add_event ev st) s evs).
Proof.
  revert s. induction evs as [| ev evs IH]; intros s; simpl.
  - rewrite app_nil_r. split; [reflexivity | unfold same_store_and_disk; auto].
  - destruct (IH (add_event ev s)) as [Htrace Hsame]. split.
    + rewrite Htrace. simpl. now rewrite <- app_assoc.
    + destruct Hsame as (? & ? & ? & ? & ?). unfold same_store_and_disk. simpl in *.
      auto.
Qed.

Lemma transcribe_chunks_loop_run (w : world) (language : string)
    (chunk_paths : list path) (acc : list pystr) (s : state) :
  transcribe_chunks_loop w chunk_paths language acc s =
    (Ok (acc ++ succeeded_transcripts w language chunk_paths),
     foldl (fun st ev => add_event ev st) s
           (map EvRecognize (readable_chunks w chunk_paths))).
Proof.
  revert acc s. induction chunk_paths as [| p rest IH]; intros acc s.
  - simpl. unfold ret. now rewrite app_nil_r.
  - cbn [transcribe_chunks_loop]. unfold bind at 1. unfold try_except, bind at 1.
    rewrite transcribe_audio_run.
    unfold succeeded_transcripts, readable_chunks. cbn [omap list_omap].
    rewrite filter_cons.
    fold (succeeded_transcripts w language rest). fold (readable_chunks w rest).
    assert (is_ok (chunk_outcome w language p) = true ->
            is_ok (w_read_audio w p) = true) as Hread.
    { unfold chunk_outcome. destruct (w_read_audio w p); [reflexivity | discriminate]. }
    destruct (chunk_outcome w language p) as [t | e]; unfold ret.
    + rewrite Hread by reflexivity. rewrite IH.
      case_decide; [| congruence]. simpl. now rewrite <- app_assoc.
    + rewrite IH. destruct (is_ok (w_read_audio w p)); case_decide;
        try congruence; reflexivity.
Qed.

(** X8.  [transcribe_long_audio] always returns, and what it returns is
    trimmed.  It asks the speech service once for every chunk whose audio file
    can be read, in the order of the chunks, and not at all for a chunk that
    cannot be read; apart from these calls it changes nothing, neither in the
    store nor on the disk.  When no chunk succeeds the transcript is empty. *)
Theorem transcribe_long_audio_calls (w : world) (language : string)
    (chunk_paths : list path) (s : state) :
  exists t s',
    transcribe_long_audio w chunk_paths language s = (Ok t, s')
    /\ str_strip t = t
    /\ st_trace s' = st_trace s ++ map EvRecognize (readable_chunks w chunk_paths)
    /\ same_store_and_disk s s'
    /\ (succeeded_transcripts w language chunk_paths = [] -> t = []).
Proof.
  unfold transcribe_long_audio, bind. rewrite transcribe_chunks_loop_run.
  unfold ret. cbn [app].
  destruct (add_events_trace (map EvRecognize (readable_chunks w chunk_paths)) s)
    as [Htrace Hsame].
  do 2 eexists. split; [reflexivity |].
  split; [apply str_strip_idempotent |].
  split; [exact Htrace |]. split; [exact Hsame |].
  intros ->. reflexivity.
Qed.

(** X9.  [transcribe_audio] wraps what the speech service raises into an
    [Exception] whose message begins with "Speech-to-Text error: ", but an
    audio file that cannot be read fails with the exception of the read itself,
    before the service is asked.  A transcript that it returns is trimmed. *)
Theorem transcribe_audio_failures (w : world) (p : path) (language : string)
    (s : state) :
  match transcribe_audio w p language s, w_read_audio w p with
  | (Ok t, s'), Ok _ => str_strip t = t /\ s' = add_event (EvRecognize p) s
  | (Raise e, s'), Ok _ =>
    s' = add_event (EvRecognize p) s
    /\ exn_cls e = Exception
    /\ str_startswith "Speech-to-Text error: " (exn_msg e) = true
  | (Raise e, s'), Raise e0 => e = e0 /\ s' = s
  | (Ok _, _), Raise _ => False
  end.
Proof.
  rewrite transcribe_audio_run. unfold chunk_outcome.
  destruct (w_read_audio w p) as [content | e0]; cbn [is_ok]; [| auto].
  destruct (w_recognize w content language) as [results | e].
  - split; [apply str_strip_idempotent | reflexivity].
  - repeat split.
Qed.

(** ** main.py: more about the job queue *)

(** [get_next_job] in one equation: the three places where the store can
    fail, in the order of the source, then the selection. *)
Lemma get_next_job_eq (cfg : config) (w : world) (s : state) :
  get_next_job cfg w s =
    match w_db_connect w OpGetNextJob with
    | Some msg => (Raise (mk_exn DatabaseError msg), s)
    | None =>
      match w_db_cursor w OpGetNextJob with
      | Some msg => (Raise (mk_exn DatabaseError msg), s)
      | None =>
        match w_db_fault w OpGetNextJob with
        | Some msg => (Raise (mk_exn DatabaseError msg), s)
        | None =>
          match select_claimable cfg (st_jobs s) with
          | None => (Ok None, s)
          | Some (id, j) =>
            (Ok (Some (mk_job_ref id (client_id j) (content_id j) (content_type j)
                                  (attempts j))),
             set_jobs (insert id (set_processing (w_now w) j)) s)
          end
        end
      end
    end.
Proof.
  unfold get_next_job. rewrite db_call_eq.
  destruct (w_db_connect w OpGetNextJob); [reflexivity |].
  destruct (w_db_cursor w OpGetNextJob); [reflexivity |].
  unfold db_statement.
  destruct (w_db_fault w OpGetNextJob); [reflexivity |].
  unfold bind, get. cbv beta iota.
  destruct (select_claimable cfg (st_jobs s)) as [[id j] |]; reflexivity.
Qed.

Lemma get_next_job_selected (cfg : config) (w : world) (s s' : state) (r : job_ref) :
  get_next_job cfg w s = (Ok (Some r), s') ->
  exists j,
    select_claimable cfg (st_jobs s) = Some (ref_id r, j)
    /\ s' = set_jobs (insert (ref_id r) (set_processing (w_now w) j)) s.
Proof.
  rewrite get_next_job_eq.
  destruct (w_db_connect w OpGetNextJob); [discriminate |].
  destruct (w_db_cursor w OpGetNextJob); [discriminate |].
  destruct (w_db_fault w OpGetNextJob); [discriminate |].
  destruct (select_claimable cfg (st_jobs s)) as [[id j] |] eqn:Hsel; [| discriminate].
  intros [= <- <-]. exists j. split; reflexivity.
Qed.



Lemma py_index_elem {A} (l : list A) (i : Z) :
  match py_index l i with
  | Ok x => x ∈ l
  | Raise e => exn_cls e = IndexError
  end.
Proof.
  unfold py_index. destruct (_ && _); [| reflexivity].
  destruct (l !! _) as [x |] eqn:Hx; [| reflexivity].
  eapply list_elem_of_lookup_2, Hx.
Qed.

(** X11.  What [mark_job_failed] writes when it returns: in the one row with
    the given id (no row at all for an unknown id) the attempts become
    [a + 1], the message is recorded and [updated_at] is now; from
    [a + 1 >= MAX_RETRY_ATTEMPTS] on the row is [failed] and keeps its
    [created_at], before that it is [pending] again with [created_at] set to
    now plus an entry of the backoff schedule; and the store has answered at
    every step.  When it raises nothing is written, and the exception is
    that of the connection when the connection fails, else that of the
    cursor when the cursor fails, and only then that of the statement or of
    a schedule that has no entry to offer. *)
Theorem mark_job_failed_bookkeeping (cfg : config) (w : world) (job_id : Z)
    (msg : string) (a : Z) (s : state) :
  match mark_job_failed cfg w job_id msg a s with
  | (Ok _, s') =>
    store_up w OpMarkFailed
    /\ exists f,
      s' = set_jobs (alter f job_id) s
      /\ forall j,
           attempts (f j) = a + 1 /\ error_message (f j) = Some msg
           /\ updated_at (f j) = w_now w
           /\ if a + 1 >=? MAX_RETRY_ATTEMPTS cfg
              then status (f j) = failed /\ created_at (f j) = created_at j
              else status (f j) = pending
                   /\ exists b, b ∈ RETRY_BACKOFF_MINUTES cfg
                        /\ created_at (f j) = w_now w + 60 * b
  | (Raise e, s') =>
    s' = s
    /\ match w_db_connect w OpMarkFailed, w_db_cursor w OpMarkFailed with
       | Some fault, _ => e = mk_exn DatabaseError fault
       | None, Some fault => e = mk_exn DatabaseError fault
       | None, None =>
         w_db_fault w OpMarkFailed = Some (exn_msg e) \/ exn_cls e = IndexError
       end
  end.
Proof.
  unfold mark_job_failed. rewrite db_call_eq.
  destruct (w_db_connect w OpMarkFailed) as [fault |] eqn:Hconnect; [auto |].
  destruct (w_db_cursor w OpMarkFailed) as [fault |] eqn:Hcursor; [auto |].
  cbv zeta. unfold db_statement.
  destruct (a + 1 >=? MAX_RETRY_ATTEMPTS cfg) eqn:Hlast.
  - destruct (w_db_fault w OpMarkFailed) as [fault |] eqn:Hfault;
      [unfold raise; auto |].
    unfold modify. split; [repeat split; assumption |].
    eexists. split; [reflexivity |]. intros j.
    simpl. repeat split.
  - unfold bind, lift_result.
    match goal with
    | |- context [if ?c then py_index ?l ?i else py_index ?l ?k] =>
        pose proof (py_index_elem l i) as Hi; pose proof (py_index_elem l k) as Hk;
        destruct (if c then py_index l i else py_index l k) as [b | e] eqn:Hidx
    end.
    + assert (b ∈ RETRY_BACKOFF_MINUTES cfg) as Hb.
      { destruct (_ <? _); rewrite Hidx in *; assumption. }
      destruct (w_db_fault w OpMarkFailed) as [fault |] eqn:Hfault;
        [unfold raise; auto |].
      unfold modify. split; [repeat split; assumption |].
      eexists. split; [reflexivity |]. intros j.
      simpl. repeat split. exists b. split; [exact Hb | reflexivity].
    + split; [reflexivity |]. right.
      destruct (_ <? _); rewrite Hidx in *; assumption.
Qed.

(** X12.  With an empty backoff schedule a failure that is not the last one
    cannot be recorded, and the job stays as it was.  [mark_job_failed] takes
    the connection and the cursor first, so a store that fails there is what
    is raised; with both in hand it raises [IndexError] from the schedule,
    before the statement is sent and whether or not the statement would have
    failed. *)
Theorem mark_job_failed_empty_schedule (cfg : config) (w : world) (job_id : Z)
    (msg : string) (a : Z) (s : state) :
  RETRY_BACKOFF_MINUTES cfg = [] -> a + 1 < MAX_RETRY_ATTEMPTS cfg ->
  mark_job_failed cfg w job_id msg a s =
    (Raise match w_db_connect w OpMarkFailed, w_db_cursor w OpMarkFailed with
           | Some fault, _ => mk_exn DatabaseError fault
           | None, Some fault => mk_exn DatabaseError fault
           | None, None => mk_exn IndexError "list index out of range"
           end, s).
Proof.
  intros Hempty Hretry. unfold mark_job_failed. rewrite db_call_eq.
  destruct (w_db_connect w OpMarkFailed); [reflexivity |].
  destruct (w_db_cursor w OpMarkFailed); [reflexivity |].
  cbv zeta. rewrite Hempty.
  destruct (Z.geb_spec (a + 1) (MAX_RETRY_ATTEMPTS cfg)); [lia |].
  unfold bind, lift_result. cbn [length]. unfold py_index. cbn [length].
  destruct (a + 1 - 1 <? Z.of_nat 0).
  - destruct (a + 1 - 1 <? 0); destruct (_ && _) eqn:Hrange;
      try reflexivity; apply andb_true_iff in Hrange as [H1 H2];
      apply Z.leb_le in H1; apply Z.ltb_lt in H2; simpl in *; lia.
  - reflexivity.
Qed.

Lemma mark_job_failed_empty_schedule_witness :
  mark_job_failed no_backoff_config offline_world 7 "timeout" 0 one_job_state =
    (Raise (mk_exn IndexError "list index out of range"), one_job_state)
  /\ mark_job_failed no_backoff_config (without_connection offline_world) 7 "timeout" 0
       one_job_state =
     (Raise (mk_exn DatabaseError "connection pool exhausted"), one_job_state).
Proof.
  split.
  - apply (mark_job_failed_empty_schedule no_backoff_config offline_world 7 "timeout" 0
             one_job_state); [reflexivity | simpl; lia].
  - apply (mark_job_failed_empty_schedule no_backoff_config
             (without_connection offline_world) 7 "timeout" 0 one_job_state);
      [reflexivity | simpl; lia].
Defined.

(** X13.  A job whose failure was the last one allowed is out of the queue:
    the next [get_next_job] neither returns it nor changes its row. *)
Theorem failed_job_not_claimed (cfg : config) (w w' : world) (job_id : Z)
    (msg : string) (a : Z) (s s1 : state) :
  mark_job_failed cfg w job_id msg a s = (Ok tt, s1) ->
  MAX_RETRY_ATTEMPTS cfg <= a + 1 ->
  match get_next_job cfg w' s1 with
  | (Ok (Some r), s2) => ref_id r <> job_id /\ st_jobs s2 !! job_id = st_jobs s1 !! job_id
  | (_, s2) => s2 = s1
  end.
Proof.
  intros Hfail Hlast.
  assert (forall j, st_jobs s1 !! job_id = Some j -> status j = failed) as Hrow.
  { unfold mark_job_failed in Hfail. rewrite db_call_eq in Hfail.
    destruct (w_db_connect w OpMarkFailed); [discriminate |].
    destruct (w_db_cursor w OpMarkFailed); [discriminate |].
    cbv zeta in Hfail. unfold db_statement in Hfail.
    destruct (Z.geb_spec (a + 1) (MAX_RETRY_ATTEMPTS cfg)); [| lia].
    destruct (w_db_fault w OpMarkFailed); [discriminate |].
    injection Hfail as <-. intros j. cbn [st_jobs set_jobs].
    rewrite lookup_alter. case_decide; [| congruence].
    destruct (st_jobs s !! job_id); [| discriminate]. intros [= <-]. reflexivity. }
  destruct (get_next_job cfg w' s1) as [[[r |] | e] s2] eqn:Hrun.
  - apply get_next_job_selected in Hrun as (j & Hsel & ->).
    apply select_claimable_Some in Hsel as (Hlook & Hst & _).
    assert (ref_id r <> job_id) as Hne.
    { intros Heq. rewrite Heq in Hlook. apply Hrow in Hlook. congruence. }
    split; [exact Hne |]. cbn [st_jobs set_jobs]. now apply lookup_insert_ne.
  - rewrite get_next_job_eq in Hrun.
    destruct (w_db_connect w' OpGetNextJob); [discriminate |].
    destruct (w_db_cursor w' OpGetNextJob); [discriminate |].
    destruct (w_db_fault w' OpGetNextJob); [discriminate |].
    destruct (select_claimable cfg (st_jobs s1)) as [[id j] |]; congruence.
  - rewrite get_next_job_eq in Hrun.
    destruct (w_db_connect w' OpGetNextJob); [congruence |].
    destruct (w_db_cursor w' OpGetNextJob); [congruence |].
    destruct (w_db_fault w' OpGetNextJob); [congruence |].
    destruct (select_claimable cfg (st_jobs s1)) as [[id j] |]; congruence.
Qed.

Lemma failed_job_not_claimed_witness :
  exists s1,
    mark_job_failed default_config (offline_at 20) 7 "timeout" 2 one_job_state
      = (Ok tt, s1)
    /\ match get_next_job default_config (offline_at 21) s1 with
       | (Ok (Some r), s2) => ref_id r <> 7 /\ st_jobs s2 !! 7 = st_jobs s1 !! 7
       | (_, s2) => s2 = s1
       end.
Proof.
  eexists. split; [vm_compute; reflexivity |].
  apply (failed_job_not_claimed default_config (offline_at 20) (offline_at 21) 7
           "timeout" 2 one_job_state); [vm_compute; reflexivity | simpl; lia].
Defined.

(** ** main.py: more about reading and writing content *)

(** X14.  [fetch_content] only reads, and only rows of the asking client: it
    returns the columns of the post with the given id when that post belongs
    to the client, and raises otherwise.  The order of its failures is that
    of the source: the connection first, then the cursor, then the content
    type (anything but [instagram_posts] is refused without a query), then
    the query, and last a post that is missing or belongs to someone else.
    The state is the same afterwards in every case. *)
Theorem fetch_content_contract (w : world) (ctype cid client : string) (s : state) :
  match fetch_content w ctype cid client s with
  | (Ok d, s') =>
    s' = s /\ store_up w OpFetchContent /\ ctype = "instagram_posts"
    /\ exists p, st_posts s !! cid = Some p /\ post_client_id p = client
         /\ d = mk_post_dict cid (caption p) (media_type p) (media_url p)
                             (thumbnail_url p)
  | (Raise e, s') =>
    s' = s
    /\ match w_db_connect w OpFetchContent, w_db_cursor w OpFetchContent with
       | Some fault, _ => e = mk_exn DatabaseError fault
       | None, Some fault => e = mk_exn DatabaseError fault
       | None, None =>
         if String.eqb ctype "instagram_posts"
         then match w_db_fault w OpFetchContent with
              | Some fault => e = mk_exn DatabaseError fault
              | None =>
                (forall p, st_posts s !! cid = Some p -> post_client_id p <> client)
                /\ e = mk_exn Exception
                         ("Content not found: " +:+ ctype +:+ "/" +:+ cid)
              end
         else e = mk_exn Exception
                    ("Unsupported content type for multimodal embedding: " +:+ ctype)
       end
  end.
Proof.
  unfold fetch_content. rewrite db_call_eq.
  destruct (w_db_connect w OpFetchContent) as [fault |] eqn:Hconnect; [auto |].
  destruct (w_db_cursor w OpFetchContent) as [fault |] eqn:Hcursor; [auto |].
  destruct (String.eqb_spec ctype "instagram_posts") as [-> | Hother]; cbn [negb].
  - unfold db_statement.
    destruct (w_db_fault w OpFetchContent) as [fault |] eqn:Hfault.
    + unfold raise. split; reflexivity.
    + unfold bind, get.
      destruct (st_posts s !! cid) as [p |] eqn:Hp.
      * destruct (String.eqb_spec (post_client_id p) client) as [Hmine | Hforeign].
        -- unfold ret. split; [reflexivity |].
           split; [repeat split; assumption |]. split; [reflexivity |].
           exists p. repeat split; assumption.
        -- unfold raise. split; [reflexivity |].
           split; [| reflexivity]. intros p' [= <-]. exact Hforeign.
      * unfold raise. split; [reflexivity |].
        split; [| reflexivity]. intros p' [=].
  - unfold raise. split; reflexivity.
Qed.

Lemma update_post_other (f : post -> post) (cid client cid' : string)
    (posts : gmap string post) :
  cid' <> cid -> update_post f cid client posts !! cid' = posts !! cid'.
Proof. intros Hne. unfold update_post. apply lookup_alter_ne. congruence. Qed.

Lemma update_post_own (f : post -> post) (cid client : string)
    (posts : gmap string post) :
  update_post f cid client posts !! cid =
    (fun p => if String.eqb (post_client_id p) client then f p else p)
      <$> posts !! cid.
Proof. unfold update_post. apply lookup_alter_eq. Qed.

(** X15.  [store_embedding] writes one row at most: the post with the given
    id, and only when it belongs to the given client; that row gets the
    vector, the model name and the time, and keeps its other columns.  Every
    other post, the jobs, the children and the disk stay as they are.  A
    store that fails, at the connection, the cursor or the statement, in
    that order, changes nothing and is what the function raises. *)
Theorem store_embedding_one_row (w : world) (cid client : string) (v : list float)
    (s : state) :
  match store_embedding w cid client v s with
  | (Ok _, s') =>
    store_up w OpStoreEmbedding
    /\ st_jobs s' = st_jobs s /\ st_children s' = st_children s
    /\ st_files s' = st_files s /\ st_trace s' = st_trace s
    /\ (forall cid', cid' <> cid -> st_posts s' !! cid' = st_posts s !! cid')
    /\ match st_posts s !! cid with
       | Some p =>
         exists p', st_posts s' !! cid = Some p'
           /\ caption p' = caption p /\ media_type p' = media_type p
           /\ transcript p' = transcript p /\ post_client_id p' = post_client_id p
           /\ media_url p' = media_url p /\ thumbnail_url p' = thumbnail_url p
           /\ has_audio p' = has_audio p /\ audio_language p' = audio_language p
           /\ if String.eqb (post_client_id p) client
              then embedding p' = Some v
                   /\ embedding_model p' = Some "embedding-001"
                   /\ embedded_at p' = Some (w_now w)
              else p' = p
       | None => st_posts s' !! cid = None
       end
  | (Raise e, s') =>
    s' = s
    /\ match w_db_connect w OpStoreEmbedding, w_db_cursor w OpStoreEmbedding,
             w_db_fault w OpStoreEmbedding with
       | Some fault, _, _ => e = mk_exn DatabaseError fault
       | None, Some fault, _ => e = mk_exn DatabaseError fault
       | None, None, Some fault => e = mk_exn DatabaseError fault
       | None, None, None => False
       end
  end.
Proof.
  unfold store_embedding. rewrite db_call_eq.
  destruct (w_db_connect w OpStoreEmbedding) as [fault |] eqn:Hconnect; [auto |].
  destruct (w_db_cursor w OpStoreEmbedding) as [fault |] eqn:Hcursor; [auto |].
  unfold db_statement.
  destruct (w_db_fault w OpStoreEmbedding) as [fault |] eqn:Hfault.
  { unfold raise. split; reflexivity. }
  unfold modify. cbn [st_jobs st_children st_files st_trace st_posts set_posts].
  split; [repeat split; assumption |].
  repeat (split; [reflexivity |]).
  split; [intros cid' Hne; now apply update_post_other |].
  rewrite update_post_own.
  destruct (st_posts s !! cid) as [p |]; cbn [fmap option_fmap option_map]; [| reflexivity].
  eexists. split; [reflexivity |].
  destruct (String.eqb (post_client_id p) client); cbn; repeat split; reflexivity.
Qed.

(** X16.  [store_transcript] writes the transcript, the audio flag and the
    language into the client's own post and leaves every embedding alone:
    after it each post has the embedding, the model name and the embedding
    time it had before.  A store that fails, at the connection, the cursor or
    the statement, in that order, changes nothing and is what the function
    raises. *)
Theorem store_transcript_keeps_embeddings (w : world) (cid client : string)
    (t : option pystr) (audio : bool) (language : string) (s : state) :
  match store_transcript w cid client t audio language s with
  | (Ok _, s') =>
    store_up w OpStoreTranscript
    /\ st_jobs s' = st_jobs s /\ st_files s' = st_files s
    /\ (forall cid', cid' <> cid -> st_posts s' !! cid' = st_posts s !! cid')
    /\ (forall cid',
          (fun p => (embedding p, embedding_model p, embedded_at p))
            <$> st_posts s' !! cid'
          = (fun p => (embedding p, embedding_model p, embedded_at p))
              <$> st_posts s !! cid')
    /\ (forall p, st_posts s !! cid = Some p -> post_client_id p = client ->
          exists p', st_posts s' !! cid = Some p'
            /\ transcript p' = t /\ has_audio p' = Some audio
            /\ audio_language p' = Some language)
  | (Raise e, s') =>
    s' = s
    /\ match w_db_connect w OpStoreTranscript, w_db_cursor w OpStoreTranscript,
             w_db_fault w OpStoreTranscript with
       | Some fault, _, _ => e = mk_exn DatabaseError fault
       | None, Some fault, _ => e = mk_exn DatabaseError fault
       | None, None, Some fault => e = mk_exn DatabaseError fault
       | None, None, None => False
       end
  end.
Proof.
  unfold store_transcript. rewrite db_call_eq.
  destruct (w_db_connect w OpStoreTranscript) as [fault |] eqn:Hconnect; [auto |].
  destruct (w_db_cursor w OpStoreTranscript) as [fault |] eqn:Hcursor; [auto |].
  unfold db_statement.
  destruct (w_db_fault w OpStoreTranscript) as [fault |] eqn:Hfault.
  { unfold raise. split; reflexivity. }
  unfold modify. cbn [st_jobs st_files st_posts set_posts].
  split; [repeat split; assumption |].
  repeat (split; [reflexivity |]).
  split; [intros cid' Hne; now apply update_post_other |].
  split.
  - intros cid'. destruct (decide (cid' = cid)) as [-> | Hne].
    + rewrite update_post_own. destruct (st_posts s !! cid) as [p |]; [| reflexivity].
      cbn [fmap option_fmap option_map].
      destruct (String.eqb (post_client_id p) client); reflexivity.
    + now rewrite update_post_other.
  - intros p Hp Hmine. rewrite update_post_own, Hp. cbn [fmap option_fmap option_map].
    rewrite (proj2 (String.eqb_eq _ _) Hmine).
    eexists. split; [reflexivity |]. repeat split; reflexivity.
Qed.

(** X17.  The transcript and the embedding live in different columns: when
    the store answers both functions, storing one and then the other gives
    the same posts as storing them the other way round. *)
Theorem store_transcript_embedding_commute (w : world) (cid client : string)
    (t : option pystr) (audio : bool) (language : string) (v : list float)
    (s : state) :
  store_up w OpStoreTranscript -> store_up w OpStoreEmbedding ->
  (store_transcript w cid client t audio language ;;;
   store_embedding w cid client v) s
  = (store_embedding w cid client v ;;;
     store_transcript w cid client t audio language) s.
Proof.
  intros (Hct & Hut & Ht) (Hce & Hue & He).
  unfold store_transcript, store_embedding, db_connect, db_cursor, db_statement.
  rewrite Hct, Hut, Ht, Hce, Hue, He. unfold bind, modify, ret. f_equal.
  destruct s as [jobs posts children files token trace]. unfold set_posts.
  cbn [st_jobs st_posts st_children st_files st_next_token st_trace]. f_equal.
  unfold update_post. apply map_eq. intros k.
  destruct (decide (k = cid)) as [-> | Hne];
    [| rewrite !lookup_alter_ne by congruence; reflexivity].
  rewrite !lookup_alter_eq.
  destruct (posts !! cid) as [p |]; [| reflexivity].
  cbn [fmap option_fmap option_map]. f_equal.
  destruct (String.eqb (post_client_id p) client) eqn:Hmine; cbn; rewrite Hmine;
    reflexivity.
Qed.

Lemma store_transcript_embedding_commute_witness :
  (store_transcript offline_world "post-1" "client" (Some (u "hello")) true "en" ;;;
   store_embedding offline_world "post-1" "client" [1%Q]) video_job_state
  = (store_embedding offline_world "post-1" "client" [1%Q] ;;;
     store_transcript offline_world "post-1" "client" (Some (u "hello")) true "en")
      video_job_state.
Proof.
  apply (store_transcript_embedding_commute offline_world "post-1" "client"
           (Some (u "hello")) true "en" [1%Q] video_job_state);
    repeat split; reflexivity.
Defined.

(** X18.  [get_primary_media_url] never changes the state, and it raises in
    one case only: when the pool hands out no connection, for the connection
    is taken before the [try].  With a connection it always answers.  When
    no cursor can be opened the answer is [None], whatever the media type;
    with a cursor it is the media URL for an image and the thumbnail URL for
    a video, without a query, [None] for a carousel whose query fails and for
    every other media type; and an URL it finds for a carousel is a column of
    a child of that post and client. *)
Theorem get_primary_media_url_outcomes (w : world) (post : post_dict)
    (client : string) (s : state) :
  match w_db_connect w OpGetPrimaryMediaUrl with
  | Some fault =>
    get_primary_media_url w post client s = (Raise (mk_exn DatabaseError fault), s)
  | None =>
    exists url,
      get_primary_media_url w post client s = (Ok url, s)
      /\ (w_db_cursor w OpGetPrimaryMediaUrl <> None -> url = None)
      /\ (w_db_cursor w OpGetPrimaryMediaUrl = None ->
          (pd_media_type post = "IMAGE" -> url = pd_media_url post)
          /\ (pd_media_type post = "VIDEO" -> url = pd_thumbnail_url post))
      /\ (pd_media_type post = "CAROUSEL_ALBUM" ->
          (w_db_fault w OpGetPrimaryMediaUrl <> None -> url = None)
          /\ (url <> None ->
              exists c, c ∈ st_children s /\ child_post_id c = pd_id post
                /\ child_client_id c = client
                /\ (url = child_thumbnail_url c \/ url = child_media_url c)))
      /\ (pd_media_type post <> "IMAGE" -> pd_media_type post <> "VIDEO" ->
          pd_media_type post <> "CAROUSEL_ALBUM" -> url = None)
  end.
Proof.
  unfold get_primary_media_url. unfold bind at 1. unfold db_connect.
  destruct (w_db_connect w OpGetPrimaryMediaUrl) as [fault |]; [reflexivity |].
  unfold ret at 1. unfold try_except. unfold bind at 1. unfold db_cursor.
  destruct (w_db_cursor w OpGetPrimaryMediaUrl) as [fault |].
  { unfold raise, ret. exists None. split; [reflexivity |].
    repeat split; try reflexivity; try discriminate; intros; contradiction. }
  unfold ret at 1.
  destruct (String.eqb_spec (pd_media_type post) "IMAGE") as [Himg | Himg].
  { unfold ret. eexists. split; [reflexivity |]. rewrite Himg.
    repeat split; try discriminate; try reflexivity; intros; contradiction. }
  destruct (String.eqb_spec (pd_media_type post) "VIDEO") as [Hvid | Hvid].
  { unfold ret. eexists. split; [reflexivity |]. rewrite Hvid.
    repeat split; try discriminate; try reflexivity; intros; contradiction. }
  destruct (String.eqb_spec (pd_media_type post) "CAROUSEL_ALBUM") as [Hcar | Hcar].
  - unfold db_statement.
    destruct (w_db_fault w OpGetPrimaryMediaUrl) as [fault |].
    + unfold raise, ret. eexists. split; [reflexivity |].
      repeat split; try contradiction; try reflexivity.
    + unfold bind, get, ret.
      destruct (first_child (st_children s) (pd_id post) client) as [c |] eqn:Hc.
      * eexists. split; [reflexivity |].
        repeat split; try contradiction.
        intros _. apply first_child_member in Hc as (Hin & Hpost & Hcl & _).
        exists c. repeat split; try assumption.
        unfold py_and_or. destruct (_ && _); auto.
      * eexists. split; [reflexivity |].
        repeat split; try contradiction; try reflexivity.
  - unfold ret. eexists. split; [reflexivity |].
    repeat split; try contradiction.
Qed.

(** ** lib/audio_extractor.py: more about the temporary files *)

Lemma set_files_all (s : state) :
  set_files (filter (fun q => q ∉ @nil path)) s = s.
Proof.
  unfold set_files. destruct s. simpl. f_equal.
  apply filter_keeps_all, Forall_forall. intros q _. apply not_elem_of_nil.
Qed.

Lemma remove_all_eq (chunk_paths : list path) (s : state) :
  foldr (fun p k => remove_if_exists p ;;; k) (ret tt) chunk_paths s =
    (Ok tt, set_files (filter (fun q => q ∉ chunk_paths)) s).
Proof.
  revert s. induction chunk_paths as [| p rest IH]; intros s; cbn [foldr].
  - unfold ret. now rewrite (set_files_all s).
  - unfold bind. rewrite remove_if_exists_eq, IH. f_equal.
    unfold set_files. simpl. f_equal. rewrite list_filter_filter.
    apply list_filter_iff. intros q. rewrite not_elem_of_cons. tauto.
Qed.

Lemma discard_chunks_eq {A} (chunk_paths : list path) (e : exn) (s : state) :
  discard_chunks (A := A) chunk_paths e s =
    (Raise (mk_exn Exception ("Failed to split audio into chunks: " +:+ exn_msg e)),
     set_files (filter (fun q => q ∉ chunk_paths)) s).
Proof. unfold discard_chunks, bind. now rewrite remove_all_eq. Qed.




(** X20.  [split_audio_into_chunks] on inputs it cannot split.  A chunk length
    of zero is a division by zero, reported as a failure to split, with
    nothing written.  When the duration cannot be read the handler fails
    itself, for [chunk_paths] is not bound yet, whatever the chunk length;
    the state is as before then, too. *)
Theorem split_audio_into_chunks_degenerate (w : world) (audio : path) (s : state) :
  match w_probe_duration w audio with
  | Ok _ =>
    split_audio_into_chunks w audio 0 s =
      (Raise (mk_exn Exception
                "Failed to split audio into chunks: float division by zero"), s)
  | Raise _ =>
    forall c,
      split_audio_into_chunks w audio c s =
        (Raise (mk_exn UnboundLocalError
           "cannot access local variable 'chunk_paths' where it is not associated with a value"),
         s)
  end.
Proof.
  unfold split_audio_into_chunks.
  destruct (w_probe_duration w audio) as [d | e] eqn:Hprobe.
  - unfold bind at 1. unfold try_except at 1, lift_result at 1.
    unfold bind at 1. unfold try_except at 1, lift_result at 1.
    unfold num_chunks, py_truediv. cbn [Z.eqb].
    rewrite discard_chunks_eq. now rewrite (set_files_all s).
  - intros c. unfold bind at 1. unfold try_except at 1, lift_result at 1.
    reflexivity.
Qed.




(** ** main.py: what [process_job] does to the store *)

#[global] Instance same_store_preorder : PreOrder same_store.
Proof.
  split; unfold same_store.
  - intros s. auto.
  - intros a b c (? & ? & ?) (? & ? & ?). repeat split; congruence.
Qed.

#[global] Instance own_rows_preorder (job_id : Z) (cid : string) :
  PreOrder (own_rows job_id cid).
Proof.
  split; unfold own_rows.
  - intros s. auto.
  - intros a b c (Hj1 & Hp1 & Hc1) (Hj2 & Hp2 & Hc2). repeat split.
    + intros id' Hne. rewrite Hj2, Hj1 by exact Hne. reflexivity.
    + intros cid' Hne. rewrite Hp2, Hp1 by exact Hne. reflexivity.
    + congruence.
Qed.

Lemma same_store_and_disk_store (s s' : state) :
  same_store_and_disk s s' -> same_store s s'.
Proof. intros (? & ? & ? & _). repeat split; assumption. Qed.

Lemma same_store_own_rows (job_id : Z) (cid : string) (s s' : state) :
  same_store s s' -> own_rows job_id cid s s'.
Proof. intros (Hj & Hp & Hc). unfold own_rows. rewrite Hj, Hp. auto. Qed.

(** *** The functions of the libraries do not touch the store *)

Lemma mkstemp_same_store (suffix prefix : string) :
  preserves same_store (mkstemp suffix prefix).
Proof. intros s r s' [= <- <-]. repeat split. Qed.

Lemma remove_if_exists_same_store (p : path) : preserves same_store (remove_if_exists p).
Proof.
  intros s r s'. unfold remove_if_exists.
  destruct (path_exists p s); intros [= <- <-]; repeat split.
Qed.

Lemma log_event_same_store (ev : event) : preserves same_store (log_event ev).
Proof.
  eapply preserves_weaken; [apply same_store_and_disk_store | apply log_event_same].
Qed.

Lemma extract_audio_same_store (w : world) (video audio : path) :
  preserves same_store (extract_audio_from_video w video audio).
Proof. unfold extract_audio_from_video. preserves_open. Qed.

Lemma process_video_same_store (w : world) (url : option string) :
  preserves same_store (process_video_for_transcription w url).
Proof.
  unfold process_video_for_transcription, download_video. preserves_open;
    first [ apply mkstemp_same_store | apply remove_if_exists_same_store
          | apply log_event_same_store | apply extract_audio_same_store ].
Qed.

Lemma discard_chunks_same_store {A} (chunk_paths : list path) (e : exn) :
  preserves same_store (discard_chunks (A := A) chunk_paths e).
Proof.
  unfold discard_chunks. preserves_open.
  induction chunk_paths as [| p rest IH]; cbn [foldr]; preserves_open.
  - apply remove_if_exists_same_store.
  - apply IH.
Qed.

Lemma chunk_loop_same_store (w : world) (audio : path) (c : Z) (indices : list Z)
    (acc : list path) :
  preserves same_store (chunk_loop w audio c indices acc).
Proof.
  revert acc. induction indices as [| i rest IH]; intros acc;
    cbn [chunk_loop]; preserves_open;
    first [ apply mkstemp_same_store | apply log_event_same_store
          | apply discard_chunks_same_store | apply IH ].
Qed.

Lemma split_local_same_store (w : world) (p : option path) (c : Z) :
  preserves same_store (split_local w p c).
Proof.
  unfold split_local, split_audio_into_chunks. preserves_open;
    first [ apply discard_chunks_same_store | apply chunk_loop_same_store ].
Qed.

Lemma cleanup_temp_files_same_store (file_paths : list (option path)) :
  preserves same_store (cleanup_temp_files file_paths).
Proof.
  induction file_paths as [| [p |] rest IH]; cbn [cleanup_temp_files];
    preserves_open; first [apply remove_if_exists_same_store | apply IH].
Qed.

Lemma fetch_content_same_store (w : world) (ctype cid client : string) :
  preserves same_store (fetch_content w ctype cid client).
Proof. unfold fetch_content. preserves_open. Qed.

Lemma get_primary_media_url_same_store (w : world) (post : post_dict)
    (client : string) :
  preserves same_store (get_primary_media_url w post client).
Proof. unfold get_primary_media_url. preserves_open. Qed.

Lemma generate_multimodal_embedding_same_store (w : world) (text : option pystr)
    (url : option string) :
  preserves same_store (generate_multimodal_embedding w text url).
Proof.
  eapply preserves_weaken;
    [apply same_store_and_disk_store | apply generate_multimodal_embedding_same].
Qed.

Lemma transcribe_local_same_store (w : world) (p : option path) :
  preserves same_store (transcribe_local w p).
Proof.
  unfold transcribe_local. preserves_open.
  eapply preserves_weaken; [apply same_store_and_disk_store | apply transcribe_audio_same].
Qed.

Lemma transcribe_long_audio_same_store (w : world) (chunk_paths : list path)
    (language : string) :
  preserves same_store (transcribe_long_audio w chunk_paths language).
Proof.
  eapply preserves_weaken;
    [apply same_store_and_disk_store | apply transcribe_long_audio_same].
Qed.

Create HintDb same_store.
#[local] Hint Resolve process_video_same_store split_local_same_store
  cleanup_temp_files_same_store fetch_content_same_store
  get_primary_media_url_same_store generate_multimodal_embedding_same_store
  transcribe_local_same_store transcribe_long_audio_same_store : same_store.

(** *** The statements that write *)

Lemma store_embedding_own_rows (w : world) (job_id : Z) (cid client : string)
    (v : list float) :
  preserves (own_rows job_id cid) (store_embedding w cid client v).
Proof.
  unfold store_embedding. preserves_open. apply preserves_modify.
  intros s. repeat split. intros cid' Hne. now apply update_post_other.
Qed.

Lemma store_transcript_own_rows (w : world) (job_id : Z) (cid client : string)
    (t : option pystr) (audio : bool) (language : string) :
  preserves (own_rows job_id cid) (store_transcript w cid client t audio language).
Proof.
  unfold store_transcript. preserves_open. apply preserves_modify.
  intros s. repeat split. intros cid' Hne. now apply update_post_other.
Qed.

Lemma mark_job_completed_own_rows (w : world) (job_id : Z) (cid : string) :
  preserves (own_rows job_id cid) (mark_job_completed w job_id).
Proof.
  unfold mark_job_completed. preserves_open. apply preserves_modify.
  intros s. repeat split. intros id' Hne. apply lookup_alter_ne. congruence.
Qed.

Lemma mark_job_failed_own_rows (cfg : config) (w : world) (job_id : Z) (cid : string)
    (msg : string) (a : Z) :
  preserves (own_rows job_id cid) (mark_job_failed cfg w job_id msg a).
Proof.
  unfold mark_job_failed. preserves_open; apply preserves_modify;
    intros s; repeat split; intros id' Hne; apply lookup_alter_ne; congruence.
Qed.

(** A step of [process_job], seen from the rows of other jobs and posts. *)
Ltac own_rows_step :=
  lazymatch goal with
  | |- preserves _ (run (store_embedding _ _ _ _)) =>
      apply preserves_run, store_embedding_own_rows
  | |- preserves _ (run (store_transcript _ _ _ _ _ _)) =>
      apply preserves_run, store_transcript_own_rows
  | |- preserves _ (run (mark_job_completed _ _)) =>
      apply preserves_run, mark_job_completed_own_rows
  | |- preserves _ (run (mark_job_failed _ _ _ _ _)) =>
      apply preserves_run, mark_job_failed_own_rows
  | |- preserves _ (run _) =>
      apply preserves_run; eapply preserves_weaken; [apply same_store_own_rows |];
      auto with same_store
  | |- preserves _ (store_and_complete _ _ _) => unfold store_and_complete
  | |- preserves _ (process_video_post _ _ _) => unfold process_video_post
  | |- _ => preserves_step
  end.

Lemma process_job_body_own_rows (cfg : config) (w : world) (job : job_ref) :
  preserves (on_state (own_rows (ref_id job) (ref_content_id job)))
    (try_finally
       (try_except (process_job_try w job)
          (fun e => run (mark_job_failed cfg w (ref_id job) (exn_msg e)
                                         (ref_attempts job))))
       process_job_finally).
Proof. unfold process_job_try, process_job_finally. repeat own_rows_step. Qed.

(** X23.  [process_job] writes to the row of its own job and to the row of
    its own post, and to nothing else in the store: every other job and every
    other post is the same afterwards, and so are the carousel children,
    whether the job completes, fails or raises. *)
Theorem process_job_own_rows (cfg : config) (w : world) (job : job_ref) (s : state) :
  let s' := (process_job cfg w job s).2 in
  (forall id', id' <> ref_id job -> st_jobs s' !! id' = st_jobs s !! id')
  /\ (forall cid', cid' <> ref_content_id job ->
        st_posts s' !! cid' = st_posts s !! cid')
  /\ st_children s' = st_children s.
Proof.
  cbv zeta. unfold process_job.
  destruct (try_finally _ _ _) as [r [s1 f1]] eqn:Hbody. cbn [snd].
  exact (process_job_body_own_rows cfg w job _ _ _ Hbody).
Qed.

(** ** main.py: how [process_job] settles its job *)

#[global] Instance same_jobs_preorder : PreOrder same_jobs.
Proof. split; unfold same_jobs; [intros s | intros a b c]; congruence. Qed.















Lemma fetch_content_readonly (w : world) (ctype cid client : string) :
  preserves eq (fetch_content w ctype cid client).
Proof. unfold fetch_content. preserves_open. Qed.

(** [process_job] when its [try] block raises before it has made a file: the
    failure is recorded, and that is all. *)
Lemma process_job_early_failure (cfg : config) (w : world) (job : job_ref)
    (s : state) (e : exn) :
  process_job_try w job (s, mk_frame None None []) = (Raise e, (s, mk_frame None None [])) ->
  process_job cfg w job s =
    mark_job_failed cfg w (ref_id job) (exn_msg e) (ref_attempts job) s.
Proof.
  intros Htry. unfold process_job, try_finally, try_except. rewrite Htry.
  unfold run. cbn [fst snd].
  destruct (mark_job_failed cfg w (ref_id job) (exn_msg e) (ref_attempts job) s)
    as [r s1].
  unfold process_job_finally, bind, get. cbn. unfold ret. now destruct r as [[] |].
Qed.

(** X25.  A job whose content cannot be fetched (the post is missing, belongs
    to another client, is of a content type the worker does not handle, or
    the store fails) consumes one attempt: [process_job] does exactly what
    [mark_job_failed] does with the message of that error. *)
Theorem process_job_fetch_failure (cfg : config) (w : world) (job : job_ref)
    (s s1 : state) (e : exn) :
  fetch_content w (ref_content_type job) (ref_content_id job) (ref_client_id job) s
    = (Raise e, s1) ->
  process_job cfg w job s =
    mark_job_failed cfg w (ref_id job) (exn_msg e) (ref_attempts job) s.
Proof.
  intros Hfetch. pose proof (fetch_content_readonly _ _ _ _ _ _ _ Hfetch) as <-.
  apply process_job_early_failure.
  unfold process_job_try. unfold bind at 1. unfold run at 1. cbn [fst snd].
  rewrite Hfetch. reflexivity.
Qed.

Lemma process_job_fetch_failure_witness :
  process_job default_config (offline_at 20) job_7 one_job_state =
    mark_job_failed default_config (offline_at 20) 7
      "Content not found: instagram_posts/post-1" 0 one_job_state.
Proof.
  apply (process_job_fetch_failure default_config (offline_at 20) job_7 one_job_state
           one_job_state
           (mk_exn Exception "Content not found: instagram_posts/post-1")).
  reflexivity.
Defined.

(** The trace is what [mark_job_failed] never adds to. *)
Lemma mark_job_failed_trace (cfg : config) (w : world) (job_id : Z) (msg : string)
    (a : Z) (s : state) :
  st_trace (mark_job_failed cfg w job_id msg a s).2 = st_trace s.
Proof.
  unfold mark_job_failed. rewrite db_call_eq.
  destruct (w_db_connect w OpMarkFailed); [reflexivity |].
  destruct (w_db_cursor w OpMarkFailed); [reflexivity |].
  cbv zeta. unfold db_statement, bind, lift_result, modify, raise.
  destruct (_ >=? _).
  - destruct (w_db_fault w OpMarkFailed); reflexivity.
  - destruct (if _ <? _ then _ else _); [| reflexivity].
    destruct (w_db_fault w OpMarkFailed); reflexivity.
Qed.

(** X26.  A post whose media type is none of [VIDEO], [IMAGE] and
    [CAROUSEL_ALBUM] is not sent anywhere: once [fetch_content] has returned
    such a post, no download and no call of the embedding service is made,
    and the job consumes one attempt with the message "Unsupported media
    type". *)
Theorem process_job_unsupported_media_type (cfg : config) (w : world) (job : job_ref)
    (s s1 : state) (d : post_dict) :
  fetch_content w (ref_content_type job) (ref_content_id job) (ref_client_id job) s
    = (Ok d, s1) ->
  pd_media_type d <> "VIDEO" -> pd_media_type d <> "IMAGE" ->
  pd_media_type d <> "CAROUSEL_ALBUM" ->
  process_job cfg w job s =
    mark_job_failed cfg w (ref_id job) ("Unsupported media type: " +:+ pd_media_type d)
                    (ref_attempts job) s
  /\ st_trace (process_job cfg w job s).2 = st_trace s.
Proof.
  intros Hfetch Hvid Himg Hcar.
  pose proof (fetch_content_readonly _ _ _ _ _ _ _ Hfetch) as <-.
  assert (process_job cfg w job s =
            mark_job_failed cfg w (ref_id job)
              ("Unsupported media type: " +:+ pd_media_type d) (ref_attempts job) s)
    as Hrun.
  { apply (process_job_early_failure cfg w job s
             (mk_exn Exception ("Unsupported media type: " +:+ pd_media_type d))).
    unfold process_job_try. unfold bind at 1. unfold run at 1. cbn [fst snd].
    rewrite Hfetch. cbv zeta.
    rewrite (proj2 (String.eqb_neq _ _) Hvid), (proj2 (String.eqb_neq _ _) Himg),
      (proj2 (String.eqb_neq _ _) Hcar).
    reflexivity. }
  split; [exact Hrun |]. rewrite Hrun. apply mark_job_failed_trace.
Qed.

Lemma process_job_unsupported_media_type_witness :
  process_job default_config (offline_at 20) job_7 story_job_state =
    mark_job_failed default_config (offline_at 20) 7 "Unsupported media type: STORY" 0
                    story_job_state
  /\ st_trace (process_job default_config (offline_at 20) job_7 story_job_state).2 = [].
Proof.
  apply (process_job_unsupported_media_type default_config (offline_at 20) job_7
           story_job_state story_job_state
           (mk_post_dict "post-1" (Some (u "a story")) "STORY"
                         (Some "https://cdn.example/story.jpg") None));
    first [reflexivity | discriminate].
Defined.

(** ** main.py: the disk across jobs and turns of the loop *)

#[global] Instance later_token_preorder : PreOrder later_token.
Proof.
  split; unfold later_token.
  - intros s. lia.
  - intros a b c Hab Hbc. lia.
Qed.

Lemma same_disk_later_token (s s' : state) : same_disk s s' -> later_token s s'.
Proof. intros [_ H]. unfold later_token. rewrite H. lia. Qed.

Lemma mkstemp_later_token (suffix prefix : string) :
  preserves later_token (mkstemp suffix prefix).
Proof. intros s r s' [= <- <-]. unfold later_token. simpl. lia. Qed.

Lemma remove_if_exists_later_token (p : path) :
  preserves later_token (remove_if_exists p).
Proof.
  intros s r s'. rewrite remove_if_exists_eq. intros [= <- <-].
  unfold later_token. simpl. lia.
Qed.

Lemma log_event_later_token (ev : event) : preserves later_token (log_event ev).
Proof.
  eapply preserves_weaken; [| apply log_event_same].
  intros s s' H. now apply same_disk_later_token, same_store_and_disk_disk.
Qed.

Lemma extract_audio_later_token (w : world) (video audio : path) :
  preserves later_token (extract_audio_from_video w video audio).
Proof. unfold extract_audio_from_video. preserves_open. Qed.

Lemma process_video_later_token (w : world) (url : option string) :
  preserves later_token (process_video_for_transcription w url).
Proof.
  unfold process_video_for_transcription, download_video. preserves_open;
    first [ apply mkstemp_later_token | apply remove_if_exists_later_token
          | apply log_event_later_token | apply extract_audio_later_token ].
Qed.

Lemma discard_chunks_later_token {A} (chunk_paths : list path) (e : exn) :
  preserves later_token (discard_chunks (A := A) chunk_paths e).
Proof.
  unfold discard_chunks. preserves_open.
  induction chunk_paths as [| p rest IH]; cbn [foldr]; preserves_open.
  - apply remove_if_exists_later_token.
  - apply IH.
Qed.

Lemma chunk_loop_later_token (w : world) (audio : path) (c : Z) (indices : list Z)
    (acc : list path) :
  preserves later_token (chunk_loop w audio c indices acc).
Proof.
  revert acc. induction indices as [| i rest IH]; intros acc;
    cbn [chunk_loop]; preserves_open;
    first [ apply mkstemp_later_token | apply log_event_later_token
          | apply discard_chunks_later_token | apply IH ].
Qed.

Lemma split_local_later_token (w : world) (p : option path) (c : Z) :
  preserves later_token (split_local w p c).
Proof.
  unfold split_local, split_audio_into_chunks. preserves_open;
    first [ apply discard_chunks_later_token | apply chunk_loop_later_token ].
Qed.

Lemma cleanup_temp_files_later_token (file_paths : list (option path)) :
  preserves later_token (cleanup_temp_files file_paths).
Proof.
  induction file_paths as [| [p |] rest IH]; cbn [cleanup_temp_files];
    preserves_open; first [apply remove_if_exists_later_token | apply IH].
Qed.

Create HintDb later_token.
#[local] Hint Resolve process_video_later_token split_local_later_token
  cleanup_temp_files_later_token : later_token.










(** X29.  What one turn of the loop does.  It never raises.  When it has
    processed a job, that job was pending with attempts left and no such job
    was older; [get_next_job] has made its row [processing] with [started_at]
    at the time of the turn and left the other rows alone; and [process_job]
    has returned on it.  Otherwise it sleeps: for the poll interval, with the
    state unchanged, when the store answers and no job is pending with
    attempts left; for twice the interval when the store did not answer
    [get_next_job] (state unchanged) or when [process_job] raised on the job
    that was claimed. *)
Theorem poll_iteration_outcomes (cfg : config) (w : world) (s : state) :
  exists o s',
    poll_iteration cfg w s = (Ok o, s')
    /\ match o with
       | Processed r =>
         exists j j' s1,
           st_jobs s !! ref_id r = Some j
           /\ status j = pending /\ attempts j < MAX_RETRY_ATTEMPTS cfg
           /\ (forall id1 j1, st_jobs s !! id1 = Some j1 -> status j1 = pending ->
                 attempts j1 < MAX_RETRY_ATTEMPTS cfg -> created_at j <= created_at j1)
           /\ ref_attempts r = attempts j
           /\ st_jobs s1 !! ref_id r = Some j'
           /\ status j' = processing /\ started_at j' = Some (w_now w)
           /\ (forall id', id' <> ref_id r -> st_jobs s1 !! id' = st_jobs s !! id')
           /\ get_next_job cfg w s = (Ok (Some r), s1)
           /\ process_job cfg w r s1 = (Ok tt, s')
       | Slept seconds =>
         (seconds = (inject_Z (POLL_INTERVAL_MS cfg) / 1000)%Q
          /\ s' = s /\ store_up w OpGetNextJob
          /\ forall id j, st_jobs s !! id = Some j ->
               ~ (status j = pending /\ attempts j < MAX_RETRY_ATTEMPTS cfg))
         \/ (seconds = (inject_Z (POLL_INTERVAL_MS cfg) / 1000 * 2)%Q
             /\ ((~ store_up w OpGetNextJob /\ s' = s)
                 \/ exists r s1 e j',
                      get_next_job cfg w s = (Ok (Some r), s1)
                      /\ st_jobs s1 !! ref_id r = Some j'
                      /\ status j' = processing
                      /\ process_job cfg w r s1 = (Raise e, s')))
       end.
Proof.
  pose proof (get_next_job_eq cfg w s) as Hnext.
  assert (poll_iteration cfg w s =
            match get_next_job cfg w s with
            | (Ok (Some r), s1) =>
              match process_job cfg w r s1 with
              | (Ok _, s2) => (Ok (Processed r), s2)
              | (Raise _, s2) =>
                (Ok (Slept (inject_Z (POLL_INTERVAL_MS cfg) / 1000 * 2)%Q), s2)
              end
            | (Ok None, s1) =>
              (Ok (Slept (inject_Z (POLL_INTERVAL_MS cfg) / 1000)%Q), s1)
            | (Raise _, s1) =>
              (Ok (Slept (inject_Z (POLL_INTERVAL_MS cfg) / 1000 * 2)%Q), s1)
            end) as Hturn.
  { unfold poll_iteration, try_except. unfold bind at 1.
    destruct (get_next_job cfg w s) as [[[r |] | e] s1]; try reflexivity.
    unfold bind. destruct (process_job cfg w r s1) as [[[] | e] s2]; reflexivity. }
  destruct (w_db_connect w OpGetNextJob) as [fault |] eqn:Hconnect.
  { do 2 eexists. split; [rewrite Hturn, Hnext; reflexivity |].
    right. split; [reflexivity |]. left.
    split; [| reflexivity]. intros (Hup & _). congruence. }
  destruct (w_db_cursor w OpGetNextJob) as [fault |] eqn:Hcursor.
  { do 2 eexists. split; [rewrite Hturn, Hnext; reflexivity |].
    right. split; [reflexivity |]. left.
    split; [| reflexivity]. intros (_ & Hup & _). congruence. }
  destruct (w_db_fault w OpGetNextJob) as [fault |] eqn:Hfault.
  { do 2 eexists. split; [rewrite Hturn, Hnext; reflexivity |].
    right. split; [reflexivity |]. left.
    split; [| reflexivity]. intros (_ & _ & Hup). congruence. }
  destruct (select_claimable cfg (st_jobs s)) as [[id j] |] eqn:Hsel.
  - apply select_claimable_Some in Hsel as (Hlook & Hst & Hat & Hmin).
    set (r := mk_job_ref id (client_id j) (content_id j) (content_type j)
                         (attempts j)) in *.
    set (s1 := set_jobs (insert id (set_processing (w_now w) j)) s) in *.
    assert (st_jobs s1 !! id = Some (set_processing (w_now w) j)) as Hrow
      by apply lookup_insert_eq.
    assert (forall id', id' <> id -> st_jobs s1 !! id' = st_jobs s !! id') as Hothers
      by (intros id' Hne; now apply lookup_insert_ne).
    destruct (process_job cfg w r s1) as [[[] | e] s2] eqn:Hrun.
    + exists (Processed r), s2. split; [rewrite Hturn, Hnext, Hrun; reflexivity |].
      exists j, (set_processing (w_now w) j), s1.
      repeat split; assumption.
    + eexists _, s2. split; [rewrite Hturn, Hnext, Hrun; reflexivity |].
      right. split; [reflexivity |]. right.
      exists r, s1, e, (set_processing (w_now w) j).
      repeat split; assumption.
  - do 2 eexists. split; [rewrite Hturn, Hnext; reflexivity |].
    left. split; [reflexivity |].
    split; [reflexivity |]. split; [repeat split; assumption |].
    now apply select_claimable_None.
Qed.
